(** * iotdemo: the journal (segmented write-ahead log), the ring buffer
      and the sink pipeline, embedded from the Go sources.

    Conventions of the embedding.
    - Go's fixed-width integers are [Z] with the wrap-around written out
      ([wrap32], [wrap64], [wrapInt]); [int] is 64 bits wide.
    - [[]byte] is [list byte]; a Go [string] is a [string].  Slices are
      modelled with capacity equal to length.
    - A Go function that returns [(T, error)] returns an [outcome T]; the
      third constructor, [Panic], is a run-time panic (index or slice
      bounds out of range), which no caller in the repository recovers.
    - Mutable objects are passed and returned explicitly. *)

From Stdlib Require Import ZArith Lia List.
From Stdlib.Strings Require Import String Ascii Byte.
From stdpp Require Import base list strings gmap sorting.

Local Open Scope Z_scope.

(** ** Errors and outcomes *)

(** The error values the modelled code can return.  [EOF] and
    [ErrUnexpectedEOF] are package [io]'s; [ErrAEADOpen] stands for the
    error of [cipher.AEAD.Open]; [ErrOther] carries the text of an error
    built with [fmt.Errorf] or returned by a callback. *)
Inductive error : Type :=
| EOF
| ErrUnexpectedEOF
| ErrBadChecksum
| ErrInvalidKeySize
| ErrCiphertextShort
| ErrAEADOpen
| ErrRand
| ErrFileExists
| ErrFileNotFound
| ErrClosed
| ErrJournalIsNil
| ErrSinkClosed
| ErrRateLimited
| ErrDuplicate
| ErrOther (msg : string).

Inductive outcome (A : Type) : Type :=
| Ok (a : A)
| Err (e : error)
| Panic.
Arguments Ok {A} a.
Arguments Err {A} e.
Arguments Panic {A}.

Definition bind {A B} (m : outcome A) (k : A -> outcome B) : outcome B :=
  match m with
  | Ok a => k a
  | Err e => Err e
  | Panic => Panic
  end.

Notation "'let*' x ':=' m 'in' k" := (bind m (fun x => k))
  (at level 10, x pattern, m at level 100, k at level 200).

(** ** Fixed-width integers *)

Definition wrap32 (z : Z) : Z := z mod 2 ^ 32.
Definition wrap64 (z : Z) : Z := z mod 2 ^ 64.
(** Two's complement [int] and [int64]. *)
Definition wrapInt (z : Z) : Z := (z + 2 ^ 63) mod 2 ^ 64 - 2 ^ 63.

Definition len {A} (l : list A) : Z := Z.of_nat (length l).

(** ** Package fmt and strconv: decimal integers *)

Module fmt.

Definition digit_char (d : Z) : ascii := ascii_of_N (48 + Z.to_N d).

(** The decimal digits of a non-negative [n], most significant first,
    put in front of [acc]; twenty digits cover 64 bits. *)
Fixpoint digits_aux (fuel : nat) (n : Z) (acc : string) : string :=
  match fuel with
  | O => acc
  | S f =>
      let acc' := String (digit_char (n mod 10)) acc in
      if n / 10 =? 0 then acc' else digits_aux f (n / 10) acc'
  end.

Definition FormatUint (n : Z) : string := digits_aux 20 n "".

(** [strconv.FormatInt(i, 10)]. *)
Definition FormatInt (i : Z) : string :=
  if i <? 0 then String "-" (FormatUint (- i)) else FormatUint i.

Fixpoint zeros (n : nat) : string :=
  match n with
  | O => ""
  | S k => String "0" (zeros k)
  end.

Definition pad0 (width : nat) (s : string) : string :=
  zeros (width - String.length s) +:+ s.

(** [fmt.Sprintf("%06d", n)]: at least six characters, zeros after the
    sign; a longer number is printed in full. *)
Definition Sprintf_06d (n : Z) : string :=
  if n <? 0 then String "-" (pad0 5 (FormatUint (- n)))
  else pad0 6 (FormatUint n).

Definition is_digit (c : ascii) : bool :=
  ((48 <=? N_of_ascii c) && (N_of_ascii c <=? 57))%N.

Definition digit_val (c : ascii) : Z := Z.of_N (N_of_ascii c) - 48.

(** The longest prefix of digits, and what follows it. *)
Fixpoint scan_digits (s : string) : string * string :=
  match s with
  | String c s' =>
      if is_digit c then
        let '(tok, rest) := scan_digits s' in (String c tok, rest)
      else (EmptyString, s)
  | EmptyString => (EmptyString, EmptyString)
  end.

Fixpoint parse_digits (s : string) (acc : Z) : Z :=
  match s with
  | String c s' => parse_digits s' (10 * acc + digit_val c)
  | EmptyString => acc
  end.

(** [ss.SkipSpace] of a scan without newline matching: blanks are
    skipped, a newline is an error.  Only the ASCII blanks are modelled. *)
Fixpoint skip_space (s : string) : option string :=
  match s with
  | String c s' =>
      let n := N_of_ascii c in
      if (n =? 10)%N then None
      else if ((n =? 32) || (n =? 9) || (n =? 11) || (n =? 12) || (n =? 13))%N
           then skip_space s'
           else Some s
  | EmptyString => Some s
  end.

Definition accept_sign (s : string) : bool * string :=
  match s with
  | String "-" s' => (true, s')
  | String "+" s' => (false, s')
  | _ => (false, s)
  end.

(** [fmt.Sscanf(name, "%d.wal", &n)]: [Some n] when it returns no error.
    The number is read by [strconv.ParseInt(tok, 10, 64)], which refuses a
    value outside [int64]; input after the literal [.wal] is not read. *)
Definition Sscanf_d_wal (name : string) : option Z :=
  match skip_space name with
  | None => None
  | Some s =>
      let '(neg, s1) := accept_sign s in
      let '(tok, rest) := scan_digits s1 in
      match tok with
      | EmptyString => None
      | _ =>
          let v := parse_digits tok 0 in
          let i := if neg then - v else v in
          if (i <? - 2 ^ 63) || (2 ^ 63 - 1 <? i) then None
          else if String.prefix ".wal" rest then Some i else None
      end
  end.

End fmt.

(** ** Bytes, package encoding/binary and package hash/crc32 *)

Definition byte_of_Z (z : Z) : byte :=
  match Byte.of_N (Z.to_N (z mod 256)) with
  | Some b => b
  | None => x00
  end.

Definition Z_of_byte (b : byte) : Z := Z.of_N (Byte.to_N b).

(** [make([]byte, n)]. *)
Definition make_bytes (n : Z) : list byte := replicate (Z.to_nat n) x00.

(** [l[lo:]] and [l[lo:hi]] of a slice whose capacity is its length: a
    panic unless [0 <= lo <= hi <= len(l)]. *)
Definition slice_from {A} (l : list A) (lo : Z) : outcome (list A) :=
  if (0 <=? lo) && (lo <=? len l) then Ok (drop (Z.to_nat lo) l) else Panic.

Definition slice {A} (l : list A) (lo hi : Z) : outcome (list A) :=
  if (0 <=? lo) && (lo <=? hi) && (hi <=? len l)
  then Ok (take (Z.to_nat (hi - lo)) (drop (Z.to_nat lo) l))
  else Panic.

(** [copy(dst, src)]: the first [min(len(dst), len(src))] bytes of [dst]
    are replaced. *)
Definition copy_into {A} (dst src : list A) : list A :=
  take (length dst) src ++ drop (length src) dst.

Module binary.

(** [binary.BigEndian.PutUint32] and [PutUint64], as the bytes written. *)
Definition PutUint32 (v : Z) : list byte :=
  [byte_of_Z (Z.shiftr v 24); byte_of_Z (Z.shiftr v 16);
   byte_of_Z (Z.shiftr v 8); byte_of_Z v].

Definition PutUint64 (v : Z) : list byte :=
  [byte_of_Z (Z.shiftr v 56); byte_of_Z (Z.shiftr v 48);
   byte_of_Z (Z.shiftr v 40); byte_of_Z (Z.shiftr v 32);
   byte_of_Z (Z.shiftr v 24); byte_of_Z (Z.shiftr v 16);
   byte_of_Z (Z.shiftr v 8); byte_of_Z v].

(** [binary.BigEndian.Uint32(b)] and [Uint64(b)]: a panic when [b] is
    shorter than the integer. *)
Definition Uint32 (b : list byte) : outcome Z :=
  match b with
  | b0 :: b1 :: b2 :: b3 :: _ =>
      Ok (Z.lor (Z_of_byte b3)
         (Z.lor (Z.shiftl (Z_of_byte b2) 8)
         (Z.lor (Z.shiftl (Z_of_byte b1) 16) (Z.shiftl (Z_of_byte b0) 24))))
  | _ => Panic
  end.

Definition Uint64 (b : list byte) : outcome Z :=
  match b with
  | b0 :: b1 :: b2 :: b3 :: b4 :: b5 :: b6 :: b7 :: _ =>
      Ok (Z.lor (Z_of_byte b7)
         (Z.lor (Z.shiftl (Z_of_byte b6) 8)
         (Z.lor (Z.shiftl (Z_of_byte b5) 16)
         (Z.lor (Z.shiftl (Z_of_byte b4) 24)
         (Z.lor (Z.shiftl (Z_of_byte b3) 32)
         (Z.lor (Z.shiftl (Z_of_byte b2) 40)
         (Z.lor (Z.shiftl (Z_of_byte b1) 48) (Z.shiftl (Z_of_byte b0) 56))))))))
  | _ => Panic
  end.

End binary.

Module crc32.

(** The reflected IEEE polynomial. *)
Definition poly : Z := 0xEDB88320.

Definition step (c : Z) : Z :=
  if Z.odd c then Z.lxor (Z.shiftr c 1) poly else Z.shiftr c 1.

Definition update (c : Z) (b : byte) : Z :=
  Nat.iter 8 step (Z.lxor c (Z_of_byte b)).

(** [crc32.ChecksumIEEE]: a [uint32]. *)
Definition ChecksumIEEE (data : list byte) : Z :=
  wrap32 (Z.lxor (fold_left update data 0xFFFFFFFF) 0xFFFFFFFF).

End crc32.

(** ** Package io over an in-memory reader *)

Module io.

(** What is left to read. *)
Definition Reader : Type := list byte.

(** [io.ReadFull(r, buf)] with [len(buf) = n]: nothing is read for
    [n = 0]; [EOF] when no byte is left; [ErrUnexpectedEOF] when some but
    fewer than [n] are. *)
Definition ReadFull (r : Reader) (n : Z) : outcome (list byte) * Reader :=
  if n <=? 0 then (Ok [], r)
  else if len r =? 0 then (Err EOF, r)
  else if len r <? n then (Err ErrUnexpectedEOF, [])
  else (Ok (take (Z.to_nat n) r), drop (Z.to_nat n) r).

End io.

(** ** Package journal: encrypt.go *)

(** [crypto/rand]: an endless supply of bytes; since Go 1.24 [rand.Read]
    never returns an error. *)
Definition Entropy : Type := nat -> byte.

Definition rand_Read (ent : Entropy) (n : Z) : list byte * Entropy :=
  (map ent (seq 0 (Z.to_nat n)), fun i => ent (Z.to_nat n + i)%nat).

Module encrypt.

(** [cipher.AEAD] as the package uses it: [Seal nonce plaintext] is the
    ciphertext followed by the tag, [Open nonce ciphertext] is [None]
    when authentication fails. *)
Record AEAD : Type := mkAEAD {
  NonceSize : Z;
  Overhead : Z;
  Seal : list byte -> list byte -> list byte;
  Open : list byte -> list byte -> option (list byte);
}.

Record AESGCMEncryptor : Type := mkAESGCMEncryptor { aead : AEAD }.

(** [NewAESGCMEncryptor]; [newGCM] stands for [aes.NewCipher] followed by
    [cipher.NewGCM]. *)
Definition NewAESGCMEncryptor (newGCM : list byte -> outcome AEAD)
    (key : list byte) : outcome AESGCMEncryptor :=
  if negb (len key =? 32) then Err ErrInvalidKeySize
  else let* a := newGCM key in Ok {| aead := a |}.

(** [Encrypt]: [aead.Seal(nonce, nonce, plaintext, nil)] appends the
    sealed text to the nonce. *)
Definition Encrypt (e : AESGCMEncryptor) (ent : Entropy) (plaintext : list byte)
  : Entropy * outcome (list byte) :=
  let '(nonce, ent') := rand_Read ent (NonceSize (aead e)) in
  (ent', Ok (nonce ++ Seal (aead e) nonce plaintext)).

(** [Decrypt]. *)
Definition Decrypt (e : AESGCMEncryptor) (ciphertext : list byte)
  : outcome (list byte) :=
  let nonceSize := NonceSize (aead e) in
  if len ciphertext <? nonceSize then Err ErrCiphertextShort
  else
    let* nonce := slice ciphertext 0 nonceSize in
    let* ct := slice_from ciphertext nonceSize in
    match Open (aead e) nonce ct with
    | Some plaintext => Ok plaintext
    | None => Err ErrAEADOpen
    end.

(** An AEAD with the sizes of AES-GCM (nonce 12, tag 16) that stands in
    for [cipher.NewGCM] where a closed term is needed.  It seals nothing:
    the tag is the CRC of nonce and text, repeated.  Like GCM, [Open]
    refuses a text shorter than the tag before anything else. *)
Definition model_tag (nonce text : list byte) : list byte :=
  let t := binary.PutUint32 (crc32.ChecksumIEEE (nonce ++ text)) in
  t ++ t ++ t ++ t.

Fixpoint list_byte_eqb (a b : list byte) : bool :=
  match a, b with
  | [], [] => true
  | x :: a', y :: b' => Byte.eqb x y && list_byte_eqb a' b'
  | _, _ => false
  end.

Definition model_gcm : AEAD :=
  {| NonceSize := 12;
     Overhead := 16;
     Seal := fun nonce plaintext => plaintext ++ model_tag nonce plaintext;
     Open := fun nonce ct =>
       if len ct <? 16 then None
       else
         let n := Z.to_nat (len ct - 16) in
         let text := take n ct in
         if list_byte_eqb (drop n ct) (model_tag nonce text)
         then Some text else None |}.

End encrypt.

(** ** Package journal: the storage and the journal *)

Module journal.

(** [segmentName]. *)
Definition segmentName (n : Z) : string := fmt.Sprintf_06d n +:+ ".wal".

(** Go compares strings byte by byte; [sort.Strings] sorts with [<]. *)
Definition string_lt (a b : string) : bool := String.ltb a b.

Fixpoint insert_sorted {A} (leb : A -> A -> bool) (x : A) (l : list A) : list A :=
  match l with
  | [] => [x]
  | y :: l' => if leb x y then x :: l else y :: insert_sorted leb x l'
  end.

Definition sort_by {A} (leb : A -> A -> bool) (l : list A) : list A :=
  foldr (insert_sorted leb) [] l.

(** [sort.Strings]: the ascending arrangement of the names. *)
Definition sort_Strings (l : list string) : list string :=
  sort_by String.leb l.

Record Entry : Type := mkEntry {
  Key : list byte;
  Value : list byte;
  Seq : Z;
}.

(** A call in the life of a log: [Write], [WriteBatch], or [Close]
    followed by [New] over the same storage with the same options. *)
Inductive op : Type :=
| OpWrite (key value : list byte)
| OpWriteBatch (entries : list Entry)
| OpReopen (maxSize : Z).

(** What a caller observes: a sequence number returned by [Write] or
    [WriteBatch], or the greatest sequence number of a startup scan. *)
Inductive observed : Type :=
| Issued (s : Z)
| Scanned (s : Z).

Definition issued (tr : list observed) : list Z :=
  flat_map (fun o => match o with Issued s => [s] | Scanned _ => [] end) tr.

Definition entries_of (o : op) : nat :=
  match o with
  | OpWrite _ _ => 1
  | OpWriteBatch entries => length entries
  | OpReopen _ => 0
  end.

(** *** FileStorage: a directory of files, by name *)

Abbreviation Storage := (gmap string (list byte)).

(** An [*os.File] open for writing at the end of the file. *)
Record Handle : Type := mkHandle {
  h_name : string;
  h_closed : bool;
}.

Fixpoint has_suffix (suffix s : string) : bool :=
  if String.eqb s suffix then true
  else match s with
       | String _ s' => has_suffix suffix s'
       | EmptyString => false
       end.

Definition Create (st : Storage) (name : string) : Storage * outcome Handle :=
  match st !! name with
  | Some _ => (st, Err ErrFileExists)
  | None => (<[name := []]> st, Ok {| h_name := name; h_closed := false |})
  end.

Definition Open (st : Storage) (name : string) : outcome io.Reader :=
  match st !! name with
  | Some data => Ok data
  | None => Err ErrFileNotFound
  end.

Definition OpenAppend (st : Storage) (name : string) : outcome (Handle * Z) :=
  match st !! name with
  | Some data => Ok ({| h_name := name; h_closed := false |}, len data)
  | None => Err ErrFileNotFound
  end.

(** [List]: [filepath.Glob] of [*.wal], which returns the names sorted. *)
Definition List (st : Storage) : list string :=
  sort_Strings (List.filter (has_suffix ".wal") (map fst (map_to_list st))).

Definition Sync (st : Storage) (name : string) : option error :=
  match st !! name with
  | Some _ => None
  | None => Some ErrFileNotFound
  end.

(** [os.File.Write]: all of [p] is appended, or nothing is.  The
    journal never removes a file, so the file of an open handle exists. *)
Definition file_Write (st : Storage) (h : Handle) (p : list byte)
  : Storage * option error :=
  if h_closed h then (st, Some ErrClosed)
  else match st !! h_name h with
       | Some data => (<[h_name h := data ++ p]> st, None)
       | None => (st, Some ErrFileNotFound)
       end.

Definition file_Close (h : Handle) : Handle * option error :=
  if h_closed h then (h, Some ErrClosed)
  else ({| h_name := h_name h; h_closed := true |}, None).

(** *** bufio.Writer with its default buffer of 4096 bytes *)

Record BufWriter : Type := mkBufWriter {
  wbuf : list byte;
  werr : option error;
}.

Definition bufSize : Z := 4096.
Definition NewWriter : BufWriter := {| wbuf := []; werr := None |}.
Definition Available (w : BufWriter) : Z := bufSize - len (wbuf w).

Definition Flush (st : Storage) (h : Handle) (w : BufWriter)
  : Storage * BufWriter * option error :=
  match werr w with
  | Some e => (st, w, Some e)
  | None =>
      if len (wbuf w) =? 0 then (st, w, None)
      else match file_Write st h (wbuf w) with
           | (st', None) => (st', {| wbuf := []; werr := None |}, None)
           | (st', Some e) => (st', {| wbuf := wbuf w; werr := Some e |}, Some e)
           end
  end.

(** The loop of [bufio.Writer.Write]; [turns] bounds the number of
    times its condition is tested.  Three are enough: a turn either
    writes all of [p] to the file or empties the buffer, and after an
    empty buffer the next turn writes all of [p]. *)
Fixpoint Write_loop (turns : nat) (st : Storage) (h : Handle) (w : BufWriter)
    (p : list byte) (nn : Z) : Storage * BufWriter * list byte * Z :=
  match turns with
  | O => (st, w, p, nn)
  | S k =>
      if (Available w <? len p) && negb (bool_decide (is_Some (werr w))) then
        if len (wbuf w) =? 0 then
          match file_Write st h p with
          | (st', None) => Write_loop k st' h w [] (nn + len p)
          | (st', Some e) =>
              Write_loop k st' h {| wbuf := wbuf w; werr := Some e |} p nn
          end
        else
          let n := Z.to_nat (Available w) in
          let w1 := {| wbuf := wbuf w ++ take n p; werr := werr w |} in
          let '(st', w2, _) := Flush st h w1 in
          Write_loop k st' h w2 (drop n p) (nn + Available w)
      else (st, w, p, nn)
  end.

Definition bufio_Write (st : Storage) (h : Handle) (w : BufWriter) (p : list byte)
  : Storage * BufWriter * outcome Z :=
  let '(st', w', p', nn) := Write_loop 3 st h w p 0 in
  match werr w' with
  | Some e => (st', w', Err e)
  | None => (st', {| wbuf := wbuf w' ++ p'; werr := None |}, Ok (nn + len p'))
  end.

(** *** The record codec *)

(** The canonical body that [write] lays out in [data]. *)
Definition entry_body (e : Entry) : list byte :=
  binary.PutUint64 (Seq e) ++
  binary.PutUint32 (wrap32 (len (Key e))) ++ Key e ++
  binary.PutUint32 (wrap32 (len (Value e))) ++ Value e.

(** The framed record of a payload: length, checksum, payload. *)
Definition frame (data : list byte) : list byte :=
  binary.PutUint32 (wrap32 (len data)) ++
  binary.PutUint32 (crc32.ChecksumIEEE data) ++ data.

(** The second half of [read]: the entry of a decrypted payload. *)
Definition parse_body (data : list byte) : outcome Entry :=
  let pos := 0 in
  let* d := slice_from data pos in
  let* seq := binary.Uint64 d in
  let pos := pos + 8 in
  let* d := slice_from data pos in
  let* keyLen := binary.Uint32 d in
  let pos := pos + 4 in
  let* src := slice data pos (pos + keyLen) in
  let key := copy_into (make_bytes keyLen) src in
  let pos := pos + keyLen in
  let* d := slice_from data pos in
  let* valLen := binary.Uint32 d in
  let pos := pos + 4 in
  let* src := slice_from data pos in
  let val := copy_into (make_bytes valLen) src in
  Ok {| Key := key; Value := val; Seq := seq |}.

Section Journal.

(** The dynamic type of the [Encryptor] the journal is configured with:
    the state of such an object, and its two methods.  [Encrypt] may
    change the state (it draws a nonce); [Decrypt] does not. *)
Context {EncState : Type}.
Variable Encrypt : EncState -> list byte -> EncState * outcome (list byte).
Variable Decrypt : EncState -> list byte -> outcome (list byte).

(** [file] is the [*os.File] that both [writer] and [closer] refer to. *)
Record Journal : Type := mkJournal {
  storage : Storage;
  current : string;
  file : option Handle;
  writer : option BufWriter;
  seq : Z;
  size : Z;
  maxSize : Z;
  segment : Z;
  encryptor : option EncState;
}.

Definition set_storage (j : Journal) (st : Storage) : Journal :=
  mkJournal st (current j) (file j) (writer j) (seq j) (size j) (maxSize j)
            (segment j) (encryptor j).
Definition set_file (j : Journal) (f : option Handle) : Journal :=
  mkJournal (storage j) (current j) f (writer j) (seq j) (size j) (maxSize j)
            (segment j) (encryptor j).
Definition set_writer (j : Journal) (w : option BufWriter) : Journal :=
  mkJournal (storage j) (current j) (file j) w (seq j) (size j) (maxSize j)
            (segment j) (encryptor j).
Definition set_seq (j : Journal) (s : Z) : Journal :=
  mkJournal (storage j) (current j) (file j) (writer j) s (size j) (maxSize j)
            (segment j) (encryptor j).
Definition set_size (j : Journal) (s : Z) : Journal :=
  mkJournal (storage j) (current j) (file j) (writer j) (seq j) s (maxSize j)
            (segment j) (encryptor j).
Definition set_segment (j : Journal) (s : Z) : Journal :=
  mkJournal (storage j) (current j) (file j) (writer j) (seq j) (size j)
            (maxSize j) s (encryptor j).
Definition set_encryptor (j : Journal) (e : option EncState) : Journal :=
  mkJournal (storage j) (current j) (file j) (writer j) (seq j) (size j)
            (maxSize j) (segment j) e.

(** [Journal.write]: the number of bytes the writer accepted. *)
Definition write (j : Journal) (e : Entry) : Journal * outcome Z :=
  let data := entry_body e in
  let '(j1, sealed) :=
    match encryptor j with
    | None => (j, Ok data)
    | Some s => let '(s', r) := Encrypt s data in (set_encryptor j (Some s'), r)
    end in
  match sealed with
  | Ok data =>
      match writer j1, file j1 with
      | Some w, Some h =>
          let '(st, w', r) := bufio_Write (storage j1) h w (frame data) in
          (set_writer (set_storage j1 st) (Some w'), r)
      | _, _ => (j1, Panic)
      end
  | Err err => (j1, Err err)
  | Panic => (j1, Panic)
  end.

(** [Journal.read]. *)
Definition read (enc : option EncState) (r : io.Reader)
  : outcome Entry * io.Reader :=
  match io.ReadFull r 4 with
  | (Ok lenBuf, r1) =>
      match binary.Uint32 lenBuf with
      | Ok length =>
          match io.ReadFull r1 4 with
          | (Ok crcBuf, r2) =>
              match binary.Uint32 crcBuf with
              | Ok expectedCRC =>
                  match io.ReadFull r2 length with
                  | (Ok data, r3) =>
                      if negb (crc32.ChecksumIEEE data =? expectedCRC)
                      then (Err ErrBadChecksum, r3)
                      else
                        match enc with
                        | None => (parse_body data, r3)
                        | Some s =>
                            (let* plain := Decrypt s data in parse_body plain, r3)
                        end
                  | (Err e, r3) => (Err e, r3)
                  | (Panic, r3) => (Panic, r3)
                  end
              | Err e => (Err e, r2)
              | Panic => (Panic, r2)
              end
          | (Err e, r2) => (Err e, r2)
          | (Panic, r2) => (Panic, r2)
          end
      | Err e => (Err e, r1)
      | Panic => (Panic, r1)
      end
  | (Err e, r1) => (Err e, r1)
  | (Panic, r1) => (Panic, r1)
  end.

(** The loop of [scan]: the greatest sequence number read, starting from
    [s].  A record takes at least eight bytes, so the loop turns at most
    once per byte left and once more; [None] is a loop cut short. *)
Fixpoint scan_loop (turns : nat) (enc : option EncState) (r : io.Reader) (s : Z)
  : option (outcome Z) :=
  match turns with
  | O => None
  | S k =>
      match read enc r with
      | (Ok e, r') => scan_loop k enc r' (if s <? Seq e then Seq e else s)
      | (Err EOF, _) => Some (Ok s)
      | (Err err, _) => Some (Err err)
      | (Panic, _) => Some Panic
      end
  end.

(** [Journal.scan]. *)
Definition scan (j : Journal) (name : string) : Journal * outcome unit :=
  match Open (storage j) name with
  | Ok r =>
      match scan_loop (S (length r)) (encryptor j) r (seq j) with
      | Some (Ok s) => (set_seq j s, Ok tt)
      | Some (Err err) => (j, Err err)
      | Some Panic | None => (j, Panic)
      end
  | Err err => (j, Err err)
  | Panic => (j, Panic)
  end.

(** [Journal.newSegment]. *)
Definition newSegment (j : Journal) : Journal * outcome unit :=
  let closed :=
    match file j with
    | Some h =>
        match writer j with
        | None => (j, Panic)
        | Some w =>
            let '(st, w', err) := Flush (storage j) h w in
            let j1 := set_writer (set_storage j st) (Some w') in
            match err with
            | Some e => (j1, Err e)
            | None =>
                match Sync (storage j1) (current j1) with
                | Some e => (j1, Err e)
                | None =>
                    let '(h', err) := file_Close h in
                    let j2 := set_file j1 (Some h') in
                    match err with
                    | Some e => (j2, Err e)
                    | None => (j2, Ok tt)
                    end
                end
            end
        end
    | None => (j, Ok tt)
    end in
  match closed with
  | (j1, Ok _) =>
      let j2 := set_segment j1 (wrapInt (segment j1 + 1)) in
      let name := segmentName (segment j2) in
      match Create (storage j2) name with
      | (st, Ok h) =>
          (mkJournal st name (Some h) (Some NewWriter) (seq j2) 0 (maxSize j2)
                     (segment j2) (encryptor j2), Ok tt)
      | (st, Err e) => (set_storage j2 st, Err e)
      | (st, Panic) => (set_storage j2 st, Panic)
      end
  | (j1, Err e) => (j1, Err e)
  | (j1, Panic) => (j1, Panic)
  end.

(** [Journal.openLatest]. *)
Definition openLatest (j : Journal) : Journal * outcome unit :=
  let names := List (storage j) in
  match names with
  | [] => newSegment j
  | _ =>
      let latest :=
        fold_left (fun latest name =>
                     match fmt.Sscanf_d_wal name with
                     | Some n => if latest <? n then n else latest
                     | None => latest
                     end) names 0 in
      let j1 := set_segment j latest in
      let name := segmentName latest in
      match scan j1 name with
      | (j2, Ok _) =>
          match OpenAppend (storage j2) name with
          | Ok (h, sz) =>
              (mkJournal (storage j2) name (Some h) (Some NewWriter) (seq j2) sz
                         (maxSize j2) (segment j2) (encryptor j2), Ok tt)
          | Err e => (j2, Err e)
          | Panic => (j2, Panic)
          end
      | (j2, Err e) => (j2, Err e)
      | (j2, Panic) => (j2, Panic)
      end
  end.

(** [New]; [enc] is the encryptor of a [WithEncryptor] option, if any. *)
Definition New (st : Storage) (maxSize : Z) (enc : option EncState)
  : outcome Journal :=
  let maxSize := if maxSize =? 0 then 64 * 1024 * 1024 else maxSize in
  let w := mkJournal st "" None None 0 0 maxSize 0 enc in
  match openLatest w with
  | (w', Ok _) => Ok w'
  | (_, Err e) => Err e
  | (_, Panic) => Panic
  end.

(** What [Write] and [WriteBatch] do for one entry once its sequence
    number is set: rotate if the segment is full, write, add to [size]. *)
Definition append (j : Journal) (e : Entry) : Journal * outcome unit :=
  let rotated :=
    if maxSize j <=? size j then newSegment j else (j, Ok tt) in
  match rotated with
  | (j1, Ok _) =>
      match write j1 e with
      | (j2, Ok n) => (set_size j2 (wrapInt (size j2 + n)), Ok tt)
      | (j2, Err err) => (j2, Err err)
      | (j2, Panic) => (j2, Panic)
      end
  | (j1, Err err) => (j1, Err err)
  | (j1, Panic) => (j1, Panic)
  end.

(** [Journal.Write]. *)
Definition Write (j : Journal) (key value : list byte) : Journal * outcome Z :=
  let j1 := set_seq j (wrap64 (seq j + 1)) in
  let e := {| Key := key; Value := value; Seq := seq j1 |} in
  match append j1 e with
  | (j2, Ok _) => (j2, Ok (Seq e))
  | (j2, Err err) => (j2, Err err)
  | (j2, Panic) => (j2, Panic)
  end.

(** The loop of [WriteBatch] over [entries[i:]]: [done] is [entries[:i]]
    as the loop left it, [seqs] what it has assigned.  The caller's slice
    is returned as the loop leaves it, also when it stops on an error. *)
Fixpoint WriteBatch_loop (j : Journal) (done todo : list Entry) (seqs : list Z)
  : Journal * list Entry * outcome (list Z) :=
  match todo with
  | [] => (j, done, Ok seqs)
  | e :: rest =>
      let j1 := set_seq j (wrap64 (seq j + 1)) in
      let e' := {| Key := Key e; Value := Value e; Seq := seq j1 |} in
      match append j1 e' with
      | (j2, Ok _) => WriteBatch_loop j2 (done ++ [e']) rest (seqs ++ [seq j1])
      | (j2, Err err) => (j2, done ++ e' :: rest, Err err)
      | (j2, Panic) => (j2, done ++ e' :: rest, Panic)
      end
  end.

(** [Journal.WriteBatch]: the journal, the caller's slice, the result. *)
Definition WriteBatch (j : Journal) (entries : list Entry)
  : Journal * list Entry * outcome (list Z) :=
  WriteBatch_loop j [] entries [].

(** [Journal.Sync]. *)
Definition Sync_journal (j : Journal) : Journal * outcome unit :=
  match writer j, file j with
  | Some w, Some h =>
      let '(st, w', err) := Flush (storage j) h w in
      let j1 := set_writer (set_storage j st) (Some w') in
      match err with
      | Some e => (j1, Err e)
      | None =>
          match Sync (storage j1) (current j1) with
          | Some e => (j1, Err e)
          | None => (j1, Ok tt)
          end
      end
  | _, _ => (j, Panic)
  end.

(** [Journal.Close]: the error returned, if any. *)
Definition Close (j : Journal) : Journal * option error :=
  let '(j1, firstErr) :=
    match writer j, file j with
    | Some w, Some h =>
        let '(st, w', err) := Flush (storage j) h w in
        (set_writer (set_storage j st) (Some w'), err)
    | _, _ => (j, None)
    end in
  match file j1 with
  | Some h =>
      let '(h', err) := file_Close h in
      (set_file j1 (Some h'),
       match firstErr with Some e => Some e | None => err end)
  | None => (j1, firstErr)
  end.

(** The inner loop of [Replay] over one segment.  [fn] is the callback
    with the state it closes over.  [None] is a loop cut short. *)
Fixpoint replay_loop {A} (turns : nat) (enc : option EncState)
    (fn : A -> Entry -> A * option error) (r : io.Reader) (a : A)
  : option (A * outcome unit) :=
  match turns with
  | O => None
  | S k =>
      match read enc r with
      | (Err EOF, _) => Some (a, Ok tt)
      | (Err err, _) => Some (a, Err err)
      | (Panic, _) => Some (a, Panic)
      | (Ok e, r') =>
          match fn a e with
          | (a', Some err) => Some (a', Err err)
          | (a', None) => replay_loop k enc fn r' a'
          end
      end
  end.

Fixpoint replay_segments {A} (st : Storage) (enc : option EncState)
    (fn : A -> Entry -> A * option error) (names : list string) (a : A)
  : A * outcome unit :=
  match names with
  | [] => (a, Ok tt)
  | name :: names' =>
      match Open st name with
      | Ok r =>
          match replay_loop (S (length r)) enc fn r a with
          | Some (a', Ok _) => replay_segments st enc fn names' a'
          | Some (a', Err err) => (a', Err err)
          | Some (a', Panic) => (a', Panic)
          | None => (a, Panic)
          end
      | _ => replay_segments st enc fn names' a
      end
  end.

(** [Journal.Replay]. *)
Definition Replay {A} (j : Journal) (fn : A -> Entry -> A * option error) (a : A)
  : A * outcome unit :=
  replay_segments (storage j) (encryptor j) fn (sort_Strings (List (storage j))) a.

(** A history of successful calls, from the journal [j]: the journal at
    the end and what was observed, in order.  A call that fails ends the
    history with its error. *)
Fixpoint run (j : Journal) (ops : list op) : outcome (Journal * list observed) :=
  match ops with
  | [] => Ok (j, [])
  | OpWrite key value :: ops' =>
      match Write j key value with
      | (j1, Ok s) =>
          let* (j2, tr) := run j1 ops' in Ok (j2, Issued s :: tr)
      | (_, Err e) => Err e
      | (_, Panic) => Panic
      end
  | OpWriteBatch entries :: ops' =>
      match WriteBatch j entries with
      | (j1, _, Ok seqs) =>
          let* (j2, tr) := run j1 ops' in Ok (j2, map Issued seqs ++ tr)
      | (_, _, Err e) => Err e
      | (_, _, Panic) => Panic
      end
  | OpReopen maxSize :: ops' =>
      match Close j with
      | (j1, None) =>
          let* j2 := New (storage j1) maxSize (encryptor j1) in
          let* (j3, tr) := run j2 ops' in Ok (j3, Scanned (seq j2) :: tr)
      | (_, Some e) => Err e
      end
  end.

End Journal.

(** A journal built without [WithEncryptor]: its [encryptor] field is
    nil, and no encryptor object exists for its methods to be called on. *)
Definition NoEncryptor : Type := Empty_set.

Definition no_Encrypt (s : NoEncryptor) (data : list byte)
  : NoEncryptor * outcome (list byte) := match s with end.

Definition no_Decrypt (s : NoEncryptor) (data : list byte)
  : outcome (list byte) := match s with end.

(** A journal configured with the [AESGCMEncryptor] [e]: the state of
    the encryptor is the supply of random bytes it draws nonces from. *)
Definition aes_Encrypt (e : encrypt.AESGCMEncryptor) (ent : Entropy)
    (data : list byte) : Entropy * outcome (list byte) :=
  encrypt.Encrypt e ent data.

Definition aes_Decrypt (e : encrypt.AESGCMEncryptor) (ent : Entropy)
    (data : list byte) : outcome (list byte) :=
  encrypt.Decrypt e data.

(** *** MemStorage: the storage of the tests, kept in memory *)

Module MemStorage.

(** A [memFile]: the bytes of its buffer and the flag that [Close] of a
    writer sets. *)
Record memFile : Type := mkMemFile {
  data : list byte;
  closed : bool;
}.

(** The map [files].  No method removes or replaces an entry, so the
    [*memFile] a writer holds is the file of its name. *)
Abbreviation Files := (gmap string memFile).

Record memWriter : Type := mkMemWriter { name : string }.

Definition NewMemStorage : Files := ∅.

Definition Create (ms : Files) (nm : string) : Files * outcome memWriter :=
  match ms !! nm with
  | Some _ => (ms, Err (ErrOther "file exists"))
  | None => (<[nm := {| data := []; closed := false |}]> ms, Ok {| name := nm |})
  end.

(** [Open]: a reader over the bytes the file holds at this moment. *)
Definition Open (ms : Files) (nm : string) : outcome io.Reader :=
  match ms !! nm with
  | Some mf => Ok (data mf)
  | None => Err (ErrOther "file not found")
  end.

Definition OpenAppend (ms : Files) (nm : string) : outcome (memWriter * Z) :=
  match ms !! nm with
  | Some mf => Ok ({| name := nm |}, len (data mf))
  | None => Err (ErrOther "file not found")
  end.

(** [List]: the names, in the order of a [range] over the map, which Go
    leaves unspecified. *)
Definition List (ms : Files) : list string := map fst (map_to_list ms).

Definition Sync (ms : Files) (nm : string) : option error := None.

(** [memWriter.Write] and [memWriter.Close]. *)
Definition Write (ms : Files) (mw : memWriter) (p : list byte)
  : Files * outcome Z :=
  match ms !! name mw with
  | Some mf =>
      if closed mf then (ms, Err ErrClosed)
      else (<[name mw := {| data := data mf ++ p; closed := closed mf |}]> ms,
            Ok (len p))
  | None => (ms, Panic)
  end.

Definition Close (ms : Files) (mw : memWriter) : Files * option error :=
  match ms !! name mw with
  | Some mf => (<[name mw := {| data := data mf; closed := true |}]> ms, None)
  | None => (ms, None)
  end.

(** [Write] of each chunk in turn, while it succeeds. *)
Fixpoint write_all (ms : Files) (mw : memWriter) (ps : list (list byte))
  : Files * outcome unit :=
  match ps with
  | [] => (ms, Ok tt)
  | p :: ps' =>
      match Write ms mw p with
      | (ms', Ok _) => write_all ms' mw ps'
      | (ms', Err e) => (ms', Err e)
      | (ms', Panic) => (ms', Panic)
      end
  end.

End MemStorage.

End journal.

(** ** Package rb: the ring buffer *)

(** [l[i]]: a panic when [i] is out of range. *)
Definition index {A} (l : list A) (i : Z) : outcome A :=
  if (0 <=? i) && (i <? len l) then
    match l !! Z.to_nat i with
    | Some x => Ok x
    | None => Panic
    end
  else Panic.

(** The indices [0, 1, ..., n-1] of a [for i := 0; i < n; i++] loop. *)
Definition upto (n : Z) : list Z := map Z.of_nat (seq 0 (Z.to_nat n)).

Module rb.
Section RingBuffer.
Context {T : Type}.
(** The zero value of [T], which [make] fills a new slice with. *)
Variable zero : T.

(** [pos] is the write position, [used] the field [len] (slots used).
    Both stay within [len(buf)], so the increments never overflow. *)
Record RingBuffer : Type := mkRingBuffer {
  buf : list T;
  pos : Z;
  used : Z;
}.

Definition New (capacity : Z) : RingBuffer :=
  {| buf := replicate (Z.to_nat (Z.max capacity 1)) zero; pos := 0; used := 0 |}.

(** [Add]: the value found in the slot written, and whether the buffer
    was full.  The read of [buf[pos]] comes first, so an empty [buf]
    panics before the remainder is taken. *)
Definition Add (r : RingBuffer) (val : T) : outcome (RingBuffer * (T * bool)) :=
  let* dropped := index (buf r) (pos r) in
  let wasFull := used r =? len (buf r) in
  let buf' := <[Z.to_nat (pos r) := val]> (buf r) in
  let pos' := Z.rem (pos r + 1) (len (buf r)) in
  let used' := if wasFull then used r else used r + 1 in
  Ok ({| buf := buf'; pos := pos'; used := used' |}, (dropped, wasFull)).

(** The body of the loop of [All] over the indices [idxs]; [yield]
    answers whether the consumer wants more.  The result lists the values
    handed to [yield]. *)
Fixpoint All_loop (r : RingBuffer) (yield : T -> bool) (idxs : list Z)
  : outcome (list T) :=
  match idxs with
  | [] => Ok []
  | i :: idxs' =>
      if len (buf r) =? 0 then Panic
      else
        let idx := Z.rem (pos r - 1 - i + len (buf r)) (len (buf r)) in
        let* v := index (buf r) idx in
        if yield v then
          let* rest := All_loop r yield idxs' in Ok (v :: rest)
        else Ok [v]
  end.

Definition All (r : RingBuffer) (yield : T -> bool) : outcome (list T) :=
  All_loop r yield (upto (used r)).

(** A [for v := range r.All()] loop that never breaks. *)
Definition collect (r : RingBuffer) : outcome (list T) :=
  All r (fun _ => true).

(** [Add] of each value in turn, from the left. *)
Fixpoint add_all (r : RingBuffer) (vs : list T) : outcome RingBuffer :=
  match vs with
  | [] => Ok r
  | v :: vs' => let* (r', _) := Add r v in add_all r' vs'
  end.

End RingBuffer.
End rb.

(** ** Package entity *)

Module entity.

Record Event : Type := mkEvent {
  IdempotencyID : string;
  Sensor : string;
  Value : Z;
  UnixTimestamp : Z;
}.

(** The zero value of [Event]. *)
Definition zero : Event := mkEvent "" "" 0 0.

End entity.

(** ** Package sink *)

Module sink.
Import entity.

(** A handler runs on the state it closes over, [W]. *)
Definition Handler (W : Type) : Type := Event -> W -> W * outcome unit.
Definition Middleware (W : Type) : Type := Handler W -> Handler W.

(** *** dedup.go *)

(** [m] is the [sync.Map], used as a set of keys; [count] is a [uint64]. *)
Record Deduplicator : Type := mkDeduplicator {
  m : gset string;
  count : Z;
}.

Definition NewDeduplicator : Deduplicator := {| m := ∅; count := 0 |}.

(** One tick of the sweep that [Start] runs: every key is deleted and
    the counter is reset. *)
Definition sweep (d : Deduplicator) : Deduplicator := {| m := ∅; count := 0 |}.

Definition Count (d : Deduplicator) : Z := count d.

Section Dedup.
(** The deduplicator is part of the state [W] that the chain runs on. *)
Context {W : Type}.
Variable getD : W -> Deduplicator.
Variable setD : Deduplicator -> W -> W.

(** [Deduplicator.Middleware]; [LoadOrStore] stores the key when it is
    not yet there. *)
Definition dedup_Middleware : Middleware W :=
  fun next ev w =>
    if String.eqb (IdempotencyID ev) "" then next ev w
    else
      let d := getD w in
      if bool_decide (IdempotencyID ev ∈ m d) then (w, Err ErrDuplicate)
      else
        let d' := {| m := {[IdempotencyID ev]} ∪ m d;
                     count := wrap64 (count d + 1) |} in
        next ev (setD d' w).

End Dedup.

(** *** ratelimit.go *)

(** [limiter] is the [rate.Limiter] of golang.org/x/time, with the clock
    it reads; [DroppedCounter] is a [uint64]. *)
Record RateLimiter (L : Type) : Type := mkRateLimiter {
  limiter : L;
  DroppedCounter : Z;
}.
Arguments mkRateLimiter {L}.
Arguments limiter {L}.
Arguments DroppedCounter {L}.

Section RateLimit.
Context {W L : Type}.
(** [limiter.AllowN(time.Now(), n)]: the answer and the limiter after
    the call; [ev.Msgsize()] of the generated code. *)
Variable AllowN : L -> Z -> bool * L.
Variable Msgsize : Event -> Z.
Variable getR : W -> RateLimiter L.
Variable setR : RateLimiter L -> W -> W.

(** [RateLimiter.Middleware]. *)
Definition ratelimit_Middleware : Middleware W :=
  fun next ev w =>
    let n := Msgsize ev in
    let rl := getR w in
    let '(allowed, l') := AllowN (limiter rl) n in
    if negb allowed then
      (setR {| limiter := l';
               DroppedCounter := wrap64 (DroppedCounter rl + 1) |} w,
       Err ErrRateLimited)
    else
      next ev (setR {| limiter := l'; DroppedCounter := DroppedCounter rl |} w).

End RateLimit.

(** *** sink.go *)

Section Sink.
(** The implementation of the [Journal] interface the sink is given: its
    state and its two methods. *)
Context {J : Type}.
Variable J_Write : J -> list byte -> list byte -> J * outcome Z.
Variable J_WriteBatch : J -> list journal.Entry -> J * outcome (list Z).
(** [Event.MarshalMsg(nil)], generated by msgp and not among the sources. *)
Variable MarshalMsg : Event -> outcome (list byte).
(** What the middlewares close over. *)
Context {X : Type}.

Record Sink : Type := mkSink {
  journal : option J;
  buf : rb.RingBuffer (T:=Event);
  bufSize : Z;
  closed : bool;
}.

Definition defaultBufSize : Z := 128.

(** [New]: [bufSize] is the argument of a [WithBufSize] option, if any. *)
Definition New (j : option J) (bufSize : option Z) : Sink :=
  let size := default defaultBufSize bufSize in
  {| journal := j; buf := rb.New entity.zero size; bufSize := size;
     closed := false |}.

(** [fmtKey]. *)
Definition fmtKey (sensor : string) (ts : Z) : list byte :=
  list_byte_of_string
    ("sensor_" +:+ sensor +:+ "{ts=" +:+ fmt.FormatInt ts +:+ "}").

(** [appendToBuffer].  A method call on a nil [Journal] panics. *)
Definition appendToBuffer : Handler (Sink * X) :=
  fun ev w =>
    let '(s, x) := w in
    match rb.Add (buf s) ev with
    | Ok (b, (loot, isDropped)) =>
        let s1 := mkSink (journal s) b (bufSize s) (closed s) in
        if isDropped then
          match MarshalMsg loot with
          | Ok val =>
              match journal s1 with
              | Some j =>
                  let '(j', r) :=
                    J_Write j (fmtKey (Sensor loot) (UnixTimestamp loot)) val in
                  ((mkSink (Some j') b (bufSize s) (closed s), x),
                   let* _ := r in Ok tt)
              | None => ((s1, x), Panic)
              end
          | Err err => ((s1, x), Err err)
          | Panic => ((s1, x), Panic)
          end
        else ((s1, x), Ok tt)
    | Err err => (w, Err err)
    | Panic => (w, Panic)
    end.

(** [buildChain]: the first middleware registered runs first. *)
Definition buildChain (middlewares : list (Middleware (Sink * X)))
  : Handler (Sink * X) :=
  foldr (fun mw h => mw h) appendToBuffer middlewares.

(** [Append], for a sink built with [middlewares]. *)
Definition Append (middlewares : list (Middleware (Sink * X)))
  : Handler (Sink * X) :=
  fun ev w =>
    if closed (fst w) then (w, Err ErrSinkClosed)
    else match journal (fst w) with
         | None => (w, Err ErrJournalIsNil)
         | Some _ => buildChain middlewares ev w
         end.

(** The batch that [flush] builds from what [All] yields. *)
Fixpoint make_batch (evs : list Event) : outcome (list journal.Entry) :=
  match evs with
  | [] => Ok []
  | ev :: evs' =>
      let* val := MarshalMsg ev in
      let* rest := make_batch evs' in
      Ok ({| journal.Key := fmtKey (Sensor ev) (UnixTimestamp ev);
             journal.Value := val; journal.Seq := 0 |} :: rest)
  end.

(** [flush]. *)
Definition flush (s : Sink) : Sink * outcome unit :=
  match journal s with
  | None => (s, Err ErrJournalIsNil)
  | Some j =>
      match (let* evs := rb.collect (buf s) in make_batch evs) with
      | Ok batch =>
          let '(j', r) := J_WriteBatch j batch in
          (mkSink (Some j') (buf s) (bufSize s) (closed s), let* _ := r in Ok tt)
      | Err err => (s, Err err)
      | Panic => (s, Panic)
      end
  end.

(** [Close]. *)
Definition Close (s : Sink) : Sink * outcome unit :=
  flush (mkSink (journal s) (buf s) (bufSize s) true).

(** [Append] of each event in turn; the results are dropped, as the
    tests drop them. *)
Fixpoint append_all (middlewares : list (Middleware (Sink * X)))
    (evs : list Event) (w : Sink * X) : Sink * X :=
  match evs with
  | [] => w
  | ev :: evs' => append_all middlewares evs' (fst (Append middlewares ev w))
  end.

End Sink.

(** The journal of the tests: it records the calls of [Write] and
    answers with the number of the call; [WriteBatch] answers nil. *)
Definition Recorder : Type := list (list byte * list byte).

Definition Recorder_Write (j : Recorder) (k v : list byte) : Recorder * outcome Z :=
  (j ++ [(k, v)], Ok (len j + 1)).

Definition Recorder_WriteBatch (j : Recorder) (entries : list journal.Entry)
  : Recorder * outcome (list Z) := (j, Ok []).

(** Running a handler over events in turn: the state at the end and the
    result of each call. *)
Fixpoint run_handler {W} (h : Handler W) (evs : list Event) (w : W)
  : W * list (outcome unit) :=
  match evs with
  | [] => (w, [])
  | ev :: evs' =>
      let '(w1, r) := h ev w in
      let '(w2, rs) := run_handler h evs' w1 in
      (w2, r :: rs)
  end.

(** The terminal handler of the deduplicator's tests: it appends the
    event to [received]. *)
Definition recording_handler : Handler (Deduplicator * list Event) :=
  fun ev w => ((fst w, snd w ++ [ev]), Ok tt).

End sink.

(** ** Package transport: the HTTP handlers in front of the sink *)

Module transport.
Import entity.

(** The status codes of fasthttp that the handlers use. *)
Definition StatusOK : Z := 200.
Definition StatusAccepted : Z := 202.
Definition StatusBadRequest : Z := 400.
Definition StatusNotFound : Z := 404.
Definition StatusMethodNotAllowed : Z := 405.
Definition StatusConflict : Z := 409.
Definition StatusUnsupportedMediaType : Z := 415.
Definition StatusTooManyRequests : Z := 429.
Definition StatusInternalServerError : Z := 500.

(** What the handlers read of a [fasthttp.RequestCtx]. *)
Record Request : Type := mkRequest {
  Path : string;
  IsPost : bool;
  ContentType : string;
  PostBody : list byte;
}.

(** The body of a response: nothing, a fixed text, the text of an error
    ([err.Error()]), or the metrics page. *)
Inductive body : Type :=
  | NoBody
  | Text (s : string)
  | ErrorText (e : error)
  | Metrics.

Record Response : Type := mkResponse {
  StatusCode : Z;
  Body : body;
}.

(** [ctx.Error(msg, code)], and [ctx.SetStatusCode(code)] on a response
    that has no body yet. *)
Definition ctx_Error (msg : body) (code : Z) : Response :=
  {| StatusCode := code; Body := msg |}.

Definition status (code : Z) : Response := {| StatusCode := code; Body := NoBody |}.

Definition ErrNilSink : error := ErrOther "sink is nil".

Section Server.
(** The [Sink] the server is given: its state and its method. *)
Context {W : Type}.
Variable Append : Event -> W -> W * outcome unit.
(** [json.Unmarshal(data, &ev)] and [ev.UnmarshalMsg(data)] into a zero
    event, and the lines a [bufio.Scanner] finds in a body, with the
    error it stops on, if any: library and generated code. *)
Variable json_Unmarshal : list byte -> Event + error.
Variable UnmarshalMsg : list byte -> Event + error.
Variable scan_lines : list byte -> list (list byte) * option error.

(** [handleEvent]. *)
Definition handleEvent (req : Request) (w : W) : W * outcome Response :=
  if negb (IsPost req) then
    (w, Ok (ctx_Error (Text "method not allowed") StatusMethodNotAllowed))
  else
    let ct := ContentType req in
    let body := PostBody req in
    if len body =? 0 then (w, Ok (ctx_Error (Text "empty body") StatusBadRequest))
    else
      let parsed :=
        if String.eqb ct "application/json" then Some (json_Unmarshal body)
        else if String.eqb ct "application/msgpack" then Some (UnmarshalMsg body)
        else None in
      match parsed with
      | None =>
          (w, Ok (ctx_Error (Text "unsupported content-type")
                    StatusUnsupportedMediaType))
      | Some (inr err) => (w, Ok (ctx_Error (ErrorText err) StatusBadRequest))
      | Some (inl ev) =>
          match Append ev w with
          | (w', Ok _) => (w', Ok (status StatusAccepted))
          | (w', Err ErrRateLimited) => (w', Ok (status StatusTooManyRequests))
          | (w', Err ErrDuplicate) => (w', Ok (status StatusConflict))
          | (w', Err err) =>
              (w', Ok (ctx_Error (ErrorText err) StatusInternalServerError))
          | (w', Panic) => (w', Panic)
          end
      end.

(** The first loop of [handleBatch], over the lines scanned: the events
    parsed, or the number of the line that does not parse. *)
Fixpoint parse_lines (lines : list (list byte)) (line : Z) (events : list Event)
  : list Event + Z :=
  match lines with
  | [] => inl events
  | data :: rest =>
      let line := line + 1 in
      if len data =? 0 then parse_lines rest line events
      else
        match json_Unmarshal data with
        | inl ev => parse_lines rest line (events ++ [ev])
        | inr _ => inr line
        end
  end.

(** The second loop of [handleBatch], over the events parsed. *)
Fixpoint append_events (events : list Event) (w : W) : W * outcome Response :=
  match events with
  | [] => (w, Ok (status StatusAccepted))
  | ev :: rest =>
      match Append ev w with
      | (w', Ok _) => append_events rest w'
      | (w', Err ErrDuplicate) => append_events rest w'
      | (w', Err ErrRateLimited) => (w', Ok (status StatusTooManyRequests))
      | (w', Err _) =>
          (w', Ok (ctx_Error (Text "sink error") StatusInternalServerError))
      | (w', Panic) => (w', Panic)
      end
  end.

(** [handleBatch]. *)
Definition handleBatch (req : Request) (w : W) : W * outcome Response :=
  if negb (IsPost req) then
    (w, Ok (ctx_Error (Text "method not allowed") StatusMethodNotAllowed))
  else
    let ct := ContentType req in
    if negb (String.eqb ct "application/x-ndjson")
       && negb (String.eqb ct "application/jsonl") then
      (w, Ok (ctx_Error (Text "use application/x-ndjson or application/jsonl")
                StatusUnsupportedMediaType))
    else
      let body := PostBody req in
      if len body =? 0 then (w, Ok (ctx_Error (Text "empty body") StatusBadRequest))
      else
        let '(lines, scanErr) := scan_lines body in
        match parse_lines lines 0 [] with
        | inr line =>
            (w, Ok (ctx_Error (Text ("parse error at line " +:+ fmt.FormatInt line))
                      StatusBadRequest))
        | inl events =>
            match scanErr with
            | Some _ => (w, Ok (ctx_Error (Text "scan error") StatusBadRequest))
            | None => append_events events w
            end
        end.

(** [handle]: the routes.  [w] is [None] for a server built with a nil
    sink. *)
Definition handle (req : Request) (w : option W) : option W * outcome Response :=
  match w with
  | None =>
      (None, Ok (ctx_Error (ErrorText ErrNilSink) StatusInternalServerError))
  | Some w =>
      if String.eqb (Path req) "/ingest" then
        let '(w', r) := handleEvent req w in (Some w', r)
      else if String.eqb (Path req) "/ingest/batch" then
        let '(w', r) := handleBatch req w in (Some w', r)
      else if String.eqb (Path req) "/healthz" then
        (Some w, Ok {| StatusCode := StatusOK; Body := Text "ok" |})
      else if String.eqb (Path req) "/metrics" then
        (Some w, Ok {| StatusCode := StatusOK; Body := Metrics |})
      else (Some w, Ok (ctx_Error (Text "not found") StatusNotFound))
  end.

End Server.

End transport.

(** * Segment names *)

Section SegmentNames.
Import fmt journal.

Section Decimal.

(** Exactly [k] digits of [n], least significant last, in front of [acc]. *)
Fixpoint fixed (k : nat) (n : Z) (acc : string) : string :=
  match k with
  | O => acc
  | S k' => fixed k' (n / 10) (String (digit_char (n mod 10)) acc)
  end.

Lemma append_cons c s t : String c s +:+ t = String c (s +:+ t).
Proof. reflexivity. Qed.

Lemma append_nil t : "" +:+ t = t.
Proof. reflexivity. Qed.

Lemma zeros_snoc k acc : zeros k +:+ String "0" acc = String "0" (zeros k +:+ acc).
Proof.
  induction k as [|k IH]; [reflexivity|].
  cbn [zeros]. rewrite !append_cons. now rewrite IH.
Qed.

Lemma fixed_zero k acc : fixed k 0 acc = zeros k +:+ acc.
Proof.
  revert acc; induction k as [|k IH]; intros acc; [reflexivity|].
  cbn [fixed]. change (0 / 10) with 0. change (0 mod 10) with 0.
  rewrite IH. apply zeros_snoc.
Qed.

Lemma length_zeros_app z s : String.length (zeros z +:+ s) = (z + String.length s)%nat.
Proof.
  induction z as [|z IH]; [reflexivity|].
  cbn [zeros]. rewrite append_cons. cbn [String.length]. now rewrite IH.
Qed.

Lemma digits_aux_fixed k : forall fuel n acc,
  0 <= n < 10 ^ Z.of_nat (S k) -> (S k <= fuel)%nat ->
  exists z, fixed (S k) n acc = zeros z +:+ digits_aux fuel n acc /\
            (String.length (digits_aux fuel n acc) + z = S k + String.length acc)%nat.
Proof.
  induction k as [|k IH]; intros fuel n acc Hn Hf;
    (destruct fuel as [|f]; [lia|]); cbn [digits_aux].
  - assert (n / 10 = 0) as -> by (apply Z.div_small; lia).
    exists 0%nat. cbn. split; [reflexivity | lia].
  - change (fixed (S (S k)) n acc)
      with (fixed (S k) (n / 10) (String (digit_char (n mod 10)) acc)).
    destruct (Z.eqb_spec (n / 10) 0) as [E|E].
    + rewrite E, fixed_zero.
      exists (S k). split; [reflexivity | cbn [String.length]; lia].
    + assert (0 <= n / 10 < 10 ^ Z.of_nat (S k)) as Hq.
      { split; [apply Z.div_pos; lia|].
        apply Z.div_lt_upper_bound; [lia|].
        replace (Z.of_nat (S (S k))) with (Z.succ (Z.of_nat (S k))) in Hn by lia.
        rewrite Z.pow_succ_r in Hn by lia. lia. }
      destruct (IH f (n / 10) (String (digit_char (n mod 10)) acc) Hq ltac:(lia))
        as (z & Hz & Hl).
      exists z. split; [exact Hz|].
      cbn [String.length] in Hl. lia.
Qed.

Lemma pad0_FormatUint n :
  0 <= n < 10 ^ 6 -> pad0 6 (FormatUint n) = fixed 6 n "".
Proof.
  intros Hn. destruct (digits_aux_fixed 5 20 n "" Hn ltac:(lia)) as (z & Hz & Hl).
  unfold pad0, FormatUint. rewrite Hz. f_equal. cbn [String.length] in Hl. 
  f_equal. lia.
Qed.

Lemma fixed_app k : forall n acc t, fixed k n acc +:+ t = fixed k n (acc +:+ t).
Proof. induction k; intros; cbn [fixed]; [reflexivity|]. now rewrite IHk. Qed.

Lemma digit_char_compare a b :
  0 <= a < 10 -> 0 <= b < 10 ->
  Ascii.compare (digit_char a) (digit_char b) = (a ?= b).
Proof.
  intros Ha Hb. unfold Ascii.compare, digit_char.
  rewrite !N_ascii_embedding by lia.
  rewrite <- N2Z.inj_compare, !N2Z.inj_add, !Z2N.id by lia.
  apply Z.add_compare_mono_l.
Qed.

Lemma fixed_compare k : forall a b accA accB,
  0 <= a < 10 ^ Z.of_nat k -> 0 <= b < 10 ^ Z.of_nat k ->
  String.compare (fixed k a accA) (fixed k b accB) =
  match a ?= b with Eq => String.compare accA accB | c => c end.
Proof.
  induction k as [|k IH]; intros a b accA accB Ha Hb.
  - cbn in Ha, Hb. assert (a = 0) as -> by lia. assert (b = 0) as -> by lia.
    reflexivity.
  - cbn [fixed].
    replace (Z.of_nat (S k)) with (Z.succ (Z.of_nat k)) in Ha, Hb by lia.
    rewrite Z.pow_succ_r in Ha, Hb by lia.
    rewrite IH by (split; [apply Z.div_pos; lia | apply Z.div_lt_upper_bound; lia]).
    cbn [String.compare].
    rewrite digit_char_compare by (apply Z.mod_pos_bound; lia).
    pose proof (Z.div_mod a 10 ltac:(lia)) as Ea.
    pose proof (Z.div_mod b 10 ltac:(lia)) as Eb.
    pose proof (Z.mod_pos_bound a 10 ltac:(lia)).
    pose proof (Z.mod_pos_bound b 10 ltac:(lia)).
    destruct (Z.compare_spec (a / 10) (b / 10)) as [E|E|E].
    + destruct (Z.compare_spec (a mod 10) (b mod 10)) as [E'|E'|E'];
        destruct (Z.compare_spec a b); try reflexivity; lia.
    + destruct (Z.compare_spec a b); try reflexivity; lia.
    + destruct (Z.compare_spec a b); try reflexivity; lia.
Qed.

Lemma segmentName_fixed n :
  0 <= n < 10 ^ 6 -> segmentName n = fixed 6 n ".wal".
Proof.
  intros Hn. unfold segmentName, Sprintf_06d.
  destruct (Z.ltb_spec n 0); [lia|].
  rewrite pad0_FormatUint by assumption. now rewrite fixed_app.
Qed.

Lemma segmentName_compare m n :
  0 <= m < 10 ^ 6 -> 0 <= n < 10 ^ 6 ->
  String.compare (segmentName m) (segmentName n) = (m ?= n).
Proof.
  intros Hm Hn. rewrite !segmentName_fixed by assumption.
  rewrite fixed_compare by (change (Z.of_nat 6) with 6; lia).
  destruct (m ?= n); reflexivity.
Qed.

Fixpoint all_digits (s : string) : bool :=
  match s with
  | String c s' => is_digit c && all_digits s'
  | EmptyString => true
  end.

Lemma is_digit_digit_char d : 0 <= d < 10 -> is_digit (digit_char d) = true.
Proof.
  intros Hd. unfold is_digit, digit_char. rewrite N_ascii_embedding by lia.
  apply andb_true_intro; split; apply N.leb_le; lia.
Qed.

Lemma digit_val_digit_char d : 0 <= d < 10 -> digit_val (digit_char d) = d.
Proof.
  intros Hd. unfold digit_val, digit_char. rewrite N_ascii_embedding by lia. lia.
Qed.

Lemma all_digits_app s t :
  all_digits (s +:+ t) = all_digits s && all_digits t.
Proof.
  induction s as [|c s IH]; [reflexivity|].
  rewrite append_cons. cbn [all_digits]. rewrite IH. apply andb_assoc.
Qed.

Lemma all_digits_zeros z : all_digits (zeros z) = true.
Proof. induction z as [|z IH]; [reflexivity|]. cbn [zeros all_digits]. now rewrite IH. Qed.

Lemma all_digits_digits_aux fuel : forall n acc,
  all_digits acc = true -> all_digits (digits_aux fuel n acc) = true.
Proof.
  induction fuel as [|f IH]; intros n acc Ha; cbn [digits_aux]; [assumption|].
  assert (all_digits (String (digit_char (n mod 10)) acc) = true) as Hd.
  { cbn [all_digits]. rewrite Ha, is_digit_digit_char; [reflexivity|].
    apply Z.mod_pos_bound; lia. }
  destruct (n / 10 =? 0); [assumption | now apply IH].
Qed.

Lemma digits_aux_nonempty fuel n acc :
  (0 < fuel)%nat ->
  exists c s, digits_aux fuel n acc = String c s /\
              (all_digits acc = true -> is_digit c = true).
Proof.
  revert n acc. induction fuel as [|f IH]; intros n acc Hf; [lia|].
  cbn [digits_aux]. destruct (n / 10 =? 0).
  - eexists _, _. split; [reflexivity|]. intros _.
    apply is_digit_digit_char, Z.mod_pos_bound; lia.
  - destruct f as [|f'].
    + cbn [digits_aux]. eexists _, _. split; [reflexivity|]. intros _.
      apply is_digit_digit_char, Z.mod_pos_bound; lia.
    + destruct (IH (n / 10) (String (digit_char (n mod 10)) acc) ltac:(lia))
        as (c & s & E & Hc).
      exists c, s. split; [exact E|]. intros Ha. apply Hc.
      cbn [all_digits]. rewrite Ha, is_digit_digit_char; [reflexivity|].
      apply Z.mod_pos_bound; lia.
Qed.

Lemma scan_digits_app s c r :
  all_digits s = true -> is_digit c = false ->
  scan_digits (s +:+ String c r) = (s, String c r).
Proof.
  intros Hs Hc. induction s as [|d s IH].
  - rewrite append_nil. cbn [scan_digits]. now rewrite Hc.
  - rewrite append_cons. cbn [all_digits] in Hs.
    apply andb_prop in Hs as [Hd Hs]. cbn [scan_digits]. rewrite Hd.
    now rewrite (IH Hs).
Qed.

Lemma parse_digits_zeros z : forall s, parse_digits (zeros z +:+ s) 0 = parse_digits s 0.
Proof.
  induction z as [|z IH]; intros s; [reflexivity|].
  cbn [zeros]. rewrite append_cons. cbn [parse_digits]. apply IH.
Qed.

Lemma parse_digits_digits_aux fuel : forall n acc,
  0 <= n < 10 ^ Z.of_nat fuel ->
  parse_digits (digits_aux fuel n acc) 0 = parse_digits acc n.
Proof.
  induction fuel as [|f IH]; intros n acc Hn.
  - cbn in Hn. assert (n = 0) as -> by lia. reflexivity.
  - cbn [digits_aux].
    replace (Z.of_nat (S f)) with (Z.succ (Z.of_nat f)) in Hn by lia.
    rewrite Z.pow_succ_r in Hn by lia.
    pose proof (Z.div_mod n 10 ltac:(lia)) as En.
    pose proof (Z.mod_pos_bound n 10 ltac:(lia)) as Hm.
    destruct (Z.eqb_spec (n / 10) 0) as [E|E].
    + cbn [parse_digits]. rewrite digit_val_digit_char by assumption.
      f_equal. lia.
    + rewrite IH by (split; [apply Z.div_pos; lia | apply Z.div_lt_upper_bound; lia]).
      cbn [parse_digits]. rewrite digit_val_digit_char by assumption.
      f_equal. lia.
Qed.

Lemma skip_space_digit c s :
  is_digit c = true -> skip_space (String c s) = Some (String c s).
Proof.
  unfold is_digit. intros H. apply andb_prop in H as [H1 H2].
  apply N.leb_le in H1, H2. cbn [skip_space]. cbv zeta.
  repeat match goal with
         | |- context [(?a =? ?b)%N] => destruct (N.eqb_spec a b); [lia|]
         end.
  reflexivity.
Qed.

Lemma accept_sign_digit c s :
  is_digit c = true -> accept_sign (String c s) = (false, String c s).
Proof.
  destruct c as [[] [] [] [] [] [] [] []]; intros H; try discriminate H; reflexivity.
Qed.

(** Printing a non-negative segment number and scanning it back. *)
Lemma Sscanf_segmentName n :
  0 <= n <= 2 ^ 63 - 1 -> Sscanf_d_wal (segmentName n) = Some n.
Proof.
  intros Hn. unfold segmentName, Sprintf_06d.
  destruct (Z.ltb_spec n 0) as [?|_]; [lia|].
  unfold pad0. set (z := (6 - _)%nat). clearbody z.
  assert (all_digits (zeros z +:+ FormatUint n) = true) as Hall.
  { rewrite all_digits_app, all_digits_zeros. now apply all_digits_digits_aux. }
  assert (exists c s, zeros z +:+ FormatUint n = String c s /\ is_digit c = true)
    as (c & s & E & Hc).
  { destruct z as [|z].
    - destruct (digits_aux_nonempty 20 n "" ltac:(lia)) as (c & s & E & Hc).
      exists c, s. split; [exact E | now apply Hc].
    - eexists _, _. cbn [zeros]. rewrite append_cons. split; reflexivity. }
  unfold Sscanf_d_wal.
  rewrite E, append_cons, (skip_space_digit _ _ Hc), (accept_sign_digit _ _ Hc).
  rewrite <- append_cons, <- E.
  rewrite (scan_digits_app _ "." "wal" Hall eq_refl).
  rewrite E at 1. rewrite parse_digits_zeros.
  unfold FormatUint. rewrite parse_digits_digits_aux by (cbn; lia).
  cbn [parse_digits].
  destruct (Z.ltb_spec n (- 2 ^ 63)); [lia|].
  destruct (Z.ltb_spec (2 ^ 63 - 1) n); [lia|]. reflexivity.
Qed.

Lemma segmentName_inj m n :
  0 <= m <= 2 ^ 63 - 1 -> 0 <= n <= 2 ^ 63 - 1 ->
  segmentName m = segmentName n -> m = n.
Proof.
  intros Hm Hn E. apply (f_equal Sscanf_d_wal) in E.
  rewrite !Sscanf_segmentName in E by assumption. congruence.
Qed.

End Decimal.

Section SortMap.
Context {A B : Type} (f : A -> B) (lebA : A -> A -> bool) (lebB : B -> B -> bool).

Lemma insert_sorted_map x l :
  (forall y, In y l -> lebB (f x) (f y) = lebA x y) ->
  insert_sorted lebB (f x) (map f l) = map f (insert_sorted lebA x l).
Proof.
  induction l as [|y l IH]; intros H; [reflexivity|].
  cbn [map insert_sorted]. rewrite (H y (or_introl eq_refl)).
  destruct (lebA x y); [reflexivity|].
  cbn [map]. f_equal. apply IH. intros z Hz. apply H. now right.
Qed.

Lemma In_insert_sorted x y l :
  In y (insert_sorted lebA x l) -> y = x \/ In y l.
Proof.
  induction l as [|z l IH]; cbn [insert_sorted].
  - intros [<-|[]]. now left.
  - destruct (lebA x z).
    + intros [<-|H]; [now left | now right].
    + intros [<-|H]; [right; now left|].
      destruct (IH H) as [->|H']; [now left | right; now right].
Qed.

Lemma In_sort_by y l : In y (sort_by lebA l) -> In y l.
Proof.
  induction l as [|x l IH]; [intros []|].
  cbn [sort_by foldr]. intros H. apply In_insert_sorted in H as [->|H].
  - now left.
  - right. now apply IH.
Qed.

Lemma sort_by_map l :
  (forall x y, In x l -> In y l -> lebB (f x) (f y) = lebA x y) ->
  sort_by lebB (map f l) = map f (sort_by lebA l).
Proof.
  induction l as [|x l IH]; intros H; [reflexivity|].
  cbn [map sort_by foldr]. fold (sort_by lebB (map f l)). fold (sort_by lebA l).
  rewrite IH by (intros; apply H; now right).
  apply insert_sorted_map. intros y Hy. apply H; [now left|].
  right. now apply In_sort_by.
Qed.

End SortMap.

(** C8 (amended).  For segment numbers between 1 and 999999, whose names
    have exactly six digits, the name of the smaller number is the smaller
    string, and [sort.Strings] over the names, as [Replay] calls it,
    arranges them by number. *)
Theorem segmentName_order_six_digits (ms : list Z) (m n : Z) :
  Forall (fun k => 1 <= k <= 999999) ms ->
  1 <= m -> m < n -> n <= 999999 ->
  string_lt (segmentName m) (segmentName n) = true /\
  sort_Strings (map segmentName ms) = map segmentName (sort_by Z.leb ms).
Proof.
  intros Hms Hm Hmn Hn. split.
  - unfold string_lt, String.ltb.
    rewrite segmentName_compare by lia.
    now apply Z.compare_lt_iff in Hmn as ->.
  - unfold sort_Strings. apply sort_by_map. intros x y Hx Hy.
    rewrite Forall_forall in Hms.
    apply list_elem_of_In in Hx, Hy.
    pose proof (Hms x Hx). pose proof (Hms y Hy).
    unfold String.leb, Z.leb. rewrite segmentName_compare by lia.
    reflexivity.
Qed.

Lemma segmentName_order_six_digits_witness :
  Forall (fun k => 1 <= k <= 999999) [12; 3; 7] /\
  1 <= 9 /\ 9 < 10 /\ 10 <= 999999 /\
  string_lt (segmentName 9) (segmentName 10) = true /\
  sort_Strings (map segmentName [12; 3; 7]) = map segmentName (sort_by Z.leb [12; 3; 7]).
Proof.
  assert (Forall (fun k => 1 <= k <= 999999) [12; 3; 7]) as H
    by (repeat constructor; lia).
  split; [exact H|].
  split; [lia|]. split; [lia|]. split; [lia|].
  apply (segmentName_order_six_digits [12; 3; 7] 9 10 H); lia.
Defined.

(** C8 as stated fails where the decimal width changes: segment 1000000
    is named with seven digits and sorts before segment 999999. *)
Lemma segmentName_order_fails_at_seven_digits :
  1 <= 999999 /\ 999999 < 1000000 /\
  string_lt (segmentName 999999) (segmentName 1000000) = false /\
  sort_Strings [segmentName 999999; segmentName 1000000] =
    [segmentName 1000000; segmentName 999999].
Proof. split; [lia|]. split; [lia|]. split; vm_compute; reflexivity. Qed.

End SegmentNames.

(** * The ring buffer *)

Section RingBufferProofs.
Context {T : Type} (zero : T).
Import rb.

Abbreviation RB := (@RingBuffer T).

Lemma index_lookup {A} (l : list A) (i : Z) (x : A) :
  0 <= i -> l !! Z.to_nat i = Some x -> index l i = Ok x.
Proof.
  intros Hi Hl. unfold index, len.
  pose proof (lookup_lt_Some _ _ _ Hl) as Hlt.
  destruct (Z.leb_spec 0 i); [|lia].
  destruct (Z.ltb_spec i (Z.of_nat (length l))); [|lia].
  cbn. now rewrite Hl.
Qed.

(** [holds r h]: the buffer [r] has seen the values [h], the newest
    first. *)
Definition holds (r : RB) (h : list T) : Prop :=
  let C := len (buf r) in
  1 <= C /\ used r = Z.min (len h) C /\ pos r = len h mod C /\
  forall j, 0 <= j < used r ->
    buf r !! Z.to_nat ((pos r - 1 - j) mod C) = h !! Z.to_nat j.

Lemma len_New capacity : len (buf (New zero capacity)) = Z.max capacity 1.
Proof. unfold New, len. cbn [buf]. rewrite length_replicate. lia. Qed.

Lemma holds_New capacity : holds (New zero capacity) [].
Proof.
  unfold holds. rewrite len_New. cbn [used pos New].
  change (len (@nil T)) with 0.
  split; [lia|]. split; [lia|]. split; [now rewrite Z.mod_0_l by lia|].
  intros j Hj. lia.
Qed.

Lemma mod_shift_ne (p j C : Z) :
  0 <= p < C -> 1 <= j < C -> (p - j) mod C <> p.
Proof.
  intros Hp Hj E.
  pose proof (Z.div_mod (p - j) C ltac:(lia)) as D. rewrite E in D.
  assert (C * ((p - j) / C) = - j) as D' by lia.
  destruct (Z.le_gt_cases 0 ((p - j) / C)); nia.
Qed.

Lemma holds_Add (r : RB) (h : list T) (v : T) :
  holds r h ->
  exists r' d,
    Add r v = Ok (r', (d, used r =? len (buf r))) /\
    holds r' (v :: h) /\
    len (buf r') = len (buf r) /\
    used r' = (if used r =? len (buf r) then used r else used r + 1) /\
    (used r = len (buf r) -> h !! Z.to_nat (len (buf r) - 1) = Some d).
Proof.
  intros (HC & Hu & Hp & Hl).
  set (C := len (buf r)) in *.
  assert (0 <= pos r < C) as Hpos by (rewrite Hp; apply Z.mod_pos_bound; lia).
  assert (0 <= len h) as Hh by (unfold len; lia).
  destruct (lookup_lt_is_Some_2 (buf r) (Z.to_nat (pos r))) as [d Hd].
  { unfold C, len in Hpos. lia. }
  unfold Add. rewrite (index_lookup _ _ _ (proj1 Hpos) Hd). cbn [bind].
  fold C. eexists _, d. split; [reflexivity|].
  assert (len (<[Z.to_nat (pos r) := v]> (buf r)) = C) as HC'.
  { unfold len. rewrite length_insert. reflexivity. }
  assert (Z.rem (pos r + 1) C = (len h + 1) mod C) as Hpos'.
  { rewrite Z.rem_mod_nonneg by lia. rewrite Hp.
    rewrite Z.add_mod_idemp_l by lia. reflexivity. }
  split; [|split; [exact HC'|split; [reflexivity|]]].
  - unfold holds. cbn [buf pos used]. rewrite HC'.
    assert (len (v :: h) = len h + 1) as Hlen by (unfold len; cbn [length]; lia).
    rewrite Hlen.
    split; [exact HC|]. split; [|split; [exact Hpos'|]].
    + destruct (Z.eqb_spec (used r) C); lia.
    + intros j Hj. rewrite Hpos'.
      assert (((len h + 1) mod C - 1 - j) mod C = (pos r - j) mod C) as ->.
      { rewrite Hp. rewrite <- Zminus_mod_idemp_l.
        rewrite <- (Zminus_mod_idemp_l ((len h + 1) mod C) 1).
        rewrite Z.mod_mod by lia.
        rewrite (Zminus_mod_idemp_l (len h + 1) 1).
        rewrite Zminus_mod_idemp_l.
        rewrite (Zminus_mod_idemp_l (len h) j).
        f_equal. lia. }
      destruct (Z.eq_dec j 0) as [->|Hj0].
      * rewrite Z.sub_0_r, Z.mod_small by lia.
        rewrite list_lookup_insert_eq; [reflexivity|].
        unfold C, len in Hpos. lia.
      * assert (j < C) by (destruct (Z.eqb_spec (used r) C); lia).
        rewrite list_lookup_insert_ne.
        2:{ intros E. apply Z2Nat.inj in E; [|lia|].
            - symmetry in E. now apply mod_shift_ne in E; [|lia|lia].
            - apply Z.mod_pos_bound; lia. }
        replace (pos r - j) with (pos r - 1 - (j - 1)) by lia.
        rewrite Hl by (destruct (Z.eqb_spec (used r) C); lia).
        replace (Z.to_nat j) with (S (Z.to_nat (j - 1))) by lia.
        reflexivity.
  - intros Hfull.
    rewrite <- (Hl (C - 1)) by lia.
    replace (pos r - 1 - (C - 1)) with (pos r + (-1) * C) by lia.
    rewrite Z.mod_add by lia. rewrite Z.mod_small by lia. exact Hd.
Qed.

Lemma All_loop_holds (r : RB) (h : list T) :
  holds r h ->
  forall n k, (k + n <= Z.to_nat (used r))%nat ->
    All_loop r (fun _ => true) (map Z.of_nat (seq k n)) = Ok (take n (drop k h)).
Proof.
  intros (HC & Hu & Hp & Hl).
  set (C := len (buf r)) in *.
  assert (0 <= pos r < C) as Hpos by (rewrite Hp; apply Z.mod_pos_bound; lia).
  induction n as [|n IH]; intros k Hk; [reflexivity|].
  cbn [seq map All_loop]. fold C.
  destruct (Z.eqb_spec C 0); [lia|].
  assert (0 <= Z.of_nat k < used r) as Hj by lia.
  assert (0 <= len h) by (unfold len; lia).
  rewrite Z.rem_mod_nonneg by lia.
  replace (pos r - 1 - Z.of_nat k + C) with (pos r - 1 - Z.of_nat k + 1 * C) by lia.
  rewrite Z.mod_add by lia.
  specialize (Hl _ Hj). rewrite Nat2Z.id in Hl.
  destruct (lookup_lt_is_Some_2 h k) as [x Hx]; [unfold len in *; lia|].
  rewrite Hx in Hl.
  rewrite (index_lookup _ _ _ (proj1 (Z.mod_pos_bound _ C ltac:(lia))) Hl).
  cbn [bind]. rewrite IH by lia. cbn [bind].
  rewrite (drop_S _ _ _ Hx). reflexivity.
Qed.

Lemma collect_holds (r : RB) (h : list T) :
  holds r h -> collect r = Ok (take (Z.to_nat (len (buf r))) h).
Proof.
  intros H. unfold collect, All, upto.
  rewrite (All_loop_holds r h H) by lia. rewrite drop_0.
  destruct H as (HC & Hu & _). rewrite Hu. f_equal.
  destruct (Z.le_ge_cases (len h) (len (buf r))).
  - rewrite Z.min_l by lia. rewrite !take_ge; [reflexivity| |]; unfold len in *; lia.
  - rewrite Z.min_r by lia. reflexivity.
Qed.

Lemma add_all_holds (vs : list T) : forall (r : RB) (h : list T),
  holds r h ->
  exists r', add_all r vs = Ok r' /\ holds r' (rev vs ++ h) /\
             len (buf r') = len (buf r).
Proof.
  induction vs as [|v vs IH]; intros r h H.
  - exists r. split; [reflexivity|]. split; [exact H | reflexivity].
  - destruct (holds_Add r h v H) as (r1 & d & E & H1 & HC & _).
    destruct (IH r1 (v :: h) H1) as (r' & E' & H' & HC').
    exists r'. cbn [add_all]. rewrite E. cbn [bind]. split; [exact E'|].
    split; [|congruence].
    cbn [rev]. rewrite <- app_assoc. exact H'.
Qed.

(** C5.  After any values [vs] added to a new buffer of capacity
    [C = max capacity 1]: [used] is [min (len vs) C]; [All] yields the
    buffered values newest first, the last [C] of [vs] in reverse order of
    insertion; a further [Add v] answers [true] exactly when [used = C]
    before the call, and then returns the oldest buffered value and leaves
    [used] alone, and otherwise increments [used].  With capacity 3, after
    [Add] of 1 to 5, [All] yields 5, 4, 3. *)
Theorem ring_buffer_Add_All (capacity : Z) (vs : list T) (v : T) :
  let C := Z.max capacity 1 in
  exists r r' d,
    add_all (New zero capacity) vs = Ok r /\
    len (buf r) = C /\
    used r = Z.min (len vs) C /\
    collect r = Ok (take (Z.to_nat C) (rev vs)) /\
    Add r v = Ok (r', (d, used r =? C)) /\
    (used r = C ->
       last (take (Z.to_nat C) (rev vs)) = Some d /\ used r' = used r) /\
    (used r <> C -> used r' = used r + 1) /\
    collect r' = Ok (take (Z.to_nat C) (v :: rev vs)) /\
    (let* r3 := add_all (New 0 3) [1; 2; 3; 4; 5] in collect r3) = Ok [5; 4; 3].
Proof.
  intros C.
  destruct (add_all_holds vs _ _ (holds_New capacity)) as (r & E & H & HC).
  rewrite app_nil_r in H. rewrite len_New in HC. fold C in HC.
  destruct (holds_Add r (rev vs) v H) as (r' & d & EA & H' & HC' & Hu' & Hd).
  rewrite HC in *.
  exists r, r', d.
  assert (len (rev vs) = len vs) as Hrev by (unfold len; now rewrite length_rev).
  split; [exact E|]. split; [exact HC|].
  split; [destruct H as (_ & Hu & _); now rewrite Hu, HC, Hrev|].
  split; [rewrite <- HC; now apply collect_holds|].
  split; [exact EA|].
  split; [|split; [|split; [|reflexivity]]].
  - intros Hfull. split.
    + rewrite last_lookup, length_take.
      destruct H as (_ & Hu & _). rewrite HC, Hrev, Hfull in Hu.
      assert ((Z.to_nat C `min` length (rev vs))%nat = Z.to_nat C) as ->
        by (rewrite length_rev; unfold len in Hu; lia).
      rewrite lookup_take_lt by lia.
      rewrite <- (Hd Hfull). f_equal. lia.
    + rewrite Hu'. now destruct (Z.eqb_spec (used r) C).
  - intros Hne. rewrite Hu'. now destruct (Z.eqb_spec (used r) C).
  - rewrite <- HC'. now apply collect_holds.
Qed.

End RingBufferProofs.

(** * Bytes and big-endian integers *)

Lemma Z_of_byte_range b : 0 <= Z_of_byte b < 2 ^ 8.
Proof.
  unfold Z_of_byte. pose proof (Byte.to_N_bounded b) as H.
  change (2 ^ 8) with 256. lia.
Qed.

Lemma Z_of_byte_of_Z z : Z_of_byte (byte_of_Z z) = z mod 2 ^ 8.
Proof.
  unfold Z_of_byte, byte_of_Z. change (2 ^ 8) with 256.
  pose proof (Z.mod_pos_bound z 256 ltac:(lia)) as Hm.
  destruct (Byte.of_N (Z.to_N (z mod 256))) as [b|] eqn:E.
  - apply Byte.to_of_N in E. rewrite E. lia.
  - apply Byte.of_N_None_iff in E. lia.
Qed.

Lemma testbit_byte_high b n : 8 <= n -> Z.testbit (Z_of_byte b) n = false.
Proof.
  intros Hn. rewrite <- (Z.mod_small (Z_of_byte b) (2 ^ 8)) by apply Z_of_byte_range.
  apply Z.mod_pow2_bits_high. lia.
Qed.

Ltac bits_step :=
  match goal with
  | |- context [Z_of_byte (byte_of_Z ?z)] => rewrite (Z_of_byte_of_Z z)
  | |- context [Z.lor _ _] => rewrite Z.lor_spec
  | |- context [Z.testbit (Z.shiftl ?a ?k) ?n] =>
      rewrite (Z.shiftl_spec a k n) by lia
  | |- context [Z.testbit ?a ?n] => rewrite (Z.testbit_neg_r a n) by lia
  | |- context [Z.testbit (Z_of_byte ?b) ?n] =>
      rewrite (testbit_byte_high b n) by lia
  | |- context [Z.testbit (?a mod 2 ^ ?m) ?n] =>
      first [ rewrite (Z.mod_pow2_bits_low a m n) by lia
            | rewrite (Z.mod_pow2_bits_high a m n) by lia ]
  | |- context [Z.testbit (Z.shiftr ?a ?k) ?n] =>
      rewrite (Z.shiftr_spec a k n) by lia
  | |- context [(_ || false)%bool] => rewrite orb_false_r
  | |- context [(false || _)%bool] => rewrite orb_false_l
  end.

Ltac bits_of_bytes := repeat bits_step.

Lemma Uint32_PutUint32 v rest :
  binary.Uint32 (binary.PutUint32 v ++ rest) = Ok (wrap32 v).
Proof.
  unfold binary.PutUint32, binary.Uint32, wrap32. cbn [app]. f_equal.
  apply Z.bits_inj'. intros n Hn.
  destruct (Z.lt_ge_cases n 8); [|destruct (Z.lt_ge_cases n 16);
    [|destruct (Z.lt_ge_cases n 24); [|destruct (Z.lt_ge_cases n 32)]]];
    bits_of_bytes; try reflexivity; f_equal; lia.
Qed.

Lemma Uint32_PutUint32_exact v :
  binary.Uint32 (binary.PutUint32 v) = Ok (wrap32 v).
Proof. rewrite <- (app_nil_r (binary.PutUint32 v)). apply Uint32_PutUint32. Qed.

Lemma Uint64_PutUint64 v rest :
  binary.Uint64 (binary.PutUint64 v ++ rest) = Ok (wrap64 v).
Proof.
  unfold binary.PutUint64, binary.Uint64, wrap64. cbn [app]. f_equal.
  apply Z.bits_inj'. intros n Hn.
  destruct (Z.lt_ge_cases n 8); [|destruct (Z.lt_ge_cases n 16);
    [|destruct (Z.lt_ge_cases n 24); [|destruct (Z.lt_ge_cases n 32);
    [|destruct (Z.lt_ge_cases n 40); [|destruct (Z.lt_ge_cases n 48);
    [|destruct (Z.lt_ge_cases n 56); [|destruct (Z.lt_ge_cases n 64)]]]]]]];
    bits_of_bytes; try reflexivity; f_equal; lia.
Qed.

Lemma Uint32_range b v : binary.Uint32 b = Ok v -> 0 <= v < 2 ^ 32.
Proof.
  destruct b as [|b0 [|b1 [|b2 [|b3 rest]]]]; try discriminate.
  cbn [binary.Uint32]. intros [= <-].
  match goal with |- 0 <= ?x < _ => set (v := x) end.
  assert (v = v mod 2 ^ 32) as ->.
  { apply Z.bits_inj'. intros n Hn. subst v.
    destruct (Z.lt_ge_cases n 32); bits_of_bytes; reflexivity. }
  apply Z.mod_pos_bound. lia.
Qed.

Lemma Uint32_short b : (length b < 4)%nat -> binary.Uint32 b = Panic.
Proof.
  destruct b as [|b0 [|b1 [|b2 [|b3 rest]]]]; cbn [length]; intros; try reflexivity; lia.
Qed.

Lemma Uint64_short b : (length b < 8)%nat -> binary.Uint64 b = Panic.
Proof.
  destruct b as [|b0 [|b1 [|b2 [|b3 [|b4 [|b5 [|b6 [|b7 rest]]]]]]]];
    cbn [length]; intros; try reflexivity; lia.
Qed.

Lemma length_PutUint32 v : length (binary.PutUint32 v) = 4%nat.
Proof. reflexivity. Qed.

Lemma length_PutUint64 v : length (binary.PutUint64 v) = 8%nat.
Proof. reflexivity. Qed.

Lemma ChecksumIEEE_range data : 0 <= crc32.ChecksumIEEE data < 2 ^ 32.
Proof. unfold crc32.ChecksumIEEE, wrap32. apply Z.mod_pos_bound. lia. Qed.

(** * Slices *)

Lemma len_app {A} (a b : list A) : len (a ++ b) = len a + len b.
Proof. unfold len. rewrite length_app. lia. Qed.

Lemma len_nonneg {A} (a : list A) : 0 <= len a.
Proof. unfold len. lia. Qed.

Lemma to_nat_len {A} (a : list A) : Z.to_nat (len a) = length a.
Proof. unfold len. apply Nat2Z.id. Qed.

Lemma slice_from_app {A} (a b : list A) :
  slice_from (a ++ b) (len a) = Ok b.
Proof.
  unfold slice_from. pose proof (len_nonneg a). pose proof (len_nonneg b).
  rewrite len_app.
  destruct (Z.leb_spec 0 (len a)); [|lia].
  destruct (Z.leb_spec (len a) (len a + len b)); [|lia].
  cbn [andb]. rewrite to_nat_len. now rewrite drop_app_length.
Qed.

Lemma slice_app {A} (a b c : list A) :
  slice (a ++ b ++ c) (len a) (len a + len b) = Ok b.
Proof.
  unfold slice. pose proof (len_nonneg a). pose proof (len_nonneg b).
  pose proof (len_nonneg c). rewrite !len_app.
  destruct (Z.leb_spec 0 (len a)); [|lia].
  destruct (Z.leb_spec (len a) (len a + len b)); [|lia].
  destruct (Z.leb_spec (len a + len b) (len a + (len b + len c))); [|lia].
  cbn [andb]. f_equal.
  replace (len a + len b - len a) with (len b) by lia.
  rewrite !to_nat_len, drop_app_length. now rewrite take_app_length.
Qed.

Lemma copy_into_make (n : Z) (src : list byte) :
  len src = n -> copy_into (make_bytes n) src = src.
Proof.
  intros <-. unfold copy_into, make_bytes.
  rewrite to_nat_len, length_replicate, firstn_all.
  rewrite drop_ge by (rewrite length_replicate; lia). apply app_nil_r.
Qed.

Lemma length_copy_into {A} (dst src : list A) :
  length (copy_into dst src) = length dst.
Proof.
  unfold copy_into. rewrite length_app, length_take, length_drop. lia.
Qed.

Lemma len_make_bytes n : 0 <= n -> len (make_bytes n) = n.
Proof. intros. unfold len, make_bytes. rewrite length_replicate. lia. Qed.

Lemma slice_from_0 {A} (l : list A) : slice_from l 0 = Ok l.
Proof.
  unfold slice_from. pose proof (len_nonneg l).
  destruct (Z.leb_spec 0 (len l)); [|lia]. reflexivity.
Qed.

Lemma slice_from_at {A} (a b : list A) n :
  len a = n -> slice_from (a ++ b) n = Ok b.
Proof. intros <-. apply slice_from_app. Qed.

Lemma slice_at {A} (a b c : list A) lo hi :
  len a = lo -> lo + len b = hi -> slice (a ++ b ++ c) lo hi = Ok b.
Proof. intros <- <-. apply slice_app. Qed.

Import journal.

(** * The record codec *)

Lemma parse_body_layout (s8 k4 key v4 src : list byte) (s klen vlen : Z) :
  length s8 = 8%nat -> length k4 = 4%nat -> length v4 = 4%nat ->
  binary.Uint64 (s8 ++ k4 ++ key ++ v4 ++ src) = Ok s ->
  binary.Uint32 (k4 ++ key ++ v4 ++ src) = Ok klen ->
  binary.Uint32 (v4 ++ src) = Ok vlen ->
  len key = klen ->
  parse_body (s8 ++ k4 ++ key ++ v4 ++ src) =
    Ok {| Key := key; Value := copy_into (make_bytes vlen) src; Seq := s |}.
Proof.
  intros H8 Hk4 Hv4 Es Ek Ev Hklen.
  unfold parse_body. cbv zeta.
  rewrite slice_from_0. cbn [bind]. rewrite Es. cbn [bind].
  rewrite (slice_from_at s8) by (unfold len; lia). cbn [bind].
  rewrite Ek. cbn [bind].
  assert (slice (s8 ++ k4 ++ key ++ v4 ++ src) (0 + 8 + 4) (0 + 8 + 4 + klen)
          = Ok key) as ->.
  { rewrite (app_assoc s8 k4). apply slice_at; [|lia].
    rewrite len_app. unfold len. lia. }
  cbn [bind].
  assert (slice_from (s8 ++ k4 ++ key ++ v4 ++ src) (0 + 8 + 4 + klen)
          = Ok (v4 ++ src)) as ->.
  { rewrite (app_assoc k4 key), (app_assoc s8). apply slice_from_at.
    rewrite !len_app. unfold len in *. lia. }
  cbn [bind]. rewrite Ev. cbn [bind].
  assert (slice_from (s8 ++ k4 ++ key ++ v4 ++ src) (0 + 8 + 4 + klen + 4)
          = Ok src) as ->.
  { rewrite (app_assoc key v4), (app_assoc k4), (app_assoc s8).
    apply slice_from_at. rewrite !len_app. unfold len in *. lia. }
  cbn [bind]. rewrite (copy_into_make klen key Hklen). reflexivity.
Qed.

Lemma wrap32_small z : 0 <= z < 2 ^ 32 -> wrap32 z = z.
Proof. intros. unfold wrap32. now apply Z.mod_small. Qed.

Lemma wrap64_small z : 0 <= z < 2 ^ 64 -> wrap64 z = z.
Proof. intros. unfold wrap64. now apply Z.mod_small. Qed.

Lemma parse_body_entry_body (e : Entry) :
  len (Key e) < 2 ^ 32 -> len (Value e) < 2 ^ 32 ->
  parse_body (entry_body e) =
    Ok {| Key := Key e; Value := Value e; Seq := wrap64 (Seq e) |}.
Proof.
  intros Hk Hv. unfold entry_body.
  pose proof (len_nonneg (Key e)). pose proof (len_nonneg (Value e)).
  rewrite !wrap32_small by lia.
  rewrite (parse_body_layout _ _ _ _ _ (wrap64 (Seq e)) (len (Key e)) (len (Value e))).
  - now rewrite copy_into_make.
  - reflexivity.
  - reflexivity.
  - reflexivity.
  - apply Uint64_PutUint64.
  - rewrite Uint32_PutUint32. f_equal. apply wrap32_small. lia.
  - rewrite Uint32_PutUint32. f_equal. apply wrap32_small. lia.
  - reflexivity.
Qed.

Lemma len_entry_body e : len (entry_body e) = 16 + len (Key e) + len (Value e).
Proof.
  unfold entry_body. rewrite !len_app. unfold len.
  rewrite !length_PutUint32, length_PutUint64. lia.
Qed.

Lemma len_frame data : len (frame data) = 8 + len data.
Proof.
  unfold frame. rewrite !len_app. unfold len. rewrite !length_PutUint32. lia.
Qed.

Lemma ReadFull_app (a r : list byte) n :
  len a = n -> io.ReadFull (a ++ r) n = (Ok a, r).
Proof.
  intros <-. unfold io.ReadFull. pose proof (len_nonneg a). pose proof (len_nonneg r).
  rewrite len_app.
  destruct (Z.leb_spec (len a) 0).
  - assert (a = []) as -> by (destruct a; [reflexivity | unfold len in *; cbn in *; lia]).
    reflexivity.
  - destruct (Z.eqb_spec (len a + len r) 0); [lia|].
    destruct (Z.ltb_spec (len a + len r) (len a)); [lia|].
    rewrite to_nat_len, take_app_length, drop_app_length. reflexivity.
Qed.

Section Read.
Context {EncState : Type}.
Variable Decrypt : EncState -> list byte -> outcome (list byte).

(** [read] of a framed payload that fits the 32-bit length field. *)
Lemma read_frame (enc : option EncState) (data rest : list byte) :
  len data < 2 ^ 32 ->
  read Decrypt enc (frame data ++ rest) =
    (match enc with
     | None => parse_body data
     | Some s => let* plain := Decrypt s data in parse_body plain
     end, rest).
Proof.
  intros Hd. pose proof (len_nonneg data). unfold read, frame.
  rewrite <- !app_assoc.
  rewrite (ReadFull_app (binary.PutUint32 _)) by reflexivity.
  rewrite <- (app_nil_r (binary.PutUint32 (wrap32 _))) at 1.
  rewrite Uint32_PutUint32.
  rewrite (ReadFull_app (binary.PutUint32 _)) by reflexivity.
  rewrite <- (app_nil_r (binary.PutUint32 (crc32.ChecksumIEEE _))) at 1.
  rewrite Uint32_PutUint32.
  rewrite (wrap32_small (wrap32 (len data))) by (rewrite wrap32_small; lia).
  rewrite (wrap32_small (len data)) by lia.
  rewrite ReadFull_app by reflexivity.
  rewrite (wrap32_small (crc32.ChecksumIEEE data)) by apply ChecksumIEEE_range.
  rewrite Z.eqb_refl. cbn [negb]. destruct enc; reflexivity.
Qed.

Lemma read_entry (e : Entry) (rest : list byte) :
  16 + len (Key e) + len (Value e) < 2 ^ 32 ->
  read Decrypt None (frame (entry_body e) ++ rest) =
    (Ok {| Key := Key e; Value := Value e; Seq := wrap64 (Seq e) |}, rest).
Proof.
  intros H. pose proof (len_nonneg (Key e)). pose proof (len_nonneg (Value e)).
  rewrite read_frame by (rewrite len_entry_body; lia).
  rewrite parse_body_entry_body by lia. reflexivity.
Qed.

End Read.

(** * Claims on the codec *)

Section Codec.
Context {EncState : Type}.
Variable Decrypt : EncState -> list byte -> outcome (list byte).

Lemma parse_body_key_bound data e :
  parse_body data = Ok e -> len (Key e) < 2 ^ 32 /\ len (Value e) < 2 ^ 32.
Proof.
  unfold parse_body. cbv zeta.
  destruct (slice_from data 0) as [d0| |]; cbn [bind]; try discriminate.
  destruct (binary.Uint64 d0) as [s| |]; cbn [bind]; try discriminate.
  destruct (slice_from data (0 + 8)) as [d1| |]; cbn [bind]; try discriminate.
  destruct (binary.Uint32 d1) as [klen| |] eqn:Ek; cbn [bind]; try discriminate.
  destruct (slice data _ _) as [src| |]; cbn [bind]; try discriminate.
  destruct (slice_from data _) as [d2| |]; cbn [bind]; try discriminate.
  destruct (binary.Uint32 d2) as [vlen| |] eqn:Ev; cbn [bind]; try discriminate.
  destruct (slice_from data _) as [d3| |]; cbn [bind]; try discriminate.
  intros [= <-]. cbn [Key Value].
  apply Uint32_range in Ek, Ev.
  unfold len. rewrite !length_copy_into. fold (len (make_bytes klen)).
  fold (len (make_bytes vlen)). rewrite !len_make_bytes by lia. lia.
Qed.

Lemma read_key_bound enc r e r' :
  read Decrypt enc r = (Ok e, r') -> len (Key e) < 2 ^ 32 /\ len (Value e) < 2 ^ 32.
Proof.
  unfold read.
  destruct (io.ReadFull r 4) as [[lenBuf| |] r1]; try (intros [=]; fail).
  destruct (binary.Uint32 lenBuf) as [length| |]; try (intros [=]; fail).
  destruct (io.ReadFull r1 4) as [[crcBuf| |] r2]; try (intros [=]; fail).
  destruct (binary.Uint32 crcBuf) as [crc| |]; try (intros [=]; fail).
  destruct (io.ReadFull r2 length) as [[data| |] r3]; try (intros [=]; fail).
  destruct (negb _); [intros [=]|].
  destruct enc as [s|].
  - destruct (Decrypt s data) as [plain| |]; cbn [bind]; try (intros [=]; fail).
    intros [= H _]. now apply parse_body_key_bound in H.
  - intros [= H _]. now apply parse_body_key_bound in H.
Qed.

(** A payload shorter than the sixteen bytes of an empty body makes
    [parse_body] index or slice out of range. *)
Lemma parse_body_short data : len data < 16 -> parse_body data = Panic.
Proof.
  intros Hlen. pose proof (len_nonneg data) as Hnn.
  unfold parse_body. cbv zeta. rewrite slice_from_0. cbn [bind].
  destruct (Z.lt_ge_cases (len data) 8) as [H8|H8].
  { rewrite Uint64_short by (unfold len in *; lia). reflexivity. }
  destruct (binary.Uint64 data) as [s| |] eqn:E64; cbn [bind]; try reflexivity.
  2:{ destruct data as [|b0 [|b1 [|b2 [|b3 [|b4 [|b5 [|b6 [|b7 rest]]]]]]]];
        discriminate E64. }
  unfold slice_from at 1.
  destruct (Z.leb_spec 0 (0 + 8)); [|lia].
  destruct (Z.leb_spec (0 + 8) (len data)); [|lia]. cbn [andb bind].
  destruct (binary.Uint32 (drop (Z.to_nat (0 + 8)) data)) as [klen| |] eqn:Ek;
    cbn [bind]; try reflexivity.
  2:{ destruct (drop _ data) as [|b0 [|b1 [|b2 [|b3 rest]]]]; discriminate Ek. }
  assert (12 <= len data) as H12.
  { destruct (Z.lt_ge_cases (len data) 12) as [Hlt|Hge]; [|exact Hge].
    rewrite Uint32_short in Ek; [discriminate|].
    rewrite length_drop. unfold len in *. lia. }
  pose proof (Uint32_range _ _ Ek) as Hk.
  unfold slice.
  destruct (Z.leb_spec 0 (0 + 8 + 4)); [|lia].
  destruct (Z.leb_spec (0 + 8 + 4) (0 + 8 + 4 + klen)); [|lia].
  destruct (Z.leb_spec (0 + 8 + 4 + klen) (len data)); [|reflexivity].
  cbn [andb bind]. unfold slice_from at 1.
  destruct (Z.leb_spec 0 (0 + 8 + 4 + klen)); [|lia].
  destruct (Z.leb_spec (0 + 8 + 4 + klen) (len data)); [|lia]. cbn [andb bind].
  rewrite Uint32_short; [reflexivity|].
  rewrite length_drop. unfold len in *. lia.
Qed.

End Codec.

Lemma ReadFull_short (r : list byte) n :
  0 < len r < n -> io.ReadFull r n = (Err ErrUnexpectedEOF, []).
Proof.
  intros H. unfold io.ReadFull.
  destruct (Z.leb_spec n 0); [lia|].
  destruct (Z.eqb_spec (len r) 0); [lia|].
  destruct (Z.ltb_spec (len r) n); [reflexivity | lia].
Qed.

Lemma ReadFull_empty n : 0 < n -> io.ReadFull [] n = (Err EOF, []).
Proof.
  intros H. unfold io.ReadFull. destruct (Z.leb_spec n 0); [lia | reflexivity].
Qed.

Lemma len_take {A} (l : list A) k :
  0 <= k <= len l -> len (take (Z.to_nat k) l) = k.
Proof. intros H. unfold len in *. rewrite length_take. lia. Qed.

Section PartialRecord.
Context {EncState : Type}.
Variable Decrypt : EncState -> list byte -> outcome (list byte).

(** What [read] answers on a record cut short: [EOF] when the cut falls
    right after the length field or right after the checksum field,
    [ErrUnexpectedEOF] when it falls inside a field. *)
Lemma read_partial (enc : option EncState) (data : list byte) (k : Z) :
  len data < 2 ^ 32 -> 0 < k < 8 + len data ->
  fst (read Decrypt enc (take (Z.to_nat k) (frame data))) =
    Err (if (k =? 4) || (k =? 8) then EOF else ErrUnexpectedEOF).
Proof.
  intros Hd Hk. pose proof (len_nonneg data) as Hnn.
  unfold frame, read.
  set (L := binary.PutUint32 (wrap32 (len data))).
  set (C := binary.PutUint32 (crc32.ChecksumIEEE data)).
  assert (length L = 4%nat) as HL by reflexivity.
  assert (length C = 4%nat) as HC by reflexivity.
  destruct (Z.lt_ge_cases k 4) as [H4|H4].
  { rewrite ReadFull_short.
    - destruct (Z.eqb_spec k 4); [lia|]. destruct (Z.eqb_spec k 8); [lia|]. reflexivity.
    - rewrite take_app_le by lia. rewrite (len_take L k); unfold len; lia. }
  rewrite take_app_ge by lia. rewrite HL.
  rewrite (ReadFull_app L) by (unfold len; lia).
  unfold L at 1. rewrite <- (app_nil_r (binary.PutUint32 _)), Uint32_PutUint32.
  rewrite wrap32_small by (unfold wrap32; apply Z.mod_pos_bound; lia).
  rewrite wrap32_small by lia.
  destruct (Z.eqb_spec k 4) as [->|Hne4].
  { change (Z.to_nat 4 - 4)%nat with 0%nat. rewrite take_0.
    rewrite ReadFull_empty by lia. reflexivity. }
  cbn [orb].
  destruct (Z.lt_ge_cases k 8) as [H8|H8].
  { rewrite ReadFull_short.
    - destruct (Z.eqb_spec k 8); [lia|]. reflexivity.
    - rewrite take_app_le by lia.
      replace (Z.to_nat k - 4)%nat with (Z.to_nat (k - 4)) by lia.
      rewrite (len_take C (k - 4)); unfold len; lia. }
  rewrite take_app_ge by lia. rewrite HC.
  rewrite (ReadFull_app C) by (unfold len; lia).
  unfold C at 1. rewrite <- (app_nil_r (binary.PutUint32 _)), Uint32_PutUint32.
  destruct (Z.eqb_spec k 8) as [->|Hne8].
  { change (Z.to_nat 8 - 4 - 4)%nat with 0%nat. rewrite take_0.
    rewrite ReadFull_empty by lia. reflexivity. }
  rewrite ReadFull_short; [reflexivity|].
  replace (Z.to_nat k - 4 - 4)%nat with (Z.to_nat (k - 8)) by lia.
  rewrite (len_take data (k - 8)); lia.
Qed.

End PartialRecord.

(** C9 (the code departs from the claim).  A record whose CRC verifies
    but whose payload is shorter than sixteen bytes makes [read] panic:
    it indexes or slices the payload out of range. *)
Theorem read_short_payload_panics (data rest : list byte) :
  len data < 16 ->
  read no_Decrypt None (frame data ++ rest) = (Panic, rest).
Proof.
  intros H. rewrite read_frame by lia. now rewrite parse_body_short.
Qed.

Lemma read_short_payload_panics_witness :
  len (@nil byte) < 16 /\
  frame [] ++ [] = [x00; x00; x00; x00; x00; x00; x00; x00] /\
  read no_Decrypt None (frame [] ++ []) = (Panic, []).
Proof.
  split; [reflexivity|]. split; [reflexivity|].
  apply (read_short_payload_panics [] []). reflexivity.
Defined.

(** C3 as stated fails: a record cut inside a field is an error for the
    caller.  Segment 1 holds one record and the first ten bytes of a
    second.  As the active segment it makes [New] fail in the startup
    scan; as a sealed segment it makes [Replay] deliver the first entry
    and return [io.ErrUnexpectedEOF]. *)
Lemma partial_record_is_an_error :
  let e1 := mkEntry [x6b; x31] [x76; x31] 1 in
  let e2 := mkEntry [x6b; x32] [x76; x32] 2 in
  let cut := frame (entry_body e1) ++ take 10 (frame (entry_body e2)) in
  let st1 : Storage := {[ "000001.wal"%string := cut ]} in
  let st2 : Storage := <[ "000002.wal"%string := frame (entry_body e2) ]> st1 in
  New no_Decrypt st1 0 None = Err ErrUnexpectedEOF /\
  exists j, New no_Decrypt st2 0 None = Ok j /\
            Replay no_Decrypt j (fun (a : list Entry) e => (a ++ [e], None)) []
            = ([e1], Err ErrUnexpectedEOF).
Proof.
  cbv zeta. split; [vm_compute; reflexivity|].
  eexists. split; [vm_compute; reflexivity|]. vm_compute. reflexivity.
Qed.

Section JournalProofs.
Import journal.

(** * The file and the buffered writer *)

Lemma file_Write_ok (st : Storage) (h : Handle) (p d : list byte) :
  h_closed h = false -> st !! h_name h = Some d ->
  file_Write st h p = (<[h_name h := d ++ p]> st, None).
Proof. intros Hc Hd. unfold file_Write. now rewrite Hc, Hd. Qed.

Lemma Flush_ok (st : Storage) (h : Handle) (w : BufWriter) (d : list byte) :
  h_closed h = false -> st !! h_name h = Some d -> werr w = None ->
  exists st',
    Flush st h w = (st', NewWriter, None) /\
    st' !! h_name h = Some (d ++ wbuf w) /\
    (forall name, name <> h_name h -> st' !! name = st !! name).
Proof.
  intros Hc Hd He. unfold Flush. rewrite He.
  destruct (Z.eqb_spec (len (wbuf w)) 0) as [E|E].
  - assert (wbuf w = []) as Hw.
    { destruct (wbuf w); [reflexivity | unfold len in E; cbn in E; lia]. }
    exists st. destruct w as [b e]. cbn in *. subst.
    split; [reflexivity|]. rewrite app_nil_r. split; [exact Hd | reflexivity].
  - rewrite (file_Write_ok _ _ _ _ Hc Hd).
    exists (<[h_name h := d ++ wbuf w]> st). split; [reflexivity|].
    split; [apply lookup_insert_eq|]. intros name Hne.
    now apply lookup_insert_ne.
Qed.

Lemma len_nil_inv {A} (l : list A) : len l = 0 -> l = [].
Proof. destruct l; [reflexivity | unfold len; cbn [length]; lia]. Qed.

Lemma Write_loop_exit (turns : nat) st h w p nn :
  len p <= Available w -> Write_loop turns st h w p nn = (st, w, p, nn).
Proof.
  intros H. destruct turns as [|k]; [reflexivity|]. cbn [Write_loop].
  destruct (Z.ltb_spec (Available w) (len p)); [lia | reflexivity].
Qed.

Lemma Write_loop_S (k : nat) st h w p nn :
  Write_loop (S k) st h w p nn =
    if (Available w <? len p) && negb (bool_decide (is_Some (werr w))) then
      if len (wbuf w) =? 0 then
        match file_Write st h p with
        | (st', None) => Write_loop k st' h w [] (nn + len p)
        | (st', Some e) =>
            Write_loop k st' h {| wbuf := wbuf w; werr := Some e |} p nn
        end
      else
        let n := Z.to_nat (Available w) in
        let w1 := {| wbuf := wbuf w ++ take n p; werr := werr w |} in
        let '(st', w2, _) := Flush st h w1 in
        Write_loop k st' h w2 (drop n p) (nn + Available w)
    else (st, w, p, nn).
Proof. reflexivity. Qed.

(** [bufio.Writer.Write] on an open file and a writer without a pending
    error: all of [p] is accepted, and the file followed by the buffer
    holds what it held, followed by [p]. *)
Lemma bufio_Write_ok (st : Storage) (h : Handle) (w : BufWriter) (p d : list byte) :
  h_closed h = false -> st !! h_name h = Some d -> werr w = None ->
  len (wbuf w) <= bufSize ->
  exists st' w' d',
    bufio_Write st h w p = (st', w', Ok (len p)) /\
    werr w' = None /\ len (wbuf w') <= bufSize /\
    st' !! h_name h = Some d' /\
    d' ++ wbuf w' = d ++ wbuf w ++ p /\
    (forall name, name <> h_name h -> st' !! name = st !! name).
Proof.
  intros Hc Hd He Hb. unfold bufio_Write.
  pose proof (len_nonneg p) as Hp. pose proof (len_nonneg (wbuf w)) as Hw.
  destruct (Z.le_gt_cases (len p) (Available w)) as [Hfit|Hbig].
  { rewrite Write_loop_exit by exact Hfit. rewrite He.
    exists st, {| wbuf := wbuf w ++ p; werr := None |}, d. cbn [wbuf werr].
    split; [reflexivity|]. split; [reflexivity|].
    split; [rewrite len_app; unfold Available in Hfit; lia|].
    split; [exact Hd|]. split; [reflexivity|]. reflexivity. }
  rewrite Write_loop_S. rewrite He.
  rewrite bool_decide_eq_false_2 by (intros [? [=]]).
  destruct (Z.ltb_spec (Available w) (len p)) as [_|?]; [|lia]. cbn [andb negb].
  destruct (Z.eqb_spec (len (wbuf w)) 0) as [E|E].
  - pose proof (len_nil_inv _ E) as Hnil.
    rewrite (file_Write_ok _ _ _ _ Hc Hd).
    rewrite Write_loop_exit
      by (unfold Available, bufSize; rewrite E; unfold len; cbn [length]; lia).
    rewrite He.
    exists (<[h_name h := d ++ p]> st), {| wbuf := wbuf w ++ []; werr := None |}, (d ++ p).
    cbn [wbuf werr]. rewrite Hnil. cbn [app].
    split; [do 2 f_equal; unfold len; cbn [length]; lia|].
    split; [reflexivity|]. split; [unfold len, bufSize; cbn [length]; lia|].
    split; [apply lookup_insert_eq|]. split; [now rewrite app_nil_r|].
    intros name Hne. now apply lookup_insert_ne.
  - set (n := Z.to_nat (Available w)).
    assert (len (take n p) = Available w) as Htake.
    { unfold len. rewrite length_take. unfold Available, len in *. lia. }
    assert (len (drop n p) = len p - Available w) as Hdrop.
    { unfold len. rewrite length_drop. unfold Available, len in *. lia. }
    destruct (Flush_ok st h {| wbuf := wbuf w ++ take n p; werr := None |} d Hc Hd eq_refl)
      as (st1 & F1 & F2 & F3).
    cbv zeta. fold n. rewrite F1. cbn [wbuf] in F2.
    destruct (Z.le_gt_cases (len (drop n p)) bufSize) as [Hfit2|Hbig2].
    + rewrite Write_loop_exit by exact Hfit2. cbn [werr NewWriter wbuf app].
      exists st1, {| wbuf := drop n p; werr := None |}, (d ++ wbuf w ++ take n p).
      cbn [wbuf werr].
      split; [do 2 f_equal; lia|]. split; [reflexivity|]. split; [exact Hfit2|].
      split; [exact F2|]. split; [|exact F3].
      rewrite <- !app_assoc. do 2 f_equal. apply take_drop.
    + rewrite Write_loop_S. cbn [werr NewWriter wbuf].
      rewrite bool_decide_eq_false_2 by (intros [? [=]]).
      change (Available NewWriter) with bufSize.
      destruct (Z.ltb_spec bufSize (len (drop n p))) as [_|?]; [|lia].
      cbn [andb negb]. change (len (@nil byte) =? 0) with true. cbv iota.
      rewrite (file_Write_ok _ _ _ _ Hc F2).
      rewrite Write_loop_exit
        by (unfold Available, bufSize, NewWriter, len; cbn [length wbuf]; lia).
      cbn [andb werr wbuf app].
      eexists _, _, _.
      split; [do 2 f_equal; rewrite Hdrop; change (len (@nil byte)) with 0; lia|].
      cbn [werr wbuf NewWriter app].
      split; [reflexivity|]. split; [unfold len, bufSize; cbn [length]; lia|].
      split; [apply lookup_insert_eq|]. split.
      * rewrite app_nil_r, <- !app_assoc. do 2 f_equal. apply take_drop.
      * intros name Hne. rewrite lookup_insert_ne by congruence. now apply F3.
Qed.

(** * The journal: what a segment holds, and the invariant *)

Ltac jsimpl :=
  cbn [set_storage set_file set_writer set_seq set_size set_segment
       set_encryptor storage current file writer seq size maxSize segment
       encryptor h_name h_closed wbuf werr].
Tactic Notation "jsimpl" "in" "*" :=
  cbn [set_storage set_file set_writer set_seq set_size set_segment
       set_encryptor storage current file writer seq size maxSize segment
       encryptor h_name h_closed wbuf werr] in *.
Tactic Notation "jsimpl" "in" hyp(H) :=
  cbn [set_storage set_file set_writer set_seq set_size set_segment
       set_encryptor storage current file writer seq size maxSize segment
       encryptor h_name h_closed wbuf werr] in H.

Section JournalInvariant.
Context {EncState : Type}.
Variable Encrypt : EncState -> list byte -> EncState * outcome (list byte).
Variable Decrypt : EncState -> list byte -> outcome (list byte).
(** The encryptor never fails, what it seals it opens again, sealing
    does not change what opens, and a sealed text is at most [overhead]
    bytes longer than the plain one. *)
Variable overhead : Z.
Hypothesis Encrypt_total :
  forall s p, exists s' c, Encrypt s p = (s', Ok c).
Hypothesis Decrypt_Encrypt :
  forall s p s' c, Encrypt s p = (s', Ok c) -> Decrypt s' c = Ok p.
Hypothesis Decrypt_stable :
  forall s p s' r c, Encrypt s p = (s', r) -> Decrypt s' c = Decrypt s c.
Hypothesis Encrypt_len :
  forall s p s' c, Encrypt s p = (s', Ok c) -> len c <= len p + overhead.
Hypothesis overhead_nonneg : 0 <= overhead.

Abbreviation Jrnl := (@Journal EncState).

Definition decrypt_opt (enc : option EncState) (c : list byte)
  : outcome (list byte) :=
  match enc with
  | None => Ok c
  | Some s => Decrypt s c
  end.

(** A stored record: the entry and the payload that frames it. *)
Definition rec_ok (enc : option EncState) (n : Z) (ec : Entry * list byte) : Prop :=
  decrypt_opt enc (snd ec) = Ok (entry_body (fst ec)) /\
  len (snd ec) < 2 ^ 32 /\
  len (Key (fst ec)) < 2 ^ 32 /\ len (Value (fst ec)) < 2 ^ 32 /\
  0 <= Seq (fst ec) <= n.

Definition encode (recs : list (Entry * list byte)) : list byte :=
  concat (map (fun ec => frame (snd ec)) recs).

(** [bytes] is a run of whole records with sequence numbers up to [n],
    and [n] is among them unless it is 0. *)
Definition segment_ok (enc : option EncState) (n : Z) (bytes : list byte) : Prop :=
  exists recs, bytes = encode recs /\ Forall (rec_ok enc n) recs /\
               (n = 0 \/ Exists (fun ec => Seq (fst ec) = n) recs).

(** The directory holds segments 1 to [seg] at most, and segment [seg]. *)
Definition dir_ok (st : Storage) (seg : Z) : Prop :=
  1 <= seg <= 2 ^ 63 - 1 /\
  (forall name, is_Some (st !! name) -> exists k, 1 <= k <= seg /\ name = segmentName k) /\
  is_Some (st !! segmentName seg).

(** The writer of [j] is open on the active segment, which holds the
    records up to [n] once the buffer is counted in. *)
Definition active_ok (j : Jrnl) (n : Z) : Prop :=
  exists w h d,
    writer j = Some w /\ file j = Some h /\ h_closed h = false /\
    h_name h = current j /\ werr w = None /\ len (wbuf w) <= bufSize /\
    storage j !! current j = Some d /\
    segment_ok (encryptor j) n (d ++ wbuf w).

Definition inv (j : Jrnl) (n : Z) : Prop :=
  active_ok j n /\
  current j = segmentName (segment j) /\
  dir_ok (storage j) (segment j) /\
  segment j <= n + 1.

(** The encryptor after some calls of [Encrypt]. *)
Definition enc_step (enc enc' : option EncState) : Prop :=
  enc' = enc \/
  exists s s' p r, enc = Some s /\ enc' = Some s' /\ Encrypt s p = (s', r).

Lemma decrypt_opt_step enc enc' c :
  enc_step enc enc' -> decrypt_opt enc' c = decrypt_opt enc c.
Proof.
  intros [->|(s & s' & p & r & -> & -> & E)]; [reflexivity|].
  cbn [decrypt_opt]. eapply Decrypt_stable, E.
Qed.

Lemma rec_ok_mono enc enc' n n' ec :
  enc_step enc enc' -> n <= n' -> rec_ok enc n ec -> rec_ok enc' n' ec.
Proof.
  intros He Hn (H1 & H2 & H3 & H4 & H5). unfold rec_ok.
  rewrite (decrypt_opt_step _ _ _ He). repeat split; try assumption; lia.
Qed.

Lemma encode_app a b : encode (a ++ b) = encode a ++ encode b.
Proof. unfold encode. now rewrite map_app, concat_app. Qed.

Lemma segment_ok_snoc enc enc' n (bytes : list byte) (e : Entry) (c : list byte) :
  segment_ok enc n bytes -> enc_step enc enc' -> n <= Seq e ->
  rec_ok enc' (Seq e) (e, c) ->
  segment_ok enc' (Seq e) (bytes ++ frame c).
Proof.
  intros (recs & -> & Hall & _) He Hn Hrec.
  exists (recs ++ [(e, c)]). split; [|split].
  - rewrite encode_app. unfold encode at 3. cbn [map concat snd].
    now rewrite app_nil_r.
  - apply Forall_app. split.
    + eapply Forall_impl; [exact Hall|]. intros ec. now apply rec_ok_mono.
    + now constructor.
  - right. apply Exists_app. right. now constructor.
Qed.

Lemma segment_ok_nil enc : segment_ok enc 0 [].
Proof. exists []. split; [reflexivity|]. split; [constructor | now left]. Qed.

(** ** [write] *)

Lemma write_ok (j : Jrnl) (e : Entry) (w : BufWriter) (h : Handle) (d : list byte) :
  writer j = Some w -> file j = Some h -> h_closed h = false ->
  werr w = None -> len (wbuf w) <= bufSize -> storage j !! h_name h = Some d ->
  exists c enc' st' w' d',
    write Encrypt j e =
      (mkJournal st' (current j) (file j) (Some w') (seq j) (size j) (maxSize j)
                 (segment j) enc', Ok (len (frame c))) /\
    enc_step (encryptor j) enc' /\
    decrypt_opt enc' c = Ok (entry_body e) /\
    len c <= len (entry_body e) + overhead /\
    werr w' = None /\ len (wbuf w') <= bufSize /\
    st' !! h_name h = Some d' /\ d' ++ wbuf w' = d ++ wbuf w ++ frame c /\
    (forall name, name <> h_name h -> st' !! name = storage j !! name).
Proof.
  intros Hw Hf Hc He Hb Hd. unfold write.
  destruct (encryptor j) as [s|] eqn:Eenc.
  - destruct (Encrypt_total s (entry_body e)) as (s' & c & Es). rewrite Es.
    cbn [writer file storage set_encryptor]. rewrite Hw, Hf.
    destruct (bufio_Write_ok (storage j) h w (frame c) d Hc Hd He Hb)
      as (st' & w' & d' & B1 & B2 & B3 & B4 & B5 & B6).
    rewrite B1. exists c, (Some s'), st', w', d'.
    split; [unfold set_writer, set_storage; cbn; now rewrite Hf|].
    split; [right; now exists s, s', (entry_body e), (Ok c)|].
    split; [cbn [decrypt_opt]; eapply Decrypt_Encrypt, Es|].
    split; [eapply Encrypt_len, Es|]. auto.
  - rewrite Hw, Hf.
    destruct (bufio_Write_ok (storage j) h w (frame (entry_body e)) d Hc Hd He Hb)
      as (st' & w' & d' & B1 & B2 & B3 & B4 & B5 & B6).
    rewrite B1. exists (entry_body e), None, st', w', d'.
    split; [unfold set_writer, set_storage; cbn; now rewrite Hf, Eenc|].
    split; [now left|]. split; [reflexivity|]. split; [lia|]. auto.
Qed.

Lemma wrapInt_small z : - 2 ^ 63 <= z < 2 ^ 63 -> wrapInt z = z.
Proof. intros H. unfold wrapInt. rewrite Z.mod_small; lia. Qed.

(** ** [newSegment] *)

Lemma newSegment_ok (j : Jrnl) (n : Z) :
  active_ok j n -> current j = segmentName (segment j) ->
  dir_ok (storage j) (segment j) -> segment j + 1 <= 2 ^ 63 - 1 ->
  exists st',
    newSegment j =
      (mkJournal st' (segmentName (segment j + 1))
         (Some {| h_name := segmentName (segment j + 1); h_closed := false |})
         (Some NewWriter) (seq j) 0 (maxSize j) (segment j + 1) (encryptor j),
       Ok tt) /\
    st' !! segmentName (segment j + 1) = Some [] /\
    dir_ok st' (segment j + 1).
Proof.
  intros (w & h & d & Hw & Hf & Hc & Hn & He & Hb & Hd & _) Hcur (Hseg & Hnames & Hact) Hmax.
  unfold newSegment. rewrite Hf, Hw.
  rewrite <- Hn in Hd.
  destruct (Flush_ok (storage j) h w d Hc Hd He) as (st1 & F1 & F2 & F3).
  rewrite F1. jsimpl.
  unfold Sync. rewrite <- Hn, F2.
  unfold file_Close. rewrite Hc. jsimpl.
  rewrite wrapInt_small by lia.
  assert (st1 !! segmentName (segment j + 1) = None) as Hnew.
  { destruct (st1 !! segmentName (segment j + 1)) eqn:E; [|reflexivity].
    exfalso.
    assert (is_Some (storage j !! segmentName (segment j + 1))) as Hs.
    { destruct (decide (segmentName (segment j + 1) = h_name h)) as [Eq|Ne].
      - rewrite Eq, Hd. eauto.
      - rewrite <- (F3 _ Ne), E. eauto. }
    destruct (Hnames _ Hs) as (k & Hk & Ek).
    apply segmentName_inj in Ek; lia. }
  unfold Create. rewrite Hnew.
  eexists. split; [reflexivity|].
  split; [apply lookup_insert_eq|].
  split; [lia|]. split.
  - intros name [x Hx].
    destruct (decide (name = segmentName (segment j + 1))) as [->|Ne].
    + exists (segment j + 1). split; [lia | reflexivity].
    + rewrite lookup_insert_ne in Hx by congruence.
      assert (is_Some (storage j !! name)) as Hs.
      { destruct (decide (name = h_name h)) as [Eq|Ne'].
        - rewrite Eq, Hd. eauto.
        - rewrite <- (F3 _ Ne'), Hx. eauto. }
      destruct (Hnames _ Hs) as (k & Hk & Ek). exists k. split; [lia | exact Ek].
  - rewrite lookup_insert_eq. eauto.
Qed.

(** ** [append], [Write] and [WriteBatch] *)

Definition fits (e : Entry) : Prop :=
  16 + len (Key e) + len (Value e) + overhead < 2 ^ 32.

Lemma append_ok (j : Jrnl) (n : Z) (e : Entry) :
  inv j n -> fits e -> Seq e = n + 1 -> n + 2 <= 2 ^ 63 - 1 -> 0 <= n ->
  exists j',
    append Encrypt j e = (j', Ok tt) /\ inv j' (n + 1) /\
    seq j' = seq j /\ maxSize j' = maxSize j.
Proof.
  intros (Hact & Hcur & Hdir & Hsegn) Hfit Hseq Hmax Hn0.
  pose proof (len_nonneg (Key e)) as HK. pose proof (len_nonneg (Value e)) as HV.
  unfold fits in Hfit.
  unfold append.
  destruct (maxSize j <=? size j).
  - (* the segment is full: rotate first *)
    destruct (newSegment_ok j n Hact Hcur Hdir ltac:(lia)) as (st1 & E1 & Hnew & Hdir1).
    rewrite E1.
    set (h1 := {| h_name := segmentName (segment j + 1); h_closed := false |}).
    set (j1 := mkJournal st1 _ _ _ _ _ _ _ _).
    destruct (write_ok j1 e NewWriter h1 [] eq_refl eq_refl eq_refl eq_refl
                ltac:(unfold bufSize, len; cbn; lia) Hnew)
      as (c & enc' & st' & w' & d' & W1 & W2 & W3 & W4 & W5 & W6 & W7 & W8 & W9).
    rewrite W1. subst j1 h1. jsimpl in *.
    eexists. split; [reflexivity|].
    split; [|split; reflexivity].
    unfold inv. jsimpl.
    split; [|split; [reflexivity|split; [|lia]]].
    + eexists w', _, d'. jsimpl.
      repeat (split; [first [reflexivity | assumption]|]).
      rewrite W8. cbn [wbuf NewWriter app]. rewrite <- Hseq.
      apply (segment_ok_snoc (encryptor j) enc' 0 [] e c (segment_ok_nil _) W2);
        [lia|].
      unfold rec_ok. cbn [fst snd]. rewrite len_entry_body in W4.
      repeat split; try assumption; lia.
    + destruct Hdir1 as (Hs1 & Hn1 & Ha1). split; [exact Hs1|]. split.
      * intros name [x Hx].
        destruct (decide (name = segmentName (segment j + 1))) as [->|Ne].
        -- exists (segment j + 1). split; [lia | reflexivity].
        -- apply Hn1. rewrite <- (W9 _ Ne), Hx. eauto.
      * rewrite W7. eauto.
  - (* room left in the active segment *)
    destruct Hact as (w & h & d & Hw & Hf & Hc & Hnm & He & Hb & Hd & Hsegok).
    rewrite <- Hnm in Hd.
    destruct (write_ok j e w h d Hw Hf Hc He Hb Hd)
      as (c & enc' & st' & w' & d' & W1 & W2 & W3 & W4 & W5 & W6 & W7 & W8 & W9).
    rewrite W1. eexists. split; [reflexivity|].
    split; [|split; reflexivity].
    unfold inv. jsimpl.
    split; [|split; [exact Hcur|split; [|lia]]].
    + exists w', h, d'. jsimpl.
      rewrite <- Hnm.
      repeat (split; [first [reflexivity | assumption]|]).
      rewrite W8, app_assoc. rewrite <- Hseq.
      apply (segment_ok_snoc (encryptor j) enc' n _ e c Hsegok W2); [lia|].
      unfold rec_ok. cbn [fst snd]. rewrite len_entry_body in W4.
      repeat split; try assumption; lia.
    + destruct Hdir as (Hs1 & Hn1 & Ha1). split; [exact Hs1|]. split.
      * intros name [x Hx].
        destruct (decide (name = h_name h)) as [->|Ne].
        -- exists (segment j). split; [lia|]. now rewrite Hnm.
        -- apply Hn1. rewrite <- (W9 _ Ne), Hx. eauto.
      * rewrite <- Hcur, <- Hnm, W7. eauto.
Qed.

Lemma inv_set_seq (j : Jrnl) (n s : Z) : inv j n -> inv (set_seq j s) n.
Proof. intros H. exact H. Qed.

Lemma Write_ok (j : Jrnl) (n : Z) (key value : list byte) :
  inv j n -> seq j = n -> 0 <= n -> n + 2 <= 2 ^ 63 - 1 ->
  16 + len key + len value + overhead < 2 ^ 32 ->
  exists j',
    Write Encrypt j key value = (j', Ok (n + 1)) /\ inv j' (n + 1) /\
    seq j' = n + 1 /\ maxSize j' = maxSize j.
Proof.
  intros Hinv Hseq Hn Hmax Hfit. unfold Write.
  assert (wrap64 (seq j + 1) = n + 1) as Hs by (rewrite Hseq; apply wrap64_small; lia).
  jsimpl. rewrite Hs.
  destruct (append_ok (set_seq j (n + 1)) n
              {| Key := key; Value := value; Seq := n + 1 |}
              (inv_set_seq j n _ Hinv) Hfit eq_refl Hmax Hn)
    as (j' & E & Hinv' & Hseq' & Hmx).
  rewrite E. exists j'. cbn [Seq]. auto.
Qed.

(** The sequence numbers [n+1, ..., n+k]. *)
Fixpoint count_from (n : Z) (k : nat) : list Z :=
  match k with
  | O => []
  | S k' => (n + 1) :: count_from (n + 1) k'
  end.

(** The entries with the sequence numbers after [n] written in. *)
Fixpoint stamp (n : Z) (es : list Entry) : list Entry :=
  match es with
  | [] => []
  | e :: es' =>
      {| Key := Key e; Value := Value e; Seq := n + 1 |} :: stamp (n + 1) es'
  end.

Lemma WriteBatch_loop_ok (todo : list Entry) :
  forall (j : Jrnl) (n : Z) (done : list Entry) (seqs : list Z),
  inv j n -> seq j = n -> 0 <= n -> n + len todo + 1 <= 2 ^ 63 - 1 ->
  Forall fits todo ->
  exists j',
    WriteBatch_loop Encrypt j done todo seqs =
      (j', done ++ stamp n todo, Ok (seqs ++ count_from n (length todo))) /\
    inv j' (n + len todo) /\ seq j' = n + len todo /\ maxSize j' = maxSize j.
Proof.
  induction todo as [|e todo IH]; intros j n done seqs Hinv Hseq Hn Hmax Hfits.
  - exists j. cbn [WriteBatch_loop stamp count_from length].
    change (len (@nil Entry)) with 0. rewrite !app_nil_r, Z.add_0_r. auto.
  - assert (len (e :: todo) = len todo + 1) as Hlen
      by (unfold len; cbn [length]; lia).
    pose proof (len_nonneg todo) as Hnn. rewrite Hlen in *.
    apply Forall_cons in Hfits as [Hfit Hfits].
    cbn [WriteBatch_loop]. jsimpl.
    assert (wrap64 (seq j + 1) = n + 1) as Hs
      by (rewrite Hseq; apply wrap64_small; lia).
    rewrite Hs.
    destruct (append_ok (set_seq j (n + 1)) n
                {| Key := Key e; Value := Value e; Seq := n + 1 |}
                (inv_set_seq j n _ Hinv) Hfit eq_refl ltac:(lia) Hn)
      as (j1 & E & Hinv1 & Hseq1 & Hmx1).
    rewrite E.
    destruct (IH j1 (n + 1) (done ++ [{| Key := Key e; Value := Value e; Seq := n + 1 |}])
                (seqs ++ [n + 1]) Hinv1 Hseq1 ltac:(lia) ltac:(lia) Hfits)
      as (j' & E' & Hinv' & Hseq' & Hmx').
    exists j'. rewrite E'. cbn [stamp count_from length].
    rewrite <- !app_assoc. cbn [app].
    split; [reflexivity|].
    replace (n + (len todo + 1)) with (n + 1 + len todo) by lia.
    split; [exact Hinv'|]. split; [exact Hseq'|]. now rewrite Hmx'.
Qed.

(** ** [Close] *)

(** The directory of a journal that was closed after [n] entries. *)
Definition closed_ok (st : Storage) (seg n : Z) (enc : option EncState) : Prop :=
  dir_ok st seg /\
  exists d, st !! segmentName seg = Some d /\ segment_ok enc n d.

Lemma Close_ok (j : Jrnl) (n : Z) :
  inv j n ->
  exists j1,
    Close j = (j1, None) /\ closed_ok (storage j1) (segment j) n (encryptor j) /\
    encryptor j1 = encryptor j.
Proof.
  intros ((w & h & d & Hw & Hf & Hc & Hnm & He & Hb & Hd & Hseg) & Hcur & Hdir & _).
  unfold Close. rewrite Hw, Hf. rewrite <- Hnm in Hd.
  destruct (Flush_ok (storage j) h w d Hc Hd He) as (st1 & F1 & F2 & F3).
  rewrite F1. jsimpl. rewrite Hf. unfold file_Close. rewrite Hc.
  eexists. split; [reflexivity|]. jsimpl. split; [|reflexivity].
  destruct Hdir as (Hs & Hnames & Hact).
  split; [split; [exact Hs|split]|].
  - intros name [x Hx].
    destruct (decide (name = h_name h)) as [->|Ne].
    + exists (segment j). split; [lia|]. now rewrite Hnm.
    + apply Hnames. rewrite <- (F3 _ Ne), Hx. eauto.
  - rewrite <- Hcur, <- Hnm, F2. eauto.
  - exists (d ++ wbuf w). split; [|exact Hseg].
    now rewrite <- Hcur, <- Hnm.
Qed.

(** ** The startup scan *)

Definition later (s : Z) (ec : Entry * list byte) : Z :=
  if s <? Seq (fst ec) then Seq (fst ec) else s.

Lemma length_encode recs : (length recs <= length (encode recs))%nat.
Proof.
  induction recs as [|ec recs IH]; [reflexivity|].
  unfold encode in *. cbn [map concat length]. rewrite length_app.
  pose proof (len_frame (snd ec)) as Hf. pose proof (len_nonneg (snd ec)).
  unfold len in Hf. lia.
Qed.

Lemma read_rec_ok enc n ec rest :
  rec_ok enc n ec -> n < 2 ^ 64 ->
  read Decrypt enc (frame (snd ec) ++ rest) =
    (Ok {| Key := Key (fst ec); Value := Value (fst ec); Seq := Seq (fst ec) |},
     rest).
Proof.
  intros (Hd & Hc & Hk & Hv & Hs) Hn.
  rewrite read_frame by exact Hc. f_equal.
  assert (parse_body (entry_body (fst ec)) =
          Ok {| Key := Key (fst ec); Value := Value (fst ec); Seq := Seq (fst ec) |})
    as Hp.
  { rewrite parse_body_entry_body by assumption.
    now rewrite wrap64_small by lia. }
  destruct enc as [s|]; cbn [decrypt_opt] in Hd.
  - rewrite Hd. exact Hp.
  - injection Hd as ->. exact Hp.
Qed.

Lemma scan_loop_encode enc n recs :
  Forall (rec_ok enc n) recs -> n < 2 ^ 64 ->
  forall (turns : nat) (s0 : Z), (length recs < turns)%nat ->
  scan_loop Decrypt turns enc (encode recs) s0 =
    Some (Ok (fold_left later recs s0)).
Proof.
  intros Hall Hn. induction Hall as [|ec recs Hec Hall IH]; intros turns s0 Ht.
  - destruct turns as [|k]; [cbn in Ht; lia|]. reflexivity.
  - destruct turns as [|k]; [cbn in Ht; lia|].
    cbn [scan_loop]. unfold encode. cbn [map concat]. fold (encode recs).
    rewrite (read_rec_ok enc n ec _ Hec Hn). cbn [Seq fold_left].
    apply IH. cbn [length] in Ht. lia.
Qed.

Lemma fold_later_max n recs :
  Forall (fun ec => 0 <= Seq (fst ec) <= n) recs ->
  forall s0, 0 <= s0 <= n ->
  (s0 = n \/ Exists (fun ec => Seq (fst ec) = n) recs) ->
  fold_left later recs s0 = n.
Proof.
  induction 1 as [|ec recs Hec Hall IH]; intros s0 Hs0 Hex.
  - destruct Hex as [->|Hex]; [reflexivity | inversion Hex].
  - cbn [fold_left]. apply IH.
    + unfold later. destruct (Z.ltb_spec s0 (Seq (fst ec))); lia.
    + unfold later. destruct Hex as [->|Hex].
      * left. destruct (Z.ltb_spec n (Seq (fst ec))); lia.
      * inversion Hex as [? ? Heq|? ? Hex']; subst.
        -- left. destruct (Z.ltb_spec s0 (Seq (fst ec))); lia.
        -- now right.
Qed.

Lemma scan_segment_ok enc n d :
  segment_ok enc n d -> 0 <= n < 2 ^ 64 ->
  scan_loop Decrypt (S (length d)) enc d 0 = Some (Ok n).
Proof.
  intros (recs & -> & Hall & Hex) Hn.
  rewrite (scan_loop_encode enc n recs Hall) by (lia || (pose proof (length_encode recs); lia)).
  f_equal. f_equal. apply fold_later_max.
  - eapply Forall_impl; [exact Hall|]. intros ec H. apply H.
  - lia.
  - destruct Hex as [->|Hex]; [now left | now right].
Qed.

(** ** [List] and [openLatest] *)

Lemma has_suffix_app suffix p : has_suffix suffix (p +:+ suffix) = true.
Proof.
  induction p as [|c p IH].
  - rewrite append_nil. destruct suffix; cbn [has_suffix]; now rewrite String.eqb_refl.
  - rewrite append_cons. cbn [has_suffix].
    destruct (String.eqb (String c (p +:+ suffix)) suffix); [reflexivity | exact IH].
Qed.

Lemma In_insert_sorted_intro {A} (leb : A -> A -> bool) x y l :
  y = x \/ In y l -> In y (insert_sorted leb x l).
Proof.
  induction l as [|z l IH]; cbn [insert_sorted].
  - intros [->|[]]. now left.
  - destruct (leb x z).
    + intros [->|H]; [now left | now right].
    + intros [->|[->|H]]; [right; apply IH; now left | now left |].
      right. apply IH. now right.
Qed.

Lemma In_sort_by_intro {A} (leb : A -> A -> bool) y l :
  In y l -> In y (sort_by leb l).
Proof.
  induction l as [|x l IH]; [intros []|].
  cbn [sort_by foldr]. intros [->|H]; apply In_insert_sorted_intro.
  - now left.
  - right. now apply IH.
Qed.

Lemma In_List (st : Storage) name :
  In name (List st) <-> is_Some (st !! name) /\ has_suffix ".wal" name = true.
Proof.
  unfold List, sort_Strings. split.
  - intros H. apply In_sort_by in H. apply filter_In in H as [H Hs].
    split; [|exact Hs]. apply in_map_iff in H as ([k v] & <- & H).
    apply list_elem_of_In, elem_of_map_to_list in H. cbn [fst]. eauto.
  - intros [[v Hv] Hs]. apply In_sort_by_intro, filter_In. split; [|exact Hs].
    apply in_map_iff. exists (name, v). split; [reflexivity|].
    now apply list_elem_of_In, elem_of_map_to_list.
Qed.

Definition pick_latest (latest : Z) (name : string) : Z :=
  match fmt.Sscanf_d_wal name with
  | Some n => if latest <? n then n else latest
  | None => latest
  end.

Lemma fold_pick_latest seg names :
  1 <= seg <= 2 ^ 63 - 1 ->
  (forall name, In name names -> exists k, 1 <= k <= seg /\ name = segmentName k) ->
  forall acc, 0 <= acc <= seg ->
  (acc = seg \/ In (segmentName seg) names) ->
  fold_left pick_latest names acc = seg.
Proof.
  intros Hseg. induction names as [|name names IH]; intros Hall acc Hacc Hin.
  - destruct Hin as [->|[]]. reflexivity.
  - cbn [fold_left].
    destruct (Hall name (or_introl eq_refl)) as (k & Hk & ->).
    unfold pick_latest at 2. rewrite Sscanf_segmentName by lia.
    apply IH.
    + intros nm Hnm. apply Hall. now right.
    + destruct (Z.ltb_spec acc k); lia.
    + destruct Hin as [->|[Heq|Hin]].
      * left. destruct (Z.ltb_spec seg k); lia.
      * apply segmentName_inj in Heq; [|lia|lia]. subst k.
        left. destruct (Z.ltb_spec acc seg); lia.
      * now right.
Qed.

Lemma New_reopen (st : Storage) (seg n : Z) (enc : option EncState) (maxSz : Z) :
  closed_ok st seg n enc -> 0 <= n < 2 ^ 64 -> seg <= n + 1 ->
  exists j,
    New Decrypt st maxSz enc = Ok j /\ inv j n /\ seq j = n /\
    encryptor j = enc /\ storage j = st.
Proof.
  intros ((Hseg & Hnames & Hact) & d & Hd & Hsegok) Hn Hle.
  unfold New, openLatest. jsimpl.
  assert (In (segmentName seg) (List st)) as Hin.
  { apply In_List. split; [exact Hact|]. apply has_suffix_app. }
  destruct (List st) as [|nm names] eqn:EL; [destruct Hin|].
  rewrite <- EL in Hin |- *.
  change (fold_left _ (List st) 0) with (fold_left pick_latest (List st) 0).
  rewrite (fold_pick_latest seg (List st) Hseg); [|  | lia | now right].
  2:{ intros name Hname. apply In_List in Hname as [Hs _]. now apply Hnames. }
  unfold scan. jsimpl. unfold Open, io.Reader. rewrite Hd.
  rewrite (scan_segment_ok enc n d Hsegok Hn). jsimpl.
  unfold OpenAppend. rewrite Hd.
  eexists. split; [reflexivity|]. jsimpl.
  split; [|auto]. unfold inv. jsimpl.
  split; [|split; [reflexivity|split; [|exact Hle]]].
  - eexists NewWriter, _, d. jsimpl.
    repeat (split; [first [reflexivity | assumption | (unfold bufSize, len; cbn; lia)]|]).
    cbn [NewWriter wbuf]. now rewrite app_nil_r.
  - split; [exact Hseg|]. split; [exact Hnames | exact Hact].
Qed.

Lemma New_empty (enc : option EncState) (maxSz : Z) :
  exists j,
    New Decrypt ∅ maxSz enc = Ok j /\ inv j 0 /\ seq j = 0 /\ encryptor j = enc.
Proof.
  unfold New, openLatest. jsimpl.
  assert (List (∅ : Storage) = []) as -> by reflexivity.
  unfold newSegment. jsimpl. change (wrapInt (0 + 1)) with 1.
  unfold Create. rewrite lookup_empty.
  eexists. split; [reflexivity|]. jsimpl.
  split; [|auto]. unfold inv. jsimpl.
  split; [|split; [reflexivity|split; [|lia]]].
  - eexists NewWriter, _, []. jsimpl.
    repeat (split; [first [reflexivity | apply lookup_insert_eq
                          | (unfold bufSize, len; cbn; lia)]|]).
    cbn [NewWriter wbuf app]. apply segment_ok_nil.
  - split; [lia|]. split.
    + intros name [x Hx]. exists 1. split; [lia|].
      destruct (decide (name = segmentName 1)) as [->|Ne]; [reflexivity|].
      rewrite lookup_insert_ne in Hx by congruence. now rewrite lookup_empty in Hx.
    + rewrite lookup_insert_eq. eauto.
Qed.

(** ** Histories *)

Definition op_fits (o : op) : Prop :=
  match o with
  | OpWrite key value => 16 + len key + len value + overhead < 2 ^ 32
  | OpWriteBatch entries => Forall fits entries
  | OpReopen _ => True
  end.

Definition total_entries (ops : list op) : nat :=
  list_sum (map entries_of ops).

(** What a history observes when [n] entries were written before it. *)
Fixpoint expected (ops : list op) (n : Z) : list observed :=
  match ops with
  | [] => []
  | OpWrite _ _ :: ops' => Issued (n + 1) :: expected ops' (n + 1)
  | OpWriteBatch entries :: ops' =>
      map Issued (count_from n (length entries)) ++ expected ops' (n + len entries)
  | OpReopen _ :: ops' => Scanned n :: expected ops' n
  end.

Lemma total_entries_cons o ops :
  total_entries (o :: ops) = (entries_of o + total_entries ops)%nat.
Proof. reflexivity. Qed.

Lemma run_expected (ops : list op) :
  forall (j : Jrnl) (n : Z),
  inv j n -> seq j = n -> 0 <= n ->
  n + Z.of_nat (total_entries ops) + 1 <= 2 ^ 63 - 1 ->
  Forall op_fits ops ->
  exists j', run Encrypt Decrypt j ops = Ok (j', expected ops n).
Proof.
  induction ops as [|o ops IH]; intros j n Hinv Hseq Hn Hmax Hfits.
  - exists j. reflexivity.
  - apply Forall_cons in Hfits as [Hfit Hfits].
    rewrite total_entries_cons in Hmax.
    destruct o as [key value|entries|maxSz]; cbn [run expected entries_of] in *.
    + destruct (Write_ok j n key value Hinv Hseq Hn ltac:(lia) Hfit)
        as (j1 & E & Hinv1 & Hseq1 & _).
      rewrite E.
      destruct (IH j1 (n + 1) Hinv1 Hseq1 ltac:(lia) ltac:(lia) Hfits) as (j' & E').
      rewrite E'. exists j'. reflexivity.
    + unfold WriteBatch.
      destruct (WriteBatch_loop_ok entries j n [] [] Hinv Hseq Hn
                  ltac:(unfold len; lia) Hfit)
        as (j1 & E & Hinv1 & Hseq1 & _).
      rewrite E.
      destruct (IH j1 (n + len entries) Hinv1 Hseq1 ltac:(unfold len; lia)
                  ltac:(unfold len; lia) Hfits) as (j' & E').
      rewrite E'. exists j'. reflexivity.
    + destruct (Close_ok j n Hinv) as (j1 & E & Hclosed & Henc).
      rewrite E. rewrite Henc.
      destruct Hinv as (_ & _ & _ & Hle).
      destruct (New_reopen (storage j1) (segment j) n (encryptor j) maxSz Hclosed
                  ltac:(lia) Hle)
        as (j2 & E2 & Hinv2 & Hseq2 & _).
      rewrite E2. cbn [bind].
      destruct (IH j2 n Hinv2 Hseq2 Hn ltac:(lia) Hfits) as (j' & E').
      rewrite E', Hseq2. exists j'. reflexivity.
Qed.

Lemma issued_app a b : issued (a ++ b) = issued a ++ issued b.
Proof. unfold issued. apply flat_map_app. Qed.

Lemma issued_map_Issued l : issued (map Issued l) = l.
Proof.
  induction l as [|x l IH]; [reflexivity|].
  cbn [map]. change (issued (Issued x :: map Issued l)) with (x :: issued (map Issued l)).
  now rewrite IH.
Qed.

Lemma count_from_app n a b :
  count_from n (a + b) = count_from n a ++ count_from (n + Z.of_nat a) b.
Proof.
  revert n. induction a as [|a IH]; intros n.
  - cbn [count_from Nat.add app]. now rewrite Z.add_0_r.
  - cbn [count_from Nat.add app]. rewrite IH. do 3 f_equal. lia.
Qed.

Lemma issued_expected ops : forall n,
  issued (expected ops n) = count_from n (total_entries ops).
Proof.
  induction ops as [|o ops IH]; intros n; [reflexivity|].
  rewrite total_entries_cons, count_from_app.
  destruct o as [key value|entries|maxSz]; cbn [expected entries_of].
  - change (issued (Issued (n + 1) :: ?l)) with ((n + 1) :: issued l).
    cbn [count_from app]. now rewrite IH.
  - rewrite issued_app, issued_map_Issued, IH. reflexivity.
  - change (issued (Scanned n :: ?l)) with (issued l).
    cbn [count_from app]. rewrite IH. now rewrite Z.add_0_r.
Qed.

Lemma split_after_issued (a : list Z) (b pre post : list observed) (m : Z) :
  map Issued a ++ b = pre ++ Scanned m :: post ->
  exists pre', b = pre' ++ Scanned m :: post.
Proof.
  revert pre. induction a as [|x a IH]; intros pre H.
  - now exists pre.
  - destruct pre as [|o pre]; [discriminate H|].
    injection H as _ H. now apply IH in H.
Qed.

Lemma expected_after_scan ops : forall n pre m post,
  expected ops n = pre ++ Scanned m :: post ->
  exists k, issued post = count_from m k.
Proof.
  induction ops as [|o ops IH]; intros n pre m post H.
  - destruct pre; discriminate H.
  - destruct o as [key value|entries|maxSz]; cbn [expected] in H.
    + destruct pre as [|o pre]; [discriminate H|].
      injection H as _ H. now apply IH in H.
    + apply split_after_issued in H as (pre' & H). now apply IH in H.
    + destruct pre as [|o pre].
      * injection H as <- <-. eexists. apply issued_expected.
      * injection H as _ H. now apply IH in H.
Qed.

Lemma count_from_seq n k :
  count_from n k = map (fun i => n + Z.of_nat i) (List.seq 1 k).
Proof.
  revert n. induction k as [|k IH]; intros n; [reflexivity|].
  cbn [count_from List.seq map].
  replace (n + Z.of_nat 1) with (n + 1) by lia. f_equal.
  rewrite IH, <- (seq_shift k 1), map_map. apply map_ext. intros i. lia.
Qed.


(** ** [WriteBatch] and the caller's slice *)

Lemma write_seq (j : Jrnl) (e : Entry) :
  seq (fst (write Encrypt j e)) = seq j.
Proof.
  unfold write.
  destruct (encryptor j) as [s|].
  - destruct (Encrypt s (entry_body e)) as [s' [c| |]]; try reflexivity.
    jsimpl. destruct (writer j), (file j); try reflexivity.
    destruct (bufio_Write _ _ _ _) as [[st w'] r]. reflexivity.
  - destruct (writer j), (file j); try reflexivity.
    destruct (bufio_Write _ _ _ _) as [[st w'] r]. reflexivity.
Qed.

Lemma newSegment_seq (j : Jrnl) : seq (fst (newSegment j)) = seq j.
Proof.
  unfold newSegment.
  destruct (file j) as [h|]; [destruct (writer j) as [w|]|].
  - destruct (Flush _ _ _) as [[st w'] [err|]]; jsimpl.
    + reflexivity.
    + destruct (Sync _ _); jsimpl; [reflexivity|].
      destruct (file_Close h) as [h' [err|]]; jsimpl; [reflexivity|].
      destruct (Create _ _) as [st' [h1| |]]; reflexivity.
  - reflexivity.
  - jsimpl. destruct (Create _ _) as [st' [h1| |]]; reflexivity.
Qed.

Lemma append_seq (j : Jrnl) (e : Entry) : seq (fst (append Encrypt j e)) = seq j.
Proof.
  unfold append.
  destruct (maxSize j <=? size j).
  - pose proof (newSegment_seq j) as H1.
    destruct (newSegment j) as [j1 [[]| |]]; cbn [fst] in *; try exact H1.
    pose proof (write_seq j1 e) as H2.
    destruct (write Encrypt j1 e) as [j2 [n| |]]; cbn [fst] in *; jsimpl; congruence.
  - pose proof (write_seq j e) as H2.
    destruct (write Encrypt j e) as [j2 [n| |]]; cbn [fst] in *; jsimpl; congruence.
Qed.

Definition restamp (e : Entry) (s : Z) : Entry :=
  {| Key := Key e; Value := Value e; Seq := s |}.

Lemma WriteBatch_loop_result (todo : list Entry) :
  forall (j j' : Jrnl) (done out : list Entry) (seqs res : list Z),
  WriteBatch_loop Encrypt j done todo seqs = (j', out, Ok res) ->
  exists ss,
    res = seqs ++ ss /\ out = done ++ zip_with restamp todo ss /\
    length ss = length todo /\
    (forall i s, ss !! i = Some s -> s = wrap64 (seq j + 1 + Z.of_nat i)).
Proof.
  induction todo as [|e todo IH]; intros j j' done out seqs res H.
  - cbn [WriteBatch_loop] in H. injection H as _ <- <-.
    exists []. rewrite !app_nil_r. repeat split. intros i s Hi. discriminate Hi.
  - cbn [WriteBatch_loop] in H. jsimpl in H.
    pose proof (append_seq (set_seq j (wrap64 (seq j + 1)))
                  {| Key := Key e; Value := Value e; Seq := wrap64 (seq j + 1) |}) as Hs.
    destruct (append Encrypt _ _) as [j2 [[]| |]]; try discriminate H.
    cbn [fst] in Hs. jsimpl in Hs.
    apply IH in H as (ss & -> & -> & Hlen & Hidx).
    exists (wrap64 (seq j + 1) :: ss). rewrite <- !app_assoc. cbn [app zip_with length].
    split; [reflexivity|]. split; [reflexivity|]. split; [now rewrite Hlen|].
    intros [|i] s Hi.
    + injection Hi as <-. cbn. now rewrite Z.add_0_r.
    + cbn [lookup list_lookup] in Hi. apply Hidx in Hi. subst s. rewrite Hs.
      unfold wrap64. rewrite <- Z.add_assoc, Z.add_mod_idemp_l by lia.
      f_equal. lia.
Qed.

(** C10.  A [WriteBatch] that succeeds leaves in the caller's slice the
    same keys and values, with [Seq] set to the sequence number assigned
    to each index, and returns those sequence numbers in the order of the
    input: the [i]-th is the journal's counter plus [i + 1], as a
    [uint64]. *)
Theorem WriteBatch_stamps_callers_slice (j j' : Jrnl)
    (entries entries' : list Entry) (seqs : list Z) :
  WriteBatch Encrypt j entries = (j', entries', Ok seqs) ->
  map Seq entries' = seqs /\
  map Key entries' = map Key entries /\
  map Value entries' = map Value entries /\
  length seqs = length entries /\
  (forall i s, seqs !! i = Some s -> s = wrap64 (seq j + 1 + Z.of_nat i)).
Proof.
  intros H. apply WriteBatch_loop_result in H as (ss & -> & -> & Hlen & Hidx).
  cbn [app].
  assert (forall (es : list Entry) (ss : list Z), length ss = length es ->
            map Seq (zip_with restamp es ss) = ss /\
            map Key (zip_with restamp es ss) = map Key es /\
            map Value (zip_with restamp es ss) = map Value es) as Hz.
  { induction es as [|e es IH]; intros [|s ss'] Hl; try discriminate Hl.
    - repeat split.
    - injection Hl as Hl. destruct (IH ss' Hl) as (H1 & H2 & H3).
      cbn [zip_with map restamp Seq Key Value]. now rewrite H1, H2, H3. }
  destruct (Hz entries ss Hlen) as (H1 & H2 & H3). auto.
Qed.

End JournalInvariant.

(** * Journals without an encryptor *)

Lemma no_Encrypt_total (s : NoEncryptor) (p : list byte) :
  exists s' c, no_Encrypt s p = (s', Ok c).
Proof. destruct s. Qed.

Lemma no_Decrypt_Encrypt (s : NoEncryptor) (p : list byte) s' c :
  no_Encrypt s p = (s', Ok c) -> no_Decrypt s' c = Ok p.
Proof. destruct s. Qed.

Lemma no_Decrypt_stable (s : NoEncryptor) (p : list byte) s' r c :
  no_Encrypt s p = (s', r) -> no_Decrypt s' c = no_Decrypt s c.
Proof. destruct s. Qed.

Lemma no_Encrypt_len (s : NoEncryptor) (p : list byte) s' c :
  no_Encrypt s p = (s', Ok c) -> len c <= len p + 0.
Proof. destruct s. Qed.


Example history_after_restart :
  (let* j0 := New no_Decrypt ∅ 1024 None in
   let* (j, tr) := run no_Encrypt no_Decrypt j0
     [OpWrite [x01] [x02]; OpWrite [x03] [x04]; OpReopen 1024; OpWrite [x05] [x06]] in
   Ok tr)
  = Ok [Issued 1; Issued 2; Scanned 2; Issued 3].
Proof. vm_compute. reflexivity. Qed.

(** The journal that [New] returns over an empty storage. *)
Definition fresh_journal (maxSz : Z) : @Journal NoEncryptor :=
  mkJournal {[ "000001.wal"%string := [] ]} "000001.wal"
            (Some {| h_name := "000001.wal"; h_closed := false |})
            (Some NewWriter) 0 0 maxSz 1 None.

Example New_fresh_journal :
  New no_Decrypt ∅ 1024 None = Ok (fresh_journal 1024).
Proof. vm_compute. reflexivity. Qed.

Lemma WriteBatch_stamps_callers_slice_witness :
  let entries := [mkEntry [x61] [x62] 0; mkEntry [x63] [x64] 77] in
  exists j' entries',
    WriteBatch no_Encrypt (fresh_journal 1024) entries = (j', entries', Ok [1; 2]) /\
    map Seq entries' = [1; 2] /\
    map Key entries' = map Key entries /\
    map Value entries' = map Value entries /\
    length [1; 2] = length entries /\
    (forall i s, [1; 2] !! i = Some s ->
                 s = wrap64 (seq (fresh_journal 1024) + 1 + Z.of_nat i)).
Proof.
  intros entries.
  set (r := WriteBatch no_Encrypt (fresh_journal 1024) entries).
  assert (r = (fst (fst r), snd (fst r), Ok [1; 2])) as H
    by (vm_compute; reflexivity).
  exists (fst (fst r)), (snd (fst r)). split; [exact H|].
  exact (WriteBatch_stamps_callers_slice no_Encrypt (fresh_journal 1024)
           (fst (fst r)) entries (snd (fst r)) [1; 2] H).
Defined.

(** * Framing round trip *)

(** The writer of [j] is open on a file of the storage and has no
    pending error. *)
Definition writable {E} (j : @Journal E) : Prop :=
  exists w h d,
    writer j = Some w /\ file j = Some h /\ h_closed h = false /\
    werr w = None /\ len (wbuf w) <= bufSize /\ storage j !! h_name h = Some d.

(** What the active file holds once the writer is flushed. *)
Definition flushed_view {E} (j : @Journal E) : list byte :=
  match file j, writer j with
  | Some h, Some w => default [] (storage j !! h_name h) ++ wbuf w
  | _, _ => []
  end.

(** C2 (amended).  With no encryptor, for an entry whose canonical body
    fits the 32-bit length field ([16 + len key + len value < 2^32]),
    empty key and empty value included, and any [uint64] sequence number:
    [write] hands the framed body to the writer, and [read] over these
    bytes returns the entry with the same key, value and sequence
    number, and leaves the reader right after the record. *)
Theorem write_read_round_trip (j : @Journal NoEncryptor) (e : Entry)
    (rest : list byte) :
  writable j -> 0 <= Seq e < 2 ^ 64 ->
  16 + len (Key e) + len (Value e) < 2 ^ 32 ->
  exists j',
    write no_Encrypt j e = (j', Ok (len (frame (entry_body e)))) /\
    flushed_view j' = flushed_view j ++ frame (entry_body e) /\
    read no_Decrypt None (frame (entry_body e) ++ rest) = (Ok e, rest).
Proof.
  intros (w & h & d & Hw & Hf & Hc & He & Hb & Hd) Hseq Hfit.
  destruct (write_ok no_Encrypt no_Decrypt 0 no_Encrypt_total no_Decrypt_Encrypt
              no_Encrypt_len ltac:(lia) j e w h d Hw Hf Hc He Hb Hd)
    as (c & enc' & st' & w' & d' & W1 & _ & W3 & _ & _ & _ & W7 & W8 & _).
  destruct enc' as [[]|]. cbn [decrypt_opt] in W3. injection W3 as ->.
  eexists. split; [exact W1|]. split.
  - unfold flushed_view. jsimpl. rewrite Hf, Hw, W7, Hd. cbn [from_option id].
    rewrite W8. now rewrite app_assoc.
  - rewrite read_entry by exact Hfit. rewrite wrap64_small by exact Hseq.
    now destruct e.
Qed.

Lemma writable_fresh_journal maxSz : writable (fresh_journal maxSz).
Proof.
  eexists _, _, []. repeat split; try reflexivity.
  unfold len, bufSize. cbn. lia.
Qed.

Lemma write_read_round_trip_witness :
  let e := mkEntry [] (map byte_of_Z (upto 50000)) 7 in
  writable (fresh_journal 1024) /\ 0 <= Seq e < 2 ^ 64 /\
  16 + len (Key e) + len (Value e) < 2 ^ 32 /\
  exists j',
    write no_Encrypt (fresh_journal 1024) e = (j', Ok (len (frame (entry_body e)))) /\
    flushed_view j' = flushed_view (fresh_journal 1024) ++ frame (entry_body e) /\
    read no_Decrypt None (frame (entry_body e) ++ []) = (Ok e, []).
Proof.
  intros e.
  assert (0 <= Seq e < 2 ^ 64) as H1 by (split; [discriminate | reflexivity]).
  assert (16 + len (Key e) + len (Value e) < 2 ^ 32) as H2 by (vm_compute; reflexivity).
  split; [apply writable_fresh_journal|]. split; [exact H1|]. split; [exact H2|].
  exact (write_read_round_trip (fresh_journal 1024) e []
           (writable_fresh_journal 1024) H1 H2).
Defined.

Lemma read_oversized_key (tail : list byte) :
  len tail = 2 ^ 32 - 4 ->
  let e := mkEntry ([x00; x00; x00; x00] ++ tail) [] 1 in
  fst (read no_Decrypt None (frame (entry_body e))) = Err ErrBadChecksum \/
  fst (read no_Decrypt None (frame (entry_body e))) = Ok (mkEntry [] [] 1).
Proof.
  intros Htail e.
  assert (len (Key e) = 2 ^ 32) as Hkey.
  { unfold e. cbn [Key]. rewrite len_app. change (len [x00; x00; x00; x00]) with 4. lia. }
  set (first16 := binary.PutUint64 1 ++ binary.PutUint32 0 ++ [x00; x00; x00; x00]).
  assert (entry_body e = first16 ++ (tail ++ binary.PutUint32 0)) as Hbody.
  { unfold entry_body. rewrite Hkey. unfold e. cbn [Key Value Seq].
    change (wrap32 (2 ^ 32)) with 0. change (wrap32 (len (@nil byte))) with 0.
    unfold first16. rewrite app_nil_r, <- !app_assoc. reflexivity. }
  assert (wrap32 (len (entry_body e)) = 16) as Hlen.
  { rewrite len_entry_body, Hkey. reflexivity. }
  unfold frame, read. rewrite Hlen.
  rewrite (ReadFull_app (binary.PutUint32 16)) by reflexivity.
  change (binary.Uint32 (binary.PutUint32 16)) with (@Ok Z 16).
  rewrite (ReadFull_app (binary.PutUint32 _)) by reflexivity.
  rewrite Uint32_PutUint32_exact, Hbody.
  rewrite (ReadFull_app first16) by reflexivity.
  destruct (negb _); [left; reflexivity|]. right. reflexivity.
Qed.

(** C2 as stated fails for a key of [2^32] bytes: its length is written
    to the record as 0 and the length of the payload as 16.  [write]
    accepts the entry; [read] over the bytes written answers
    [ErrBadChecksum], or an entry with an empty key. *)
Lemma round_trip_fails_for_4GiB_key :
  let key := [x00; x00; x00; x00] ++ replicate (Z.to_nat (2 ^ 32 - 4)) x00 in
  let e := mkEntry key [] 1 in
  len key = 2 ^ 32 /\
  (exists j',
     write no_Encrypt (fresh_journal 0) e = (j', Ok (len (frame (entry_body e))))) /\
  (fst (read no_Decrypt None (frame (entry_body e))) = Err ErrBadChecksum \/
   fst (read no_Decrypt None (frame (entry_body e))) = Ok (mkEntry [] [] 1)).
Proof.
  intros key e.
  assert (len (replicate (Z.to_nat (2 ^ 32 - 4)) x00) = 2 ^ 32 - 4) as Htail.
  { unfold len. rewrite length_replicate. apply Z2Nat.id. discriminate. }
  split; [|split].
  - unfold key. rewrite len_app, Htail. reflexivity.
  - destruct (writable_fresh_journal 0) as (w & h & d & Hw & Hf & Hc & He & Hb & Hd).
    destruct (write_ok no_Encrypt no_Decrypt 0 no_Encrypt_total no_Decrypt_Encrypt
                no_Encrypt_len ltac:(lia) (fresh_journal 0) e w h d Hw Hf Hc He Hb Hd)
      as (c & enc' & st' & w' & d' & W1 & _ & W3 & _).
    destruct enc' as [[]|]. cbn [decrypt_opt] in W3. injection W3 as ->.
    eexists. exact W1.
  - exact (read_oversized_key _ Htail).
Qed.

End JournalProofs.

(** * The AEAD wrapper *)

Section Decrypt.
Import encrypt.

Lemma slice_prefix {A} (l : list A) n :
  0 <= n <= len l -> slice l 0 n = Ok (take (Z.to_nat n) l).
Proof.
  intros H. unfold slice.
  destruct (Z.leb_spec 0 0); [|lia]. destruct (Z.leb_spec 0 n); [|lia].
  destruct (Z.leb_spec n (len l)); [|lia]. cbn [andb].
  now rewrite Z.sub_0_r, drop_0.
Qed.

Lemma slice_from_drop {A} (l : list A) n :
  0 <= n <= len l -> slice_from l n = Ok (drop (Z.to_nat n) l).
Proof.
  intros H. unfold slice_from.
  destruct (Z.leb_spec 0 n); [|lia]. destruct (Z.leb_spec n (len l)); [|lia].
  reflexivity.
Qed.

(** C4 (amended).  With the sizes of AES-GCM (nonce 12, tag 16):
    [Decrypt] fails with [ErrCiphertextShort] for every input shorter
    than the nonce, 12 bytes; an input of 12 bytes or more is split and
    handed to [Open], and [Decrypt] answers what [Open] answers; as
    [Open] refuses a text shorter than the tag, an input of 12 to 27
    bytes fails with the error of [Open]. *)
Theorem Decrypt_short_input (e : AESGCMEncryptor) (ciphertext : list byte) :
  NonceSize (aead e) = 12 ->
  (forall nonce ct, len ct < 16 -> Open (aead e) nonce ct = None) ->
  (len ciphertext < 12 -> Decrypt e ciphertext = Err ErrCiphertextShort) /\
  (12 <= len ciphertext ->
   Decrypt e ciphertext =
     match Open (aead e) (take 12 ciphertext) (drop 12 ciphertext) with
     | Some plaintext => Ok plaintext
     | None => Err ErrAEADOpen
     end) /\
  (12 <= len ciphertext < 28 -> Decrypt e ciphertext = Err ErrAEADOpen).
Proof.
  intros Hn Hopen. unfold Decrypt. rewrite Hn.
  assert (12 <= len ciphertext ->
          (if len ciphertext <? 12 then Err ErrCiphertextShort
           else let* nonce := slice ciphertext 0 12 in
                let* ct := slice_from ciphertext 12 in
                match Open (aead e) nonce ct with
                | Some plaintext => Ok plaintext
                | None => Err ErrAEADOpen
                end) =
          match Open (aead e) (take 12 ciphertext) (drop 12 ciphertext) with
          | Some plaintext => Ok plaintext
          | None => Err ErrAEADOpen
          end) as Hlong.
  { intros H. destruct (Z.ltb_spec (len ciphertext) 12); [lia|].
    rewrite slice_prefix, slice_from_drop by lia. reflexivity. }
  split; [|split].
  - intros H. destruct (Z.ltb_spec (len ciphertext) 12); [reflexivity | lia].
  - exact Hlong.
  - intros [H1 H2]. rewrite Hlong by exact H1.
    rewrite Hopen; [reflexivity|].
    unfold len in *. rewrite length_drop. lia.
Qed.

Lemma model_gcm_Open_short nonce ct :
  len ct < 16 -> Open model_gcm nonce ct = None.
Proof.
  intros H. cbn [Open model_gcm]. destruct (Z.ltb_spec (len ct) 16); [reflexivity | lia].
Qed.

Lemma Decrypt_short_input_witness :
  let e := {| aead := model_gcm |} in
  let ciphertext := [x73; x68; x6f; x72; x74] in
  NonceSize (aead e) = 12 /\
  (len ciphertext < 12 -> Decrypt e ciphertext = Err ErrCiphertextShort) /\
  (12 <= len ciphertext ->
   Decrypt e ciphertext =
     match Open (aead e) (take 12 ciphertext) (drop 12 ciphertext) with
     | Some plaintext => Ok plaintext
     | None => Err ErrAEADOpen
     end) /\
  (12 <= len ciphertext < 28 -> Decrypt e ciphertext = Err ErrAEADOpen).
Proof.
  intros e ciphertext. split; [reflexivity|].
  exact (Decrypt_short_input e ciphertext eq_refl model_gcm_Open_short).
Defined.

(** C4 as stated fails between the two sizes: twelve bytes pass the
    length check, and the error is the one of [Open]. *)
Lemma Decrypt_twelve_bytes_is_not_short :
  let e := {| aead := model_gcm |} in
  let ciphertext := replicate 12 x00 in
  len ciphertext = 12 /\ NonceSize (aead e) + Overhead (aead e) = 28 /\
  Decrypt e ciphertext = Err ErrAEADOpen.
Proof. cbv zeta. repeat split. Qed.

End Decrypt.

(** * The sink *)

Section SinkProofs.
Import entity sink.
Context {J : Type}.
Variable J_Write : J -> list byte -> list byte -> J * outcome Z.
Variable J_WriteBatch : J -> list journal.Entry -> J * outcome (list Z).
Variable MarshalMsg : Event -> outcome (list byte).
Context {X : Type}.

Abbreviation appendToBuffer' := (appendToBuffer (X:=X) J_Write MarshalMsg).

Lemma appendToBuffer_not_full (s : Sink) (x : X) (h : list Event) (ev : Event) :
  holds (buf s) h -> rb.used (buf s) <> len (rb.buf (buf s)) ->
  exists b,
    appendToBuffer' ev (s, x) = ((mkSink (journal s) b (bufSize s) (closed s), x), Ok tt) /\
    holds b (ev :: h).
Proof.
  intros Hh Hne. unfold appendToBuffer.
  destruct (holds_Add (buf s) h ev Hh) as (b & d & E & Hb & _).
  rewrite E. destruct (Z.eqb_spec (rb.used (buf s)) (len (rb.buf (buf s)))); [contradiction|].
  exists b. split; [reflexivity | exact Hb].
Qed.

Lemma appendToBuffer_full (s : Sink) (x : X) (h : list Event) (ev oldest : Event)
    (j : J) (val : list byte) :
  holds (buf s) h -> rb.used (buf s) = len (rb.buf (buf s)) ->
  journal s = Some j ->
  h !! Z.to_nat (len (rb.buf (buf s)) - 1) = Some oldest ->
  MarshalMsg oldest = Ok val ->
  exists b,
    appendToBuffer' ev (s, x) =
      (let '(j', r) :=
         J_Write j (fmtKey (Sensor oldest) (UnixTimestamp oldest)) val in
       ((mkSink (Some j') b (bufSize s) (closed s), x), let* _ := r in Ok tt)) /\
    holds b (ev :: h).
Proof.
  intros Hh Hfull Hj Hold Hval. unfold appendToBuffer.
  destruct (holds_Add (buf s) h ev Hh) as (b & d & E & Hb & _ & _ & Hd).
  rewrite E. rewrite (proj2 (Z.eqb_eq _ _) Hfull).
  specialize (Hd Hfull). rewrite Hold in Hd. injection Hd as <-.
  rewrite Hval. cbn [journal]. rewrite Hj.
  exists b. split; [reflexivity | exact Hb].
Qed.

(** What [appendToBuffer] does in a sink whose ring buffer, of capacity
    [C = max capacity 1], has taken the events [evs], with the key as
    [fmtKey] builds it. *)
Lemma appendToBuffer_spills (capacity : Z) (evs : list Event)
    (ev : Event) (j : J) (x : X) (isClosed : bool) :
  let C := Z.max capacity 1 in
  exists b b',
    rb.add_all (rb.New entity.zero capacity) evs = Ok b /\
    let s := mkSink (Some j) b capacity isClosed in
    (len evs < C ->
     appendToBuffer' ev (s, x) = ((mkSink (Some j) b' capacity isClosed, x), Ok tt)) /\
    (C <= len evs ->
     forall oldest val,
       last (take (Z.to_nat C) (rev evs)) = Some oldest ->
       MarshalMsg oldest = Ok val ->
       appendToBuffer' ev (s, x) =
         (let '(j', r) :=
            J_Write j (fmtKey (Sensor oldest) (UnixTimestamp oldest)) val in
          ((mkSink (Some j') b' capacity isClosed, x), let* _ := r in Ok tt))) /\
    (forall (x0 : X) val1,
       let ev1 := mkEvent "" "temp" 1 1000 in
       let ev2 := mkEvent "" "temp" 2 2000 in
       let ev3 := mkEvent "" "temp" 3 3000 in
       MarshalMsg ev1 = Ok val1 ->
       journal (fst (append_all Recorder_Write MarshalMsg [] [ev1; ev2; ev3]
                       (New (Some []) (Some 2), x0))) =
         Some [(list_byte_of_string "sensor_temp{ts=1000}", val1)]).
Proof.
  intros C.
  destruct (add_all_holds evs _ _ (holds_New entity.zero capacity))
    as (b & E & H & HC).
  rewrite app_nil_r in H. rewrite len_New in HC. fold C in HC.
  assert (len (rev evs) = len evs) as Hrev by (unfold len; now rewrite length_rev).
  pose proof H as (_ & Hu & _). rewrite HC, Hrev in Hu.
  set (s := mkSink (Some j) b capacity isClosed).
  destruct (holds_Add b (rev evs) ev H) as (b' & d & EA & _ & _ & _ & Hd).
  exists b, b'. split; [exact E|]. cbv zeta. fold s. split; [|split].
  - intros Hlt. unfold appendToBuffer. cbn [s buf]. rewrite EA.
    destruct (Z.eqb_spec (rb.used b) (len (rb.buf b))); [lia | reflexivity].
  - intros Hge oldest val Hlast Hval.
    assert (rb.used b = len (rb.buf b)) as Hfull by (rewrite HC; lia).
    specialize (Hd Hfull).
    rewrite last_lookup, length_take in Hlast.
    assert ((Z.to_nat C `min` length (rev evs))%nat = Z.to_nat C) as Hmin
      by (unfold len in *; lia).
    rewrite Hmin in Hlast. rewrite lookup_take_lt in Hlast by lia.
    rewrite HC in Hd.
    replace (Z.to_nat (C - 1)) with (Init.Nat.pred (Z.to_nat C)) in Hd by lia.
    rewrite Hlast in Hd. injection Hd as <-.
    unfold appendToBuffer. cbn [s buf journal]. rewrite EA.
    rewrite (proj2 (Z.eqb_eq _ _) Hfull), Hval. cbn [journal]. reflexivity.
  - intros x0 val1 Hval.
    vm_compute. vm_compute in Hval. rewrite Hval. reflexivity.
Qed.

End SinkProofs.

(** * The key of a spilled event *)

Section DecimalNumeral.
Import fmt.

(** The decimal numeral of an integer, as the specification words it: a minus
    sign for a negative number, then the digits of its absolute value,
    most significant first, with no leading zero. *)
Definition decimal_numeral (i : Z) (s : string) : Prop :=
  exists ds : string,
    s = (if i <? 0 then String "-" ds else ds) /\
    all_digits ds = true /\ parse_digits ds 0 = Z.abs i /\
    (ds = "0"%string \/ exists c ds', ds = String c ds' /\ c <> "0"%char).

Lemma digit_char_nonzero (d : Z) : 1 <= d <= 9 -> digit_char d <> "0"%char.
Proof.
  intros H.
  assert (d = 1 \/ d = 2 \/ d = 3 \/ d = 4 \/ d = 5 \/ d = 6 \/ d = 7 \/ d = 8 \/ d = 9)
    as Hd by lia.
  repeat (destruct Hd as [->|Hd]; [discriminate|]). subst d. discriminate.
Qed.

Lemma digits_aux_head (fuel : nat) :
  forall (n : Z) (acc : string), 0 < n < 10 ^ Z.of_nat fuel ->
  exists c s, digits_aux fuel n acc = String c s /\ c <> "0"%char.
Proof.
  induction fuel as [|f IH]; intros n acc Hn.
  - cbn in Hn. lia.
  - cbn [digits_aux].
    replace (Z.of_nat (S f)) with (Z.succ (Z.of_nat f)) in Hn by lia.
    rewrite Z.pow_succ_r in Hn by lia.
    pose proof (Z.div_mod n 10 ltac:(lia)) as En.
    pose proof (Z.mod_pos_bound n 10 ltac:(lia)) as Hm.
    destruct (Z.eqb_spec (n / 10) 0) as [E|E].
    + eexists _, _. split; [reflexivity|]. apply digit_char_nonzero. lia.
    + apply IH. split.
      * assert (0 <= n / 10) by (apply Z.div_pos; lia). lia.
      * apply Z.div_lt_upper_bound; lia.
Qed.

Lemma FormatUint_decimal (n : Z) :
  0 <= n < 10 ^ 20 ->
  all_digits (FormatUint n) = true /\ parse_digits (FormatUint n) 0 = n /\
  (FormatUint n = "0"%string \/
   exists c ds', FormatUint n = String c ds' /\ c <> "0"%char).
Proof.
  intros Hn. split; [unfold FormatUint; now apply all_digits_digits_aux|]. split.
  - unfold FormatUint.
    now rewrite parse_digits_digits_aux by (change (Z.of_nat 20) with 20; lia).
  - destruct (Z.eq_dec n 0) as [->|Ne]; [now left|]. right.
    apply digits_aux_head. change (Z.of_nat 20) with 20. lia.
Qed.

(** [strconv.FormatInt(i, 10)] is the decimal numeral of an [int64]. *)
Lemma FormatInt_decimal (i : Z) :
  - 2 ^ 63 <= i < 2 ^ 63 -> decimal_numeral i (FormatInt i).
Proof.
  intros Hi. unfold decimal_numeral, FormatInt.
  destruct (Z.ltb_spec i 0) as [Hneg|Hpos].
  - exists (FormatUint (- i)). split; [reflexivity|].
    replace (Z.abs i) with (- i) by lia. apply FormatUint_decimal. lia.
  - exists (FormatUint i). split; [reflexivity|].
    replace (Z.abs i) with i by lia. apply FormatUint_decimal. lia.
Qed.

End DecimalNumeral.

Section SinkKeyFormat.
Import entity sink.
Context {J : Type}.
Variable J_Write : J -> list byte -> list byte -> J * outcome Z.
Variable MarshalMsg : Event -> outcome (list byte).
Context {X : Type}.

(** C6.  In a sink whose ring buffer, of capacity [C = max capacity 1],
    has taken the events [evs]: while fewer than [C] events are buffered
    [appendToBuffer] leaves the journal alone; once the buffer is full it
    makes exactly one call of [journal.Write].  The key of that call is
    the text [sensor_], the sensor name of the evicted event (the oldest
    one buffered), the text [{ts=], the decimal numeral of its timestamp
    and the text [}]; the value is the evicted event serialized; the
    result of [appendToBuffer] is the result of the call.  With capacity
    2 and [Append] of events 1, 2, 3 the recording journal holds one
    call, with key [sensor_temp{ts=1000}] and event 1. *)
Theorem appendToBuffer_spills_evicted_event (capacity : Z) (evs : list Event)
    (ev : Event) (j : J) (x : X) (isClosed : bool) :
  let C := Z.max capacity 1 in
  exists b b',
    rb.add_all (rb.New entity.zero capacity) evs = Ok b /\
    let s := mkSink (Some j) b capacity isClosed in
    (len evs < C ->
     appendToBuffer J_Write MarshalMsg ev (s, x) =
       ((mkSink (Some j) b' capacity isClosed, x), Ok tt)) /\
    (C <= len evs ->
     forall oldest val,
       last (take (Z.to_nat C) (rev evs)) = Some oldest ->
       MarshalMsg oldest = Ok val ->
       exists ts : string,
         (- 2 ^ 63 <= UnixTimestamp oldest < 2 ^ 63 ->
          decimal_numeral (UnixTimestamp oldest) ts) /\
         appendToBuffer J_Write MarshalMsg ev (s, x) =
           (let '(j', r) :=
              J_Write j
                (list_byte_of_string
                   ("sensor_" +:+ Sensor oldest +:+ "{ts=" +:+ ts +:+ "}")) val in
            ((mkSink (Some j') b' capacity isClosed, x), let* _ := r in Ok tt))) /\
    (forall (x0 : X) val1,
       let ev1 := mkEvent "" "temp" 1 1000 in
       let ev2 := mkEvent "" "temp" 2 2000 in
       let ev3 := mkEvent "" "temp" 3 3000 in
       MarshalMsg ev1 = Ok val1 ->
       journal (fst (append_all Recorder_Write MarshalMsg [] [ev1; ev2; ev3]
                       (New (Some []) (Some 2), x0))) =
         Some [(list_byte_of_string "sensor_temp{ts=1000}", val1)]).
Proof.
  intros C.
  destruct (appendToBuffer_spills J_Write MarshalMsg capacity evs ev j x isClosed)
    as (b & b' & E & Hlt & Hge & Hex).
  exists b, b'. split; [exact E|]. cbv zeta. split; [exact Hlt|]. split; [|exact Hex].
  intros HC oldest val Hlast Hval.
  exists (fmt.FormatInt (UnixTimestamp oldest)). split.
  - apply FormatInt_decimal.
  - exact (Hge HC oldest val Hlast Hval).
Qed.

End SinkKeyFormat.

(** * The deduplicator *)

Section DedupProofs.
Import entity sink.
(** The chain after the deduplicator runs on a state [S] of its own. *)
Context {S : Type}.
Variable next : Handler S.

Definition lift_next : Handler (Deduplicator * S) :=
  fun ev w => let '(s', r) := next ev (snd w) in ((fst w, s'), r).

Definition dedup : Handler (Deduplicator * S) :=
  dedup_Middleware fst (fun d w => (d, snd w)) lift_next.

Definition keys (evs : list Event) : list string := map IdempotencyID evs.

(** The keys stored after [evs]: the non-empty ones. *)
Definition tracks (d : Deduplicator) (evs : list Event) : Prop :=
  forall k, k ∈ m d <-> k <> "" /\ In k (keys evs).

Lemma eqb_empty_spec (k : string) : (String.eqb k "" = true) <-> k = "".
Proof. apply String.eqb_eq. Qed.

Lemma dedup_step (ev : Event) (w : Deduplicator * S) (pre : list Event) :
  tracks (fst w) pre ->
  exists d',
    tracks d' (pre ++ [ev]) /\
    (IdempotencyID ev = "" -> d' = fst w /\ dedup ev w = lift_next ev w) /\
    (IdempotencyID ev <> "" -> ~ In (IdempotencyID ev) (keys pre) ->
     dedup ev w = lift_next ev (d', snd w)) /\
    (IdempotencyID ev <> "" -> In (IdempotencyID ev) (keys pre) ->
     d' = fst w /\ dedup ev w = (w, Err ErrDuplicate)) /\
    fst (fst (dedup ev w)) = d'.
Proof.
  intros Ht. unfold dedup, dedup_Middleware.
  destruct (String.eqb (IdempotencyID ev) "") eqn:Ee.
  - apply String.eqb_eq in Ee. exists (fst w). split; [|split; [|split; [|split]]].
    + intros k. rewrite (Ht k). unfold keys. rewrite map_app, in_app_iff.
      cbn [map In]. rewrite Ee. intuition congruence.
    + auto.
    + intros Hne. contradiction.
    + intros Hne. contradiction.
    + unfold lift_next. now destruct (next ev (snd w)).
  - apply String.eqb_neq in Ee.
    destruct (bool_decide (IdempotencyID ev ∈ m (fst w))) eqn:Eb.
    + apply bool_decide_eq_true in Eb. apply Ht in Eb as [_ Hin].
      exists (fst w). split; [|split; [|split; [|split]]].
      * intros k. rewrite (Ht k). unfold keys. rewrite map_app, in_app_iff.
        cbn [map In]. split; [intuition|].
        intros [Hk [H|[<-|[]]]]; split; assumption.
      * intros He. contradiction.
      * intros _ Hnin. contradiction.
      * auto.
      * reflexivity.
    + apply bool_decide_eq_false in Eb.
      exists {| m := {[IdempotencyID ev]} ∪ m (fst w);
                count := wrap64 (count (fst w) + 1) |}.
      split; [|split; [|split; [|split]]].
      * intros k. cbn [m]. rewrite elem_of_union, elem_of_singleton, (Ht k).
        unfold keys. rewrite map_app, in_app_iff. cbn [map In].
        split.
        -- intros [->|[Hk H]]; split; auto.
        -- intros [Hk [H|[<-|[]]]]; auto.
      * intros He. contradiction.
      * intros _ _. reflexivity.
      * intros _ Hin. exfalso. apply Eb. apply Ht. split; assumption.
      * cbn [snd]. unfold lift_next. cbn [snd fst].
        now destruct (next ev (snd w)).
Qed.

Lemma run_dedup_tracks (evs : list Event) :
  forall (pre : list Event) (w : Deduplicator * S),
  tracks (fst w) pre ->
  tracks (fst (fst (run_handler dedup evs w))) (pre ++ evs).
Proof.
  induction evs as [|ev evs IH]; intros pre w Ht.
  - cbn [run_handler fst]. now rewrite app_nil_r.
  - cbn [run_handler].
    destruct (dedup_step ev w pre Ht) as (d' & Ht' & _ & _ & _ & Hd).
    destruct (dedup ev w) as [w1 r] eqn:E1. cbn [fst] in Hd.
    specialize (IH (pre ++ [ev]) w1). rewrite Hd in IH. specialize (IH Ht').
    destruct (run_handler dedup evs w1) as [w2 rs]. cbn [fst] in *.
    now rewrite <- app_assoc in IH.
Qed.

Lemma tracks_new : tracks NewDeduplicator [].
Proof.
  intros k. cbn [m NewDeduplicator keys map In]. split.
  - intros H. now apply not_elem_of_empty in H.
  - intros [_ []].
Qed.

End DedupProofs.

(** C7.  Between sweeps, after any events [pre] handled by a new
    deduplicator: an event with an empty idempotency key is handed to the
    next handler; one with a key that no event of [pre] bears is handed to
    the next handler, on the state the next handler had; one with a key
    that an event of [pre] bears fails with [ErrDuplicate] and changes
    nothing.  For events with keys a, b, a, a, c the terminal handler
    receives the first, the second and the fifth. *)
Theorem dedup_first_key_wins {S : Type} (next : sink.Handler S)
    (pre : list entity.Event) (ev : entity.Event) (s0 : S) :
  let w := fst (sink.run_handler (dedup next) pre (sink.NewDeduplicator, s0)) in
  let key := entity.IdempotencyID ev in
  (key = ""%string -> dedup next ev w = lift_next next ev w) /\
  (key <> ""%string -> ~ In key (keys pre) ->
   exists d', dedup next ev w = lift_next next ev (d', snd w)) /\
  (key <> ""%string -> In key (keys pre) ->
   dedup next ev w = (w, Err ErrDuplicate)) /\
  (let e := fun k v => entity.mkEvent k "temp" v 0 in
   snd (fst (sink.run_handler
               (sink.dedup_Middleware fst (fun d w => (d, snd w))
                  sink.recording_handler)
               [e "a" 1; e "b" 2; e "a" 3; e "a" 4; e "c" 5]
               (sink.NewDeduplicator, [])))
   = [e "a" 1; e "b" 2; e "c" 5])%string.
Proof.
  intros w key.
  pose proof (run_dedup_tracks next pre [] (sink.NewDeduplicator, s0) (tracks_new)) as Ht.
  cbn [app] in Ht. fold w in Ht.
  destruct (dedup_step next ev w pre Ht) as (d' & _ & H1 & H2 & H3 & _).
  split; [|split; [|split]].
  - intros Hk. now apply H1.
  - intros Hk Hnin. exists d'. now apply H2.
  - intros Hk Hin. now apply H3.
  - vm_compute. reflexivity.
Qed.

(** * The journal with the AES-GCM encryptor *)

Section EncryptedJournal.
Import journal encrypt.

(** What [cipher.AEAD] promises: a sealed text is [Overhead] bytes longer
    than the plain one, and [Open] under the same nonce returns the
    plain text. *)
Definition lawful (a : AEAD) : Prop :=
  0 <= NonceSize a /\ 0 <= Overhead a /\
  (forall nonce p, len (Seal a nonce p) = len p + Overhead a) /\
  (forall nonce p, Open a nonce (Seal a nonce p) = Some p).

Lemma len_rand_Read (ent : Entropy) (n : Z) :
  0 <= n -> len (fst (rand_Read ent n)) = n.
Proof.
  intros H. unfold rand_Read, len. cbn [fst].
  rewrite length_map, length_seq. lia.
Qed.

Lemma Decrypt_app (e : AESGCMEncryptor) (nonce ct : list byte) :
  len nonce = NonceSize (aead e) ->
  Decrypt e (nonce ++ ct) =
    match Open (aead e) nonce ct with
    | Some p => Ok p
    | None => Err ErrAEADOpen
    end.
Proof.
  intros Hn. unfold Decrypt. rewrite <- Hn.
  assert (len (nonce ++ ct) = len nonce + len ct) as Hl
    by (unfold len; rewrite length_app; lia).
  assert (0 <= len ct) as Hc by (unfold len; lia).
  assert (0 <= len nonce) as Hn0 by (unfold len; lia).
  destruct (Z.ltb_spec (len (nonce ++ ct)) (len nonce)); [lia|].
  unfold slice, slice_from.
  destruct (Z.leb_spec 0 0); [|lia].
  destruct (Z.leb_spec 0 (len nonce)); [|lia].
  destruct (Z.leb_spec (len nonce) (len (nonce ++ ct))); [|lia].
  cbn [andb bind]. rewrite Z.sub_0_r.
  change (Z.to_nat 0) with 0%nat. rewrite drop_0.
  assert (Z.to_nat (len nonce) = length nonce) as -> by (unfold len; lia).
  rewrite take_app_length, drop_app_length. reflexivity.
Qed.

Variable e : AESGCMEncryptor.
Hypothesis aead_lawful : lawful (aead e).

Lemma aes_Encrypt_total (ent : Entropy) (p : list byte) :
  exists ent' c, aes_Encrypt e ent p = (ent', Ok c).
Proof.
  unfold aes_Encrypt, Encrypt.
  destruct (rand_Read ent (NonceSize (aead e))) as [nonce ent']. eauto.
Qed.

Lemma aes_Decrypt_Encrypt (ent : Entropy) (p : list byte) ent' c :
  aes_Encrypt e ent p = (ent', Ok c) -> aes_Decrypt e ent' c = Ok p.
Proof.
  destruct aead_lawful as (Hn & _ & _ & Hopen).
  unfold aes_Encrypt, aes_Decrypt, Encrypt.
  pose proof (len_rand_Read ent _ Hn) as Hlen.
  destruct (rand_Read ent (NonceSize (aead e))) as [nonce ent1].
  cbn [fst] in Hlen. intros [= <- <-].
  rewrite Decrypt_app by exact Hlen. now rewrite Hopen.
Qed.

Lemma aes_Decrypt_stable (ent : Entropy) (p : list byte) ent'
    (r : outcome (list byte)) c :
  aes_Encrypt e ent p = (ent', r) -> aes_Decrypt e ent' c = aes_Decrypt e ent c.
Proof. reflexivity. Qed.

Lemma aes_Encrypt_len (ent : Entropy) (p : list byte) ent' c :
  aes_Encrypt e ent p = (ent', Ok c) ->
  len c <= len p + (NonceSize (aead e) + Overhead (aead e)).
Proof.
  destruct aead_lawful as (Hn & _ & Hseal & _).
  unfold aes_Encrypt, Encrypt.
  pose proof (len_rand_Read ent _ Hn) as Hlen.
  destruct (rand_Read ent (NonceSize (aead e))) as [nonce ent1].
  cbn [fst] in Hlen. intros [= <- <-].
  unfold len in *. rewrite length_app. specialize (Hseal nonce p). lia.
Qed.

(** X1.  Encryption round trip: what [Encrypt] returns, [Decrypt] opens to
    the plain text, for a lawful AEAD and any supply of random bytes. *)
Theorem Decrypt_Encrypt_round_trip (ent : Entropy) (plaintext : list byte) :
  exists ent' c,
    Encrypt e ent plaintext = (ent', Ok c) /\
    len c = NonceSize (aead e) + len plaintext + Overhead (aead e) /\
    Decrypt e c = Ok plaintext.
Proof.
  destruct (aes_Encrypt_total ent plaintext) as (ent' & c & E).
  exists ent', c. split; [exact E|]. split.
  - destruct aead_lawful as (Hn & _ & Hseal & _).
    unfold aes_Encrypt, Encrypt in E.
    pose proof (len_rand_Read ent _ Hn) as Hlen.
    destruct (rand_Read ent (NonceSize (aead e))) as [nonce ent1].
    cbn [fst] in Hlen. injection E as <- <-.
    unfold len in *. rewrite length_app. specialize (Hseal nonce plaintext). lia.
  - exact (aes_Decrypt_Encrypt ent plaintext ent' c E).
Qed.

(** X2.  With the encryptor configured, the sequence numbers of a history are
    1, 2, ..., N as well, and a reopening continues after the greatest
    number its scan decrypted. *)
Theorem encrypted_sequence_numbers_contiguous (maxSz : Z) (ent : Entropy)
    (ops : list op) :
  Z.of_nat (total_entries ops) + 1 <= 2 ^ 63 - 1 ->
  Forall (op_fits (NonceSize (aead e) + Overhead (aead e))) ops ->
  exists j0 j tr,
    New (aes_Decrypt e) ∅ maxSz (Some ent) = Ok j0 /\
    run (aes_Encrypt e) (aes_Decrypt e) j0 ops = Ok (j, tr) /\
    issued tr = map Z.of_nat (List.seq 1 (total_entries ops)) /\
    (forall pre m post s,
       tr = pre ++ Scanned m :: post -> head (issued post) = Some s -> s = m + 1).
Proof.
  intros Hmax Hfits.
  assert (0 <= NonceSize (aead e) + Overhead (aead e)) as Hov
    by (destruct aead_lawful as (? & ? & _); lia).
  destruct (New_empty (aes_Decrypt e) (Some ent) maxSz) as (j0 & E0 & Hinv0 & Hseq0 & _).
  destruct (run_expected (aes_Encrypt e) (aes_Decrypt e) _
              aes_Encrypt_total aes_Decrypt_Encrypt aes_Decrypt_stable
              aes_Encrypt_len Hov ops j0 0 Hinv0 Hseq0 ltac:(lia) ltac:(lia) Hfits)
    as (j & E).
  exists j0, j, (expected ops 0). split; [exact E0|]. split; [exact E|]. split.
  - rewrite issued_expected, count_from_seq. apply map_ext. intros i. lia.
  - intros pre m post s Hsplit Hhead.
    apply expected_after_scan in Hsplit as (k & Hk). rewrite Hk in Hhead.
    destruct k as [|k]; cbn [count_from head] in Hhead; congruence.
Qed.

End EncryptedJournal.

Section ModelAEAD.
Import journal encrypt.

Lemma list_byte_eqb_refl (a : list byte) : list_byte_eqb a a = true.
Proof.
  induction a as [|x a IH]; [reflexivity|].
  cbn [list_byte_eqb]. rewrite IH, andb_true_r. now apply Byte.byte_dec_lb.
Qed.

Lemma len_model_tag (nonce text : list byte) : len (model_tag nonce text) = 16.
Proof.
  unfold model_tag, len. rewrite !length_app, !length_PutUint32. reflexivity.
Qed.

Lemma model_gcm_lawful : lawful model_gcm.
Proof.
  split; [cbn; lia|]. split; [cbn; lia|]. split.
  - intros nonce p. cbn [Seal Overhead model_gcm].
    rewrite len_app, len_model_tag. reflexivity.
  - intros nonce p. cbn [Seal Open model_gcm].
    rewrite len_app, len_model_tag.
    pose proof (len_nonneg p) as Hp.
    destruct (Z.ltb_spec (len p + 16) 16); [lia|].
    replace (Z.to_nat (len p + 16 - 16)) with (length p) by (unfold len; lia).
    rewrite take_app_length, drop_app_length, list_byte_eqb_refl. reflexivity.
Qed.

End ModelAEAD.

Lemma Decrypt_Encrypt_round_trip_witness :
  let e := encrypt.mkAESGCMEncryptor encrypt.model_gcm in
  lawful (encrypt.aead e) /\
  exists ent' c,
    encrypt.Encrypt e (fun _ => x2a) [x68; x69] = (ent', Ok c) /\
    len c = encrypt.NonceSize (encrypt.aead e) + len [x68; x69]
            + encrypt.Overhead (encrypt.aead e) /\
    encrypt.Decrypt e c = Ok [x68; x69].
Proof.
  intros e. split; [exact model_gcm_lawful|].
  exact (Decrypt_Encrypt_round_trip e model_gcm_lawful (fun _ => x2a) [x68; x69]).
Defined.

Lemma encrypted_sequence_numbers_contiguous_witness :
  let e := encrypt.mkAESGCMEncryptor encrypt.model_gcm in
  let ops :=
    [journal.OpWrite [x6b] [x76];
     journal.OpReopen 64;
     journal.OpWriteBatch [journal.mkEntry [x61] [] 0; journal.mkEntry [] [x62] 0]] in
  lawful (encrypt.aead e) /\
  Z.of_nat (total_entries ops) + 1 <= 2 ^ 63 - 1 /\
  Forall (op_fits (encrypt.NonceSize (encrypt.aead e)
                   + encrypt.Overhead (encrypt.aead e))) ops /\
  exists j0 j tr,
    journal.New (journal.aes_Decrypt e) ∅ 64 (Some (fun _ => x2a)) = Ok j0 /\
    journal.run (journal.aes_Encrypt e) (journal.aes_Decrypt e) j0 ops = Ok (j, tr) /\
    journal.issued tr = map Z.of_nat (List.seq 1 (total_entries ops)) /\
    (forall pre m post s,
       tr = pre ++ journal.Scanned m :: post ->
       head (journal.issued post) = Some s -> s = m + 1).
Proof.
  intros e ops.
  assert (Z.of_nat (total_entries ops) + 1 <= 2 ^ 63 - 1) as H1
    by (vm_compute; discriminate).
  assert (Forall (op_fits (encrypt.NonceSize (encrypt.aead e)
                           + encrypt.Overhead (encrypt.aead e))) ops) as H2.
  { repeat constructor; vm_compute; reflexivity. }
  split; [exact model_gcm_lawful|]. split; [exact H1|]. split; [exact H2|].
  exact (encrypted_sequence_numbers_contiguous e model_gcm_lawful 64
           (fun _ => x2a) ops H1 H2).
Defined.

(** X3.  The startup scan over a segment that holds one record of length 0
    with the CRC of the empty payload: [New] panics. *)
Theorem New_panics_on_empty_record :
  journal.New journal.no_Decrypt
    {[ "000001.wal"%string := [x00; x00; x00; x00; x00; x00; x00; x00] ]} 0 None
  = Panic.
Proof. vm_compute. reflexivity. Qed.

(** * Iteration over the ring buffer *)

Section RingBufferIteration.
Context {T : Type} (zero : T).
Import rb.

(** The values a consumer sees that stops at the first value it answers
    [false] to. *)
Fixpoint until_false (yield : T -> bool) (l : list T) : list T :=
  match l with
  | [] => []
  | x :: l' => if yield x then x :: until_false yield l' else [x]
  end.

Lemma All_loop_yield (r : RingBuffer) (h : list T) (yield : T -> bool) :
  holds r h ->
  forall n k, (k + n <= Z.to_nat (used r))%nat ->
    All_loop r yield (map Z.of_nat (List.seq k n)) =
      Ok (until_false yield (take n (drop k h))).
Proof.
  intros (HC & Hu & Hp & Hl).
  set (C := len (buf r)) in *.
  assert (0 <= pos r < C) as Hpos by (rewrite Hp; apply Z.mod_pos_bound; lia).
  induction n as [|n IH]; intros k Hk; [reflexivity|].
  cbn [List.seq map All_loop]. fold C.
  destruct (Z.eqb_spec C 0); [lia|].
  assert (0 <= Z.of_nat k < used r) as Hj by lia.
  assert (0 <= len h) by (unfold len; lia).
  rewrite Z.rem_mod_nonneg by lia.
  replace (pos r - 1 - Z.of_nat k + C) with (pos r - 1 - Z.of_nat k + 1 * C) by lia.
  rewrite Z.mod_add by lia.
  specialize (Hl _ Hj). rewrite Nat2Z.id in Hl.
  destruct (lookup_lt_is_Some_2 h k) as [x Hx]; [unfold len in *; lia|].
  rewrite Hx in Hl.
  rewrite (index_lookup _ _ _ (proj1 (Z.mod_pos_bound _ C ltac:(lia))) Hl).
  cbn [bind]. rewrite (drop_S _ _ _ Hx). cbn [take until_false].
  destruct (yield x); [|reflexivity].
  rewrite IH by lia. reflexivity.
Qed.

(** X4.  A consumer of [All] that breaks out of the loop: after any
    values [vs] added to a new buffer, [All] hands over the buffered
    values newest first (the last [max capacity 1] of [vs]) up to and
    including the first one the consumer answers [false] to, and no
    value after it. *)
Theorem All_stops_at_first_false (capacity : Z) (vs : list T) (yield : T -> bool) :
  exists r,
    add_all (New zero capacity) vs = Ok r /\
    All r yield =
      Ok (until_false yield (take (Z.to_nat (Z.max capacity 1)) (rev vs))).
Proof.
  destruct (add_all_holds vs _ _ (holds_New zero capacity)) as (r & E & H & HC).
  rewrite app_nil_r in H. rewrite len_New in HC.
  exists r. split; [exact E|].
  unfold All, upto.
  rewrite (All_loop_yield r (rev vs) yield H) by lia. rewrite drop_0.
  destruct H as (_ & Hu & _). rewrite Hu, HC. do 2 f_equal.
  destruct (Z.le_ge_cases (len (rev vs)) (Z.max capacity 1)).
  - rewrite Z.min_l by lia. rewrite !take_ge; [reflexivity| |]; unfold len in *; lia.
  - rewrite Z.min_r by lia. reflexivity.
Qed.

End RingBufferIteration.

(** * The sink: what is buffered, what is spilled, what is flushed *)

Lemma lookup_rev {A} (l : list A) (i : nat) :
  (i < length l)%nat -> rev l !! i = l !! (length l - S i)%nat.
Proof.
  intros H. rewrite rev_alt. change (rev_append l []) with (reverse l).
  now apply reverse_lookup.
Qed.

Section SinkBuffer.
Import entity sink.
Context {J : Type}.
Variable J_Write : J -> list byte -> list byte -> J * outcome Z.
Variable J_WriteBatch : J -> list journal.Entry -> J * outcome (list Z).
Variable MarshalMsg : Event -> outcome (list byte).
Context {X : Type}.
(** [MarshalMsg] of the generated code never fails: [marshal] is what it
    returns. *)
Variable marshal : Event -> list byte.
Hypothesis MarshalMsg_ok : forall ev, MarshalMsg ev = Ok (marshal ev).

(** The record [appendToBuffer] writes for an evicted event, and the
    entry [flush] builds for a buffered one. *)
Definition spilled (ev : Event) : list byte * list byte :=
  (fmtKey (Sensor ev) (UnixTimestamp ev), marshal ev).

Definition batch_entry (ev : Event) : journal.Entry :=
  journal.mkEntry (fmtKey (Sensor ev) (UnixTimestamp ev)) (marshal ev) 0.

Lemma make_batch_ok (evs : list Event) :
  make_batch MarshalMsg evs = Ok (map batch_entry evs).
Proof.
  induction evs as [|ev evs IH]; [reflexivity|].
  cbn [make_batch map]. rewrite MarshalMsg_ok, IH. reflexivity.
Qed.

Lemma append_all_snoc (J_W : J -> list byte -> list byte -> J * outcome Z)
    mws (evs : list Event) (ev : Event) (w : Sink (J:=J) * X) :
  append_all J_W MarshalMsg mws (evs ++ [ev]) w =
    fst (Append J_W MarshalMsg mws ev (append_all J_W MarshalMsg mws evs w)).
Proof.
  revert w. induction evs as [|e evs IH]; intros w; [reflexivity|].
  cbn [app append_all]. apply IH.
Qed.

(** [flush] of a sink whose buffer holds [h], newest first. *)
Lemma flush_holds (s : Sink) (h : list Event) (j : J) :
  journal s = Some j -> holds (buf s) h ->
  flush J_WriteBatch MarshalMsg s =
    (let '(j', r) :=
       J_WriteBatch j (map batch_entry (take (Z.to_nat (len (rb.buf (buf s)))) h)) in
     (mkSink (Some j') (buf s) (bufSize s) (closed s), let* _ := r in Ok tt)).
Proof.
  intros Hj Hh. unfold flush. rewrite Hj.
  rewrite (collect_holds _ _ Hh). cbn [bind]. rewrite make_batch_ok. reflexivity.
Qed.

End SinkBuffer.

(** The journal of these statements records the batches it is given. *)
Abbreviation BatchLog := (list (list journal.Entry)).

Definition BatchLog_WriteBatch (j : BatchLog) (entries : list journal.Entry)
  : BatchLog * outcome (list Z) :=
  (j ++ [entries], Ok (map (fun i => len (concat j) + Z.of_nat i + 1)
                           (List.seq 0 (length entries)))).

Section SinkTheorems.
Import entity sink.
Variable MarshalMsg : Event -> outcome (list byte).
Context {X : Type}.
Variable marshal : Event -> list byte.
Hypothesis MarshalMsg_ok : forall ev, MarshalMsg ev = Ok (marshal ev).

(** X5.  No accepted event is lost before a flush: after [Append] of
    the events [evs] on a new sink of capacity [C = max capacity 1] with
    no middleware, the journal has been given, by [Write], one record for
    each of the first [len evs - C] events, in the order of arrival, and
    the buffer holds the last [C] events. *)
Theorem Append_spills_oldest_keeps_newest (capacity : Z) (evs : list Event) (x : X) :
  let C := Z.to_nat (Z.max capacity 1) in
  let w := append_all Recorder_Write MarshalMsg [] evs
             (New (Some []) (Some capacity), x) in
  journal (fst w) = Some (map (spilled marshal) (take (length evs - C) evs)) /\
  rb.collect (buf (fst w)) = Ok (take C (rev evs)) /\
  closed (fst w) = false /\ snd w = x.
Proof.
  intros C w.
  assert (journal (fst w) = Some (map (spilled marshal) (take (length evs - C) evs)) /\
          holds (buf (fst w)) (rev evs) /\
          len (rb.buf (buf (fst w))) = Z.max capacity 1 /\
          closed (fst w) = false /\ snd w = x) as (H1 & H2 & H3 & H4 & H5).
  { subst w. induction evs as [|ev evs IH] using rev_ind.
    - cbn [append_all fst snd New journal buf closed from_option id].
      split; [reflexivity|]. split; [apply holds_New|].
      split; [apply len_New|]. split; reflexivity.
    - rewrite append_all_snoc.
      destruct (append_all Recorder_Write MarshalMsg [] evs
                  (New (Some []) (Some capacity), x)) as [s x'].
      cbn [fst snd] in IH. destruct IH as (Hj & Hh & HC & Hc & ->).
      unfold Append. cbn [fst]. rewrite Hc, Hj. cbn [buildChain foldr].
      rewrite rev_app_distr. cbn [rev app].
      rewrite length_app. cbn [length].
      pose proof Hh as (_ & Hu & _). rewrite HC in Hu.
      assert (len (rev evs) = Z.of_nat (length evs)) as Hrev
        by (unfold len; now rewrite length_rev).
      rewrite Hrev in Hu.
      destruct (holds_Add (buf s) (rev evs) ev Hh) as (b & d & EA & Hb & HCb & _ & Hd).
      unfold appendToBuffer. rewrite EA.
      destruct (Z.eqb_spec (rb.used (buf s)) (len (rb.buf (buf s)))) as [Hfull|Hne].
      + assert (C <= length evs)%nat as Hge by (subst C; lia).
        specialize (Hd Hfull).
        rewrite lookup_rev in Hd by (subst C; lia).
        replace (length evs - S (Z.to_nat (len (rb.buf (buf s)) - 1)))%nat
          with (length evs - C)%nat in Hd by (subst C; lia).
        rewrite MarshalMsg_ok. cbn [journal]. rewrite Hj.
        cbn [Recorder_Write fst snd journal buf closed bind].
        split.
        * f_equal. rewrite take_app_le by lia.
          replace (length evs + 1 - C)%nat with (S (length evs - C)) by lia.
          rewrite (take_S_r _ _ _ Hd), map_app. reflexivity.
        * split; [exact Hb|]. split; [congruence|]. split; [exact Hc | reflexivity].
      + cbn [fst snd journal buf closed].
        assert (length evs < C)%nat as Hlt by (subst C; lia).
        split.
        * rewrite Hj. f_equal.
          replace (length evs + 1 - C)%nat with 0%nat by lia.
          replace (length evs - C)%nat with 0%nat by lia. reflexivity.
        * split; [exact Hb|]. split; [congruence|]. split; [exact Hc | reflexivity]. }
  split; [exact H1|]. split; [|split; assumption].
  rewrite (collect_holds _ _ H2), H3. reflexivity.
Qed.

(** X6.  [flush] does not drain the buffer: on a sink that has taken the
    events [evs], it gives [WriteBatch] one batch, the buffered events
    newest first (the last [C] of [evs], reversed) with their keys and
    serialized values, and leaves the buffer as it was; a second [flush]
    gives [WriteBatch] the same batch again. *)
Theorem flush_keeps_buffer (capacity : Z) (evs : list Event) (isClosed : bool) :
  let C := Z.to_nat (Z.max capacity 1) in
  let batch := map (batch_entry marshal) (take C (rev evs)) in
  exists b,
    rb.add_all (rb.New entity.zero capacity) evs = Ok b /\
    let s := mkSink (Some ([] : BatchLog)) b capacity isClosed in
    let '(s1, r1) := flush BatchLog_WriteBatch MarshalMsg s in
    let '(s2, r2) := flush BatchLog_WriteBatch MarshalMsg s1 in
    r1 = Ok tt /\ r2 = Ok tt /\
    journal s1 = Some [batch] /\ buf s1 = b /\
    journal s2 = Some [batch; batch] /\ buf s2 = b.
Proof.
  intros C batch.
  destruct (add_all_holds evs _ _ (holds_New entity.zero capacity))
    as (b & E & H & HC).
  rewrite app_nil_r in H. rewrite len_New in HC.
  exists b. split; [exact E|]. cbv zeta.
  rewrite (flush_holds BatchLog_WriteBatch MarshalMsg marshal MarshalMsg_ok
             (@mkSink BatchLog (Some []) b capacity isClosed) (rev evs) [] eq_refl H).
  cbn [buf journal BatchLog_WriteBatch bind bufSize closed app].
  rewrite (flush_holds BatchLog_WriteBatch MarshalMsg marshal MarshalMsg_ok
             (@mkSink BatchLog (Some [_]) b capacity isClosed) (rev evs) [_] eq_refl H).
  cbn [buf journal BatchLog_WriteBatch bind bufSize closed app].
  rewrite HC. fold C. fold batch. repeat split; reflexivity.
Qed.

End SinkTheorems.

Lemma Append_spills_oldest_keeps_newest_witness :
  let MarshalMsg := fun ev => Ok (list_byte_of_string (entity.Sensor ev)) in
  let marshal := fun ev => list_byte_of_string (entity.Sensor ev) in
  let e := fun name => entity.mkEvent "" name 0 0 in
  let evs := [e "a"; e "b"; e "c"]%string in
  let w := sink.append_all sink.Recorder_Write MarshalMsg [] evs
             (sink.New (Some []) (Some 2), tt) in
  (forall ev, MarshalMsg ev = Ok (marshal ev)) /\
  sink.journal (fst w) = Some (map (spilled marshal) (take (3 - 2) evs)) /\
  rb.collect (sink.buf (fst w)) = Ok (take 2 (rev evs)) /\
  sink.closed (fst w) = false /\ snd w = tt.
Proof.
  intros MarshalMsg marshal e evs w.
  split; [reflexivity|].
  exact (Append_spills_oldest_keeps_newest MarshalMsg marshal (fun _ => eq_refl)
           2 evs tt).
Defined.

Lemma flush_keeps_buffer_witness :
  let MarshalMsg := fun ev => Ok (list_byte_of_string (entity.Sensor ev)) in
  let marshal := fun ev => list_byte_of_string (entity.Sensor ev) in
  let e := fun name => entity.mkEvent "" name 0 0 in
  let evs := [e "a"; e "b"; e "c"]%string in
  let batch := map (batch_entry marshal) (take 2 (rev evs)) in
  (forall ev, MarshalMsg ev = Ok (marshal ev)) /\
  exists b,
    rb.add_all (rb.New entity.zero 2) evs = Ok b /\
    let s := sink.mkSink (Some ([] : BatchLog)) b 2 false in
    let '(s1, r1) := sink.flush BatchLog_WriteBatch MarshalMsg s in
    let '(s2, r2) := sink.flush BatchLog_WriteBatch MarshalMsg s1 in
    r1 = Ok tt /\ r2 = Ok tt /\
    sink.journal s1 = Some [batch] /\ sink.buf s1 = b /\
    sink.journal s2 = Some [batch; batch] /\ sink.buf s2 = b.
Proof.
  intros MarshalMsg marshal e evs batch.
  split; [reflexivity|].
  exact (flush_keeps_buffer MarshalMsg marshal (fun _ => eq_refl) 2 evs false).
Defined.

(** * The sink: [Close] and the middleware chain *)

Section SinkChain.
Import entity sink.
Context {J : Type}.
Variable J_Write : J -> list byte -> list byte -> J * outcome Z.
Variable J_WriteBatch : J -> list journal.Entry -> J * outcome (list Z).
Variable MarshalMsg : Event -> outcome (list byte).

Lemma flush_frame (s : Sink) :
  buf (fst (flush J_WriteBatch MarshalMsg s)) = buf s /\
  closed (fst (flush J_WriteBatch MarshalMsg s)) = closed s /\
  bufSize (fst (flush J_WriteBatch MarshalMsg s)) = bufSize s.
Proof.
  unfold flush. destruct (journal s) as [j|]; [|auto].
  destruct (let* evs := rb.collect (buf s) in make_batch MarshalMsg evs); auto.
  destruct (J_WriteBatch j a). auto.
Qed.

(** X7.  [Close] turns the sink off for good and drains nothing: whatever
    its flush answers, the buffer holds what it held, and every later
    [Append], with any middlewares, fails with [ErrSinkClosed] before a
    middleware runs, leaving the sink and the state of the middlewares as
    they were. *)
Theorem Append_after_Close_is_refused {X : Type} (s : Sink)
    (middlewares : list (Middleware (Sink * X))) (ev : Event) (x : X) :
  let s' := fst (Close J_WriteBatch MarshalMsg s) in
  buf s' = buf s /\ closed s' = true /\
  Append J_Write MarshalMsg middlewares ev (s', x) = ((s', x), Err ErrSinkClosed) /\
  (journal s = None ->
   Close J_WriteBatch MarshalMsg s =
     (mkSink None (buf s) (bufSize s) true, Err ErrJournalIsNil)).
Proof.
  intros s'. subst s'. unfold Close.
  destruct (flush_frame (mkSink (journal s) (buf s) (bufSize s) true))
    as (Hb & Hc & _).
  cbn [buf closed] in Hb, Hc.
  split; [exact Hb|]. split; [exact Hc|]. split.
  - unfold Append. cbn [fst]. now rewrite Hc.
  - intros Hj. unfold flush. cbn [journal]. now rewrite Hj.
Qed.

(** A middleware that leaves its name in the log and calls [next], and
    one that answers [err] without calling [next]. *)
Definition trace (name : string) : Middleware (Sink (J:=J) * list string) :=
  fun next ev w => next ev (fst w, snd w ++ [name]).

Definition refuse {X : Type} (err : error) : Middleware (Sink (J:=J) * X) :=
  fun _ _ w => (w, Err err).

Lemma buildChain_cons {X : Type} (mw : Middleware (Sink * X)) mws :
  buildChain J_Write MarshalMsg (mw :: mws) = mw (buildChain J_Write MarshalMsg mws).
Proof. reflexivity. Qed.

Lemma buildChain_trace (names : list string) :
  forall (rest : list (Middleware (Sink * list string))) ev s log,
  buildChain J_Write MarshalMsg (map trace names ++ rest) ev (s, log) =
  buildChain J_Write MarshalMsg rest ev (s, log ++ names).
Proof.
  induction names as [|n names IH]; intros rest ev s log.
  - cbn [map app]. now rewrite app_nil_r.
  - cbn [map app]. rewrite buildChain_cons. unfold trace at 1. cbn [fst snd].
    rewrite IH. now rewrite <- app_assoc.
Qed.

(** X8.  The chain that [New] builds runs the middlewares in the order
    of registration, the first one outermost, and ends in
    [appendToBuffer]; a middleware that returns without calling [next]
    ends the chain there: the ones registered after it do not run, and
    the event does not reach the buffer. *)
Theorem buildChain_runs_in_registration_order (names1 names2 : list string)
    (err : error) (ev : Event) (s : Sink) (log : list string) :
  buildChain J_Write MarshalMsg (map trace names1) ev (s, log) =
    appendToBuffer J_Write MarshalMsg ev (s, log ++ names1) /\
  buildChain J_Write MarshalMsg
    (map trace names1 ++ refuse err :: map trace names2) ev (s, log) =
    ((s, log ++ names1), Err err).
Proof.
  split.
  - rewrite <- (app_nil_r (map trace names1)). now rewrite buildChain_trace.
  - rewrite buildChain_trace. reflexivity.
Qed.

End SinkChain.

(** * The deduplicator: its counter and the sweep *)

Section DedupCount.
Import entity sink.
Context {S : Type}.
Variable next : Handler S.

(** The counter follows the number of keys stored. *)
Definition counted (n : nat) (d : Deduplicator) : Prop :=
  count d = wrap64 (Z.of_nat (base.size (m d))) /\ (base.size (m d) <= n)%nat.

Lemma dedup_counted (ev : Event) (w : Deduplicator * S) (n : nat) :
  counted n (fst w) -> counted (Datatypes.S n) (fst (fst (dedup next ev w))).
Proof.
  intros [Hc Hn]. unfold counted, dedup, dedup_Middleware, lift_next.
  destruct (String.eqb (IdempotencyID ev) "").
  - destruct (next ev (snd w)). cbn [fst]. split; [exact Hc | lia].
  - destruct (bool_decide (IdempotencyID ev ∈ m (fst w))) eqn:Eb.
    + cbn [fst]. split; [exact Hc | lia].
    + apply bool_decide_eq_false in Eb. cbn [snd fst].
      destruct (next ev (snd w)). cbn [fst m count].
      assert (base.size ({[IdempotencyID ev]} ∪ m (fst w)) = Datatypes.S (base.size (m (fst w))))
        as Hs.
      { rewrite size_union by set_solver. now rewrite size_singleton. }
      rewrite Hs. split; [|lia].
      rewrite Hc. unfold wrap64. rewrite Z.add_mod_idemp_l by lia.
      f_equal. lia.
Qed.

Lemma run_dedup_counted (evs : list Event) :
  forall (n : nat) (w : Deduplicator * S),
  counted n (fst w) ->
  counted (n + length evs) (fst (fst (run_handler (dedup next) evs w))).
Proof.
  induction evs as [|ev evs IH]; intros n w Hc.
  - cbn [run_handler fst length]. now rewrite Nat.add_0_r.
  - cbn [run_handler length].
    pose proof (dedup_counted ev w n Hc) as H1.
    destruct (dedup next ev w) as [w1 r]. cbn [fst] in H1.
    specialize (IH _ w1 H1).
    destruct (run_handler (dedup next) evs w1) as [w2 rs]. cbn [fst] in *.
    now replace (n + Datatypes.S (length evs))%nat
      with (Datatypes.S n + length evs)%nat by lia.
Qed.

(** X9.  After any events [pre], fewer than [2^64], handled by a new
    deduplicator with no sweep in between, [Count] is the number of keys
    stored, which are the distinct non-empty idempotency keys of [pre].
    A sweep forgets them all: [Count] is 0 again, and the next event
    with a non-empty key is handed to the next handler whether or not
    its key was seen before the sweep. *)
Theorem Count_is_number_of_distinct_keys (pre : list Event) (s0 : S) (ev : Event) :
  len pre < 2 ^ 64 ->
  let w := fst (run_handler (dedup next) pre (NewDeduplicator, s0)) in
  (forall k, k ∈ m (fst w) <-> k <> ""%string /\ In k (keys pre)) /\
  Count (fst w) = Z.of_nat (base.size (m (fst w))) /\
  Count (sweep (fst w)) = 0 /\
  (IdempotencyID ev <> ""%string ->
   dedup next ev (sweep (fst w), snd w) =
     lift_next next ev
       ({| m := {[IdempotencyID ev]}; count := 1 |}, snd w)).
Proof.
  intros Hlen w.
  pose proof (run_dedup_tracks next pre [] (NewDeduplicator, s0) (tracks_new)) as Ht.
  assert (counted 0 (fst (NewDeduplicator, s0))) as H0.
  { split; [reflexivity|]. cbn [fst m NewDeduplicator]. now rewrite size_empty. }
  pose proof (run_dedup_counted pre 0 (NewDeduplicator, s0) H0) as [Hc Hn].
  cbn [app] in Ht. fold w in Ht, Hc, Hn.
  split; [exact Ht|]. split; [|split; [reflexivity|]].
  - unfold Count. rewrite Hc. unfold wrap64. apply Z.mod_small.
    unfold len in Hlen. lia.
  - intros Hk. unfold dedup, dedup_Middleware.
    apply String.eqb_neq in Hk. rewrite Hk. cbn [fst sweep m count snd].
    destruct (bool_decide (IdempotencyID ev ∈ (∅ : gset string))) eqn:Eb.
    + apply bool_decide_eq_true in Eb. now apply not_elem_of_empty in Eb.
    + rewrite union_empty_r_L. reflexivity.
Qed.

End DedupCount.

Lemma Count_is_number_of_distinct_keys_witness :
  let e := fun k => entity.mkEvent k "temp" 0 0 in
  let pre := [e "a"; e ""; e "b"; e "a"]%string in
  let w := fst (sink.run_handler (dedup sink.recording_handler) pre
                  (sink.NewDeduplicator, (sink.NewDeduplicator, []))) in
  len pre < 2 ^ 64 /\
  (forall k, k ∈ sink.m (fst w) <-> k <> ""%string /\ In k (keys pre)) /\
  sink.Count (fst w) = Z.of_nat (base.size (sink.m (fst w))) /\
  sink.Count (sink.sweep (fst w)) = 0 /\
  (entity.IdempotencyID (e "a"%string) <> ""%string ->
   dedup sink.recording_handler (e "a"%string) (sink.sweep (fst w), snd w) =
     lift_next sink.recording_handler (e "a"%string)
       ({| sink.m := {[entity.IdempotencyID (e "a"%string)]}; sink.count := 1 |},
        snd w)).
Proof.
  intros e pre w.
  assert (len pre < 2 ^ 64) as H by reflexivity.
  split; [exact H|].
  exact (Count_is_number_of_distinct_keys sink.recording_handler pre
           (sink.NewDeduplicator, []) (e "a"%string) H).
Defined.

(** * The HTTP handlers *)

Section BatchProofs.
Import entity transport.
Context {W : Type}.
Variable Append : Event -> W -> W * outcome unit.
Variable json_Unmarshal : list byte -> Event + error.
Variable UnmarshalMsg : list byte -> Event + error.
Variable scan_lines : list byte -> list (list byte) * option error.

(** A line that [handleBatch] takes: it is empty, or it parses. *)
Definition line_ok (data : list byte) : Prop :=
  len data = 0 \/ exists ev, json_Unmarshal data = inl ev.

(** A request that reaches the scanner of [handleBatch]. *)
Definition batch_request (req : Request) : Prop :=
  IsPost req = true /\
  (ContentType req = "application/x-ndjson"%string \/
   ContentType req = "application/jsonl"%string) /\
  len (PostBody req) <> 0.

Lemma parse_lines_bad (good : list (list byte)) :
  forall (bad : list byte) (rest : list (list byte)) (line : Z) (events : list Event) err,
  Forall line_ok good -> len bad <> 0 -> json_Unmarshal bad = inr err ->
  parse_lines json_Unmarshal (good ++ bad :: rest) line events =
    inr (line + len good + 1).
Proof.
  induction good as [|g good IH]; intros bad rest line events err Hgood Hbad Herr.
  - cbn [app parse_lines]. destruct (Z.eqb_spec (len bad) 0); [contradiction|].
    rewrite Herr. f_equal. unfold len. cbn [length]. lia.
  - apply Forall_cons in Hgood as [Hg Hgood].
    cbn [app parse_lines].
    assert (len (g :: good) = len good + 1) as Hl by (unfold len; cbn [length]; lia).
    rewrite Hl.
    destruct (Z.eqb_spec (len g) 0) as [E|E].
    + rewrite (IH bad rest (line + 1) events err Hgood Hbad Herr). f_equal. lia.
    + destruct Hg as [Hg|[ev Hev]]; [contradiction|]. rewrite Hev.
      rewrite (IH bad rest (line + 1) _ err Hgood Hbad Herr). f_equal. lia.
Qed.

Lemma handleBatch_scans (req : Request) (w : W) :
  batch_request req ->
  handleBatch Append json_Unmarshal scan_lines req w =
    (let '(lines, scanErr) := scan_lines (PostBody req) in
     match parse_lines json_Unmarshal lines 0 [] with
     | inr line =>
         (w, Ok (ctx_Error (Text ("parse error at line " +:+ fmt.FormatInt line))
                   StatusBadRequest))
     | inl events =>
         match scanErr with
         | Some _ => (w, Ok (ctx_Error (Text "scan error") StatusBadRequest))
         | None => append_events Append events w
         end
     end).
Proof.
  intros (Hpost & Hct & Hbody). unfold handleBatch. rewrite Hpost. cbn [negb].
  assert (negb (ContentType req =? "application/x-ndjson")%string
          && negb (ContentType req =? "application/jsonl")%string = false) as ->.
  { destruct Hct as [->| ->]; reflexivity. }
  destruct (Z.eqb_spec (len (PostBody req)) 0); [contradiction | reflexivity].
Qed.

(** X10.  A batch is parsed as a whole before any event reaches the
    sink: when a line that is not empty does not parse, [handleBatch]
    answers 400 with the number of that line, counted from 1 with the
    empty lines, and the sink is left as it was, also when lines before
    it held events. *)
Theorem handleBatch_parse_error_drops_whole_batch (req : Request) (w : W)
    (good rest : list (list byte)) (bad : list byte) (err : error)
    (scanErr : option error) :
  batch_request req ->
  scan_lines (PostBody req) = (good ++ bad :: rest, scanErr) ->
  Forall line_ok good -> len bad <> 0 -> json_Unmarshal bad = inr err ->
  handleBatch Append json_Unmarshal scan_lines req w =
    (w, Ok {| StatusCode := 400;
              Body := Text ("parse error at line " +:+ fmt.FormatInt (len good + 1)) |}).
Proof.
  intros Hreq Hscan Hgood Hbad Herr.
  rewrite (handleBatch_scans req w Hreq), Hscan.
  rewrite (parse_lines_bad good bad rest 0 [] err Hgood Hbad Herr).
  reflexivity.
Qed.

(** The sink after events that it took or refused as duplicates, one
    after the other: [None] once [Append] answers anything else. *)
Fixpoint taken (events : list Event) (w : W) : option W :=
  match events with
  | [] => Some w
  | ev :: rest =>
      match Append ev w with
      | (w', Ok _) | (w', Err ErrDuplicate) => taken rest w'
      | _ => None
      end
  end.

Lemma append_events_app (pre : list Event) :
  forall (post : list Event) (w w1 : W),
  taken pre w = Some w1 ->
  append_events Append (pre ++ post) w = append_events Append post w1.
Proof.
  induction pre as [|ev pre IH]; intros post w w1 H.
  - cbn in H. injection H as <-. reflexivity.
  - cbn [app append_events]. cbn [taken] in H.
    destruct (Append ev w) as [w' [[]|e|]]; try discriminate.
    + now apply IH.
    + destruct e; try discriminate. now apply IH.
Qed.

(** The events of the lines of a batch. *)
Fixpoint parsed (lines : list (list byte)) : list Event :=
  match lines with
  | [] => []
  | data :: rest =>
      if len data =? 0 then parsed rest
      else match json_Unmarshal data with
           | inl ev => ev :: parsed rest
           | inr _ => parsed rest
           end
  end.

Lemma parse_lines_good (lines : list (list byte)) :
  forall (line : Z) (events : list Event),
  Forall line_ok lines ->
  parse_lines json_Unmarshal lines line events = inl (events ++ parsed lines).
Proof.
  induction lines as [|l lines IH]; intros line events Hok.
  - cbn. now rewrite app_nil_r.
  - apply Forall_cons in Hok as [Hl Hok]. cbn [parse_lines parsed].
    destruct (Z.eqb_spec (len l) 0) as [E|E]; [now apply IH|].
    destruct Hl as [Hl|[ev Hev]]; [contradiction|]. rewrite Hev.
    rewrite (IH (line + 1) (events ++ [ev]) Hok).
    now rewrite <- app_assoc.
Qed.

(** X11.  The events of a batch are appended one by one, with no
    rollback: duplicates are skipped, and a batch that ends without
    another refusal is answered 202; at the first event the sink refuses
    as rate limited the answer is 429, at the first other error it is
    500, and in both cases the events before it stay appended and the
    events after it are not offered to the sink. *)
Theorem handleBatch_appends_until_refusal (req : Request) (w w1 w2 : W)
    (lines : list (list byte)) (pre post : list Event) (ev : Event) (err : error) :
  batch_request req ->
  scan_lines (PostBody req) = (lines, None) ->
  Forall line_ok lines ->
  taken pre w = Some w1 ->
  (parsed lines = pre ->
   handleBatch Append json_Unmarshal scan_lines req w =
     (w1, Ok {| StatusCode := 202; Body := NoBody |})) /\
  (parsed lines = pre ++ ev :: post ->
   Append ev w1 = (w2, Err err) -> err <> ErrDuplicate ->
   handleBatch Append json_Unmarshal scan_lines req w =
     (w2, Ok match err with
             | ErrRateLimited => {| StatusCode := 429; Body := NoBody |}
             | _ => {| StatusCode := 500; Body := Text "sink error" |}
             end)).
Proof.
  intros Hreq Hscan Hok Hpre.
  pose proof (parse_lines_good lines 0 [] Hok) as Hparse. cbn [app] in Hparse.
  split.
  - intros Hp. rewrite (handleBatch_scans req w Hreq), Hscan, Hparse, Hp.
    rewrite <- (app_nil_r pre), (append_events_app pre [] w w1 Hpre). reflexivity.
  - intros Hp Hev Hne.
    rewrite (handleBatch_scans req w Hreq), Hscan, Hparse, Hp.
    rewrite (append_events_app pre _ w w1 Hpre). cbn [append_events]. rewrite Hev.
    destruct err; try reflexivity. contradiction.
Qed.

End BatchProofs.

(** The sink and the parser of the examples: the sink keeps the events
    it takes, refuses a negative value as rate limited and the value 0 as
    a duplicate; a line parses when its first byte is a digit, to an
    event with that value, or the value -1 for the digit 9. *)
Definition toy_Append (ev : entity.Event) (w : list entity.Event)
  : list entity.Event * outcome unit :=
  if entity.Value ev <? 0 then (w, Err ErrRateLimited)
  else if entity.Value ev =? 0 then (w, Err ErrDuplicate)
  else (w ++ [ev], Ok tt).

Definition toy_Unmarshal (data : list byte) : entity.Event + error :=
  match data with
  | b :: _ =>
      let d := Z_of_byte b - 48 in
      if (0 <=? d) && (d <=? 8) then inl (entity.mkEvent "" "toy" d 0)
      else if d =? 9 then inl (entity.mkEvent "" "toy" (-1) 0)
      else inr (ErrOther "invalid character")
  | [] => inr (ErrOther "unexpected end of JSON input")
  end.

Definition toy_lines (body : list byte) : list (list byte) * option error :=
  (map (fun b => if Byte.eqb b x0a then [] else [b]) body, None).

Definition toy_request (body : list byte) : transport.Request :=
  transport.mkRequest "/ingest/batch" true "application/x-ndjson" body.

Lemma handleBatch_parse_error_drops_whole_batch_witness :
  let req := toy_request [x31; x0a; x32; x7b; x33] in
  batch_request req /\
  toy_lines (transport.PostBody req) = ([[x31]; []; [x32]] ++ [x7b] :: [[x33]], None) /\
  Forall (line_ok toy_Unmarshal) [[x31]; []; [x32]] /\
  len [x7b] <> 0 /\
  toy_Unmarshal [x7b] = inr (ErrOther "invalid character") /\
  transport.handleBatch toy_Append toy_Unmarshal toy_lines req [] =
    ([], Ok {| transport.StatusCode := 400;
               transport.Body := transport.Text "parse error at line 4" |}).
Proof.
  intros req.
  assert (batch_request req) as H1.
  { split; [reflexivity|]. split; [now left | discriminate]. }
  assert (Forall (line_ok toy_Unmarshal) [[x31]; []; [x32]]) as H2.
  { repeat (apply List.Forall_cons;
              [first [ left; reflexivity | right; eexists; reflexivity ] |]).
    apply List.Forall_nil. }
  assert (len [x7b] <> 0) as H3 by discriminate.
  split; [exact H1|]. split; [reflexivity|]. split; [exact H2|].
  split; [exact H3|]. split; [reflexivity|].
  exact (handleBatch_parse_error_drops_whole_batch toy_Append toy_Unmarshal toy_lines
           req [] [[x31]; []; [x32]] [[x33]] [x7b] _ None H1 eq_refl H2 H3 eq_refl).
Defined.

Lemma handleBatch_appends_until_refusal_witness :
  let req := toy_request [x31; x30; x32; x39; x33] in
  let e := fun v => entity.mkEvent "" "toy" v 0 in
  let lines := [[x31]; [x30]; [x32]; [x39]; [x33]] in
  batch_request req /\
  toy_lines (transport.PostBody req) = (lines, None) /\
  Forall (line_ok toy_Unmarshal) lines /\
  taken toy_Append [e 1; e 0; e 2] [] = Some [e 1; e 2] /\
  (parsed toy_Unmarshal lines = [e 1; e 0; e 2] ->
   transport.handleBatch toy_Append toy_Unmarshal toy_lines req [] =
     ([e 1; e 2], Ok {| transport.StatusCode := 202; transport.Body := transport.NoBody |})) /\
  (parsed toy_Unmarshal lines = [e 1; e 0; e 2] ++ e (-1) :: [e 3] ->
   toy_Append (e (-1)) [e 1; e 2] = ([e 1; e 2], Err ErrRateLimited) ->
   ErrRateLimited <> ErrDuplicate ->
   transport.handleBatch toy_Append toy_Unmarshal toy_lines req [] =
     ([e 1; e 2], Ok {| transport.StatusCode := 429; transport.Body := transport.NoBody |})).
Proof.
  intros req e lines.
  assert (batch_request req) as H1.
  { split; [reflexivity|]. split; [now left | discriminate]. }
  assert (Forall (line_ok toy_Unmarshal) lines) as H2.
  { repeat (apply List.Forall_cons;
              [first [ left; reflexivity | right; eexists; reflexivity ] |]).
    apply List.Forall_nil. }
  split; [exact H1|]. split; [reflexivity|]. split; [exact H2|].
  split; [reflexivity|].
  exact (handleBatch_appends_until_refusal toy_Append toy_Unmarshal toy_lines
           req [] [e 1; e 2] [e 1; e 2] lines [e 1; e 0; e 2] [e 3] (e (-1))
           ErrRateLimited H1 eq_refl H2 eq_refl).
Defined.

(** * The chain of the server: deduplicator, then rate limiter *)

Section ServerChain.
Import entity sink transport.
Context {J L : Type}.
Variable J_Write : J -> list byte -> list byte -> J * outcome Z.
Variable MarshalMsg : Event -> outcome (list byte).
Variable AllowN : L -> Z -> bool * L.
Variable Msgsize : Event -> Z.
Variable json_Unmarshal : list byte -> Event + error.
Variable UnmarshalMsg : list byte -> Event + error.

(** What the two middlewares of [run] close over. *)
Abbreviation Mw := (Deduplicator * RateLimiter L)%type.

Definition dedup_mw : Middleware (Sink (J:=J) * Mw) :=
  dedup_Middleware (fun w => fst (snd w)) (fun d w => (fst w, (d, snd (snd w)))).

Definition ratelimit_mw : Middleware (Sink (J:=J) * Mw) :=
  ratelimit_Middleware AllowN Msgsize
    (fun w => snd (snd w)) (fun r w => (fst w, (fst (snd w), r))).

(** [Append] of the sink that [run] builds when both are enabled: the
    deduplicator is registered first. *)
Definition server_Append : Handler (Sink (J:=J) * Mw) :=
  Append J_Write MarshalMsg [dedup_mw; ratelimit_mw].

(** A POST of one event in msgpack to [/ingest]. *)
Definition ingest (data : list byte) : Request :=
  mkRequest "/ingest" true "application/msgpack" data.

(** X12.  The deduplicator stores the key of an event before the rate
    limiter is asked.  When the limiter refuses an event with a new,
    non-empty key, [Append] fails with [ErrRateLimited] (the server
    answers 429) and nothing is buffered, but the key stays stored:
    until a sweep, every later event with this key, the same event sent
    again included, fails with [ErrDuplicate] (the server answers 409)
    whatever the limiter would allow, and is not buffered either. *)
Theorem rate_limited_event_is_a_duplicate_on_retry (s s2 : Sink) (j j2 : J)
    (d : Deduplicator) (rl rl2 : RateLimiter L) (l' : L) (ev ev2 : Event)
    (data data2 : list byte) :
  closed s = false -> journal s = Some j ->
  closed s2 = false -> journal s2 = Some j2 ->
  IdempotencyID ev <> ""%string -> IdempotencyID ev ∉ m d ->
  AllowN (limiter rl) (Msgsize ev) = (false, l') ->
  IdempotencyID ev2 = IdempotencyID ev ->
  UnmarshalMsg data = inl ev -> UnmarshalMsg data2 = inl ev2 ->
  len data <> 0 -> len data2 <> 0 ->
  let d' := {| m := {[IdempotencyID ev]} ∪ m d; count := wrap64 (count d + 1) |} in
  let rl' := {| limiter := l'; DroppedCounter := wrap64 (DroppedCounter rl + 1) |} in
  server_Append ev (s, (d, rl)) = ((s, (d', rl')), Err ErrRateLimited) /\
  server_Append ev2 (s2, (d', rl2)) = ((s2, (d', rl2)), Err ErrDuplicate) /\
  handleEvent server_Append json_Unmarshal UnmarshalMsg (ingest data) (s, (d, rl)) =
    ((s, (d', rl')), Ok {| StatusCode := 429; Body := NoBody |}) /\
  handleEvent server_Append json_Unmarshal UnmarshalMsg (ingest data2) (s2, (d', rl2)) =
    ((s2, (d', rl2)), Ok {| StatusCode := 409; Body := NoBody |}).
Proof.
  intros Hc Hj Hc2 Hj2 Hk Hnew Hdeny Hk2 Hd1 Hd2 Hl1 Hl2 d' rl'.
  assert (server_Append ev (s, (d, rl)) = ((s, (d', rl')), Err ErrRateLimited)) as A1.
  { unfold server_Append, Append. cbn [fst]. rewrite Hc, Hj.
    cbn [buildChain foldr]. unfold dedup_mw, dedup_Middleware. cbn [fst snd].
    apply String.eqb_neq in Hk. rewrite Hk.
    rewrite bool_decide_eq_false_2 by exact Hnew.
    unfold ratelimit_mw, ratelimit_Middleware. cbn [fst snd].
    rewrite Hdeny. reflexivity. }
  assert (server_Append ev2 (s2, (d', rl2)) = ((s2, (d', rl2)), Err ErrDuplicate)) as A2.
  { unfold server_Append, Append. cbn [fst]. rewrite Hc2, Hj2.
    cbn [buildChain foldr]. unfold dedup_mw, dedup_Middleware. cbn [fst snd].
    rewrite Hk2. apply String.eqb_neq in Hk. rewrite Hk.
    rewrite bool_decide_eq_true_2; [reflexivity|].
    subst d'. cbn [m]. set_solver. }
  split; [exact A1|]. split; [exact A2|].
  unfold handleEvent, ingest. cbn [IsPost ContentType PostBody negb].
  destruct (Z.eqb_spec (len data) 0); [contradiction|].
  destruct (Z.eqb_spec (len data2) 0); [contradiction|].
  cbn. rewrite Hd1, Hd2, A1, A2. split; reflexivity.
Qed.

End ServerChain.

Lemma rate_limited_event_is_a_duplicate_on_retry_witness :
  let AllowN := fun (tokens n : Z) => if n <=? tokens then (true, tokens - n) else (false, tokens) in
  let Msgsize := fun ev : entity.Event => 40 in
  let Unmarshal := fun data : list byte => inl (entity.mkEvent "k1" "temp" (len data) 0)
                   : entity.Event + error in
  let MarshalMsg := fun ev : entity.Event => Ok (list_byte_of_string (entity.Sensor ev)) in
  let s := sink.New (Some ([] : sink.Recorder)) (Some 4) in
  let d := sink.NewDeduplicator in
  let rl := sink.mkRateLimiter 10 0 in
  let ev := entity.mkEvent "k1" "temp" 1 0 in
  let d' := {| sink.m := {[entity.IdempotencyID ev]} ∪ sink.m d;
               sink.count := wrap64 (sink.count d + 1) |} in
  let rl' := sink.mkRateLimiter 10 1 in
  let rl2 := sink.mkRateLimiter 1000 1 in
  server_Append sink.Recorder_Write MarshalMsg AllowN Msgsize ev (s, (d, rl)) =
    ((s, (d', rl')), Err ErrRateLimited) /\
  server_Append sink.Recorder_Write MarshalMsg AllowN Msgsize ev (s, (d', rl2)) =
    ((s, (d', rl2)), Err ErrDuplicate) /\
  transport.handleEvent (server_Append sink.Recorder_Write MarshalMsg AllowN Msgsize)
    Unmarshal Unmarshal (ingest [x01]) (s, (d, rl)) =
    ((s, (d', rl')), Ok {| transport.StatusCode := 429; transport.Body := transport.NoBody |}) /\
  transport.handleEvent (server_Append sink.Recorder_Write MarshalMsg AllowN Msgsize)
    Unmarshal Unmarshal (ingest [x01]) (s, (d', rl2)) =
    ((s, (d', rl2)), Ok {| transport.StatusCode := 409; transport.Body := transport.NoBody |}).
Proof.
  intros AllowN Msgsize Unmarshal MarshalMsg s d rl ev d' rl' rl2.
  refine (rate_limited_event_is_a_duplicate_on_retry sink.Recorder_Write MarshalMsg
            AllowN Msgsize Unmarshal Unmarshal s s [] [] d rl rl2 10 ev ev [x01] [x01]
            eq_refl eq_refl eq_refl eq_refl _ _ eq_refl eq_refl eq_refl eq_refl _ _).
  - discriminate.
  - cbn. set_solver.
  - discriminate.
  - discriminate.
Defined.

(** * MemStorage *)

Section MemStorageProofs.
Import journal.MemStorage.

Lemma write_all_open (ps : list (list byte)) :
  forall (ms : Files) (nm : string) (d : list byte),
  ms !! nm = Some {| data := d; closed := false |} ->
  exists ms',
    write_all ms {| name := nm |} ps = (ms', Ok tt) /\
    ms' !! nm = Some {| data := d ++ concat ps; closed := false |} /\
    (forall other, other <> nm -> ms' !! other = ms !! other).
Proof.
  induction ps as [|p ps IH]; intros ms nm d H.
  - exists ms. cbn [write_all concat]. rewrite app_nil_r. auto.
  - cbn [write_all]. unfold Write. cbn [name]. rewrite H. cbn [closed data].
    destruct (IH (<[nm := {| data := d ++ p; closed := false |}]> ms) nm (d ++ p)
                (lookup_insert_eq _ _ _)) as (ms' & E & Hd & Hother).
    exists ms'. split; [exact E|]. split.
    + rewrite Hd. cbn [concat]. now rewrite app_assoc.
    + intros other Hne. rewrite (Hother other Hne).
      now apply lookup_insert_ne.
Qed.

(** X13.  A file of the in-memory storage reads back what was written:
    after [Create] of a name that is free and any writes through the
    writer returned, [Open] yields the bytes written, in order,
    [OpenAppend] reports their number as the size, the other files are
    untouched, and a second [Create] of the name fails. *)
Theorem MemStorage_reads_back_what_was_written (ms : Files) (nm : string)
    (ps : list (list byte)) :
  ms !! nm = None ->
  exists ms1 ms2 mw,
    Create ms nm = (ms1, Ok mw) /\
    write_all ms1 mw ps = (ms2, Ok tt) /\
    Open ms2 nm = Ok (concat ps) /\
    OpenAppend ms2 nm = Ok (mw, len (concat ps)) /\
    (forall other, other <> nm -> ms2 !! other = ms !! other) /\
    snd (Create ms2 nm) = Err (ErrOther "file exists").
Proof.
  intros Hfree. unfold Create at 1. rewrite Hfree.
  destruct (write_all_open ps (<[nm := {| data := []; closed := false |}]> ms) nm []
              (lookup_insert_eq _ _ _)) as (ms2 & E & Hd & Hother).
  cbn [app] in Hd.
  eexists _, ms2, _. split; [reflexivity|]. split; [exact E|].
  unfold Open, OpenAppend, Create. rewrite Hd. cbn [data].
  split; [reflexivity|]. split; [reflexivity|]. split; [|reflexivity].
  intros other Hne. rewrite (Hother other Hne). now apply lookup_insert_ne.
Qed.

(** X14.  [Close] of a writer closes the file, not the writer: the flag
    it sets is the file's, and nothing clears it.  After one [Close],
    [OpenAppend] still succeeds, but every [Write], through the old
    writer or through the new one, fails with [ErrClosed] and leaves the
    bytes as they were: a file of the in-memory storage cannot be
    appended to once a writer of it was closed. *)
Theorem MemStorage_file_stays_closed (ms : Files) (mw : memWriter) (mf : memFile)
    (p : list byte) :
  ms !! name mw = Some mf ->
  exists ms1 mw',
    Close ms mw = (ms1, None) /\
    OpenAppend ms1 (name mw) = Ok (mw', len (data mf)) /\
    Write ms1 mw p = (ms1, Err ErrClosed) /\
    Write ms1 mw' p = (ms1, Err ErrClosed) /\
    Open ms1 (name mw) = Ok (data mf).
Proof.
  intros H. unfold Close. rewrite H.
  eexists _, {| name := name mw |}. split; [reflexivity|].
  unfold OpenAppend, Write, Open. cbn [name].
  rewrite !lookup_insert_eq. cbn [data closed].
  repeat split; reflexivity.
Qed.

End MemStorageProofs.

Lemma MemStorage_reads_back_what_was_written_witness :
  let ps := [[x61; x62]; []; [x63]] in
  (journal.MemStorage.NewMemStorage !! "000001.wal"%string = None) /\
  exists ms1 ms2 mw,
    journal.MemStorage.Create journal.MemStorage.NewMemStorage "000001.wal" = (ms1, Ok mw) /\
    journal.MemStorage.write_all ms1 mw ps = (ms2, Ok tt) /\
    journal.MemStorage.Open ms2 "000001.wal" = Ok (concat ps) /\
    journal.MemStorage.OpenAppend ms2 "000001.wal" = Ok (mw, len (concat ps)) /\
    (forall other, other <> "000001.wal"%string ->
                   ms2 !! other = journal.MemStorage.NewMemStorage !! other) /\
    snd (journal.MemStorage.Create ms2 "000001.wal") = Err (ErrOther "file exists").
Proof.
  intros ps. split; [reflexivity|].
  exact (MemStorage_reads_back_what_was_written journal.MemStorage.NewMemStorage
           "000001.wal" ps eq_refl).
Defined.

Lemma MemStorage_file_stays_closed_witness :
  let mf := journal.MemStorage.mkMemFile [x61] false in
  let ms : journal.MemStorage.Files := {[ "000001.wal"%string := mf ]} in
  let mw := journal.MemStorage.mkMemWriter "000001.wal" in
  ms !! journal.MemStorage.name mw = Some mf /\
  exists ms1 mw',
    journal.MemStorage.Close ms mw = (ms1, None) /\
    journal.MemStorage.OpenAppend ms1 (journal.MemStorage.name mw)
      = Ok (mw', len (journal.MemStorage.data mf)) /\
    journal.MemStorage.Write ms1 mw [x62] = (ms1, Err ErrClosed) /\
    journal.MemStorage.Write ms1 mw' [x62] = (ms1, Err ErrClosed) /\
    journal.MemStorage.Open ms1 (journal.MemStorage.name mw)
      = Ok (journal.MemStorage.data mf).
Proof.
  intros mf ms mw.
  assert (ms !! journal.MemStorage.name mw = Some mf) as H by reflexivity.
  split; [exact H|].
  exact (MemStorage_file_stays_closed ms mw mf [x62] H).
Defined.

(** * The checksum *)

Section Checksum.
Import crc32.

Definition u32 (c : Z) : Prop := 0 <= c < 2 ^ 32.

Lemma u32_high_bits c i : u32 c -> 32 <= i -> Z.testbit c i = false.
Proof.
  intros Hc Hi. rewrite <- (Z.mod_small c (2 ^ 32)) by exact Hc.
  apply Z.mod_pow2_bits_high. lia.
Qed.

Lemma u32_of_bits c :
  0 <= c -> (forall i, 32 <= i -> Z.testbit c i = false) -> u32 c.
Proof.
  intros H0 Hb. assert (c = c mod 2 ^ 32) as ->.
  { apply Z.bits_inj'. intros i Hi.
    destruct (Z.lt_ge_cases i 32).
    - now rewrite Z.mod_pow2_bits_low by lia.
    - rewrite Z.mod_pow2_bits_high by lia. now apply Hb. }
  apply Z.mod_pos_bound. lia.
Qed.

Lemma u32_lxor a b : u32 a -> u32 b -> u32 (Z.lxor a b).
Proof.
  intros Ha Hb. apply u32_of_bits.
  - apply Z.lxor_nonneg. unfold u32 in *. lia.
  - intros i Hi. rewrite Z.lxor_spec.
    now rewrite (u32_high_bits a i Ha Hi), (u32_high_bits b i Hb Hi).
Qed.

Lemma u32_shiftr c : u32 c -> u32 (Z.shiftr c 1).
Proof.
  intros Hc. apply u32_of_bits.
  - apply Z.shiftr_nonneg. unfold u32 in Hc. lia.
  - intros i Hi. rewrite Z.shiftr_spec by lia. apply u32_high_bits; [exact Hc | lia].
Qed.

Lemma u32_poly : u32 poly.
Proof. unfold u32, poly. lia. Qed.

Lemma u32_step c : u32 c -> u32 (step c).
Proof.
  intros Hc. unfold step.
  destruct (Z.odd c); [apply u32_lxor; [now apply u32_shiftr | apply u32_poly]|].
  now apply u32_shiftr.
Qed.

Lemma lxor_cancel_r a b c : Z.lxor a c = Z.lxor b c -> a = b.
Proof.
  intros H. apply (f_equal (fun z => Z.lxor z c)) in H.
  now rewrite !Z.lxor_assoc, Z.lxor_nilpotent, !Z.lxor_0_r in H.
Qed.

Lemma lxor_cancel_l a b c : Z.lxor c a = Z.lxor c b -> a = b.
Proof. rewrite !(Z.lxor_comm c). apply lxor_cancel_r. Qed.

(** Bit 31 of [step c] is the bit shifted out of [c]: the polynomial has
    its top bit set. *)
Lemma step_top_bit c : u32 c -> Z.testbit (step c) 31 = Z.odd c.
Proof.
  intros Hc. unfold step.
  assert (Z.testbit (Z.shiftr c 1) 31 = false) as Hs.
  { rewrite Z.shiftr_spec by lia. apply u32_high_bits; [exact Hc | lia]. }
  destruct (Z.odd c).
  - rewrite Z.lxor_spec, Hs. reflexivity.
  - exact Hs.
Qed.

Lemma step_inj c c' : u32 c -> u32 c' -> step c = step c' -> c = c'.
Proof.
  intros Hc Hc' E.
  assert (Z.odd c = Z.odd c') as Hodd.
  { rewrite <- (step_top_bit c Hc), <- (step_top_bit c' Hc'). now rewrite E. }
  assert (Z.shiftr c 1 = Z.shiftr c' 1) as Hsh.
  { unfold step in E. rewrite <- Hodd in E.
    destruct (Z.odd c); [now apply lxor_cancel_r in E | exact E]. }
  rewrite (Z.div2_odd c), (Z.div2_odd c'), !Z.div2_spec, Hsh, Hodd.
  reflexivity.
Qed.

Lemma u32_iter_step n c : u32 c -> u32 (Nat.iter n step c).
Proof. intros Hc. induction n as [|n IH]; [exact Hc|]. cbn. now apply u32_step. Qed.

Lemma iter_step_inj n c c' :
  u32 c -> u32 c' -> Nat.iter n step c = Nat.iter n step c' -> c = c'.
Proof.
  intros Hc Hc'. induction n as [|n IH]; [auto|].
  cbn. intros E. apply IH. apply step_inj; [now apply u32_iter_step.. | exact E].
Qed.

Lemma u32_byte b : u32 (Z_of_byte b).
Proof. pose proof (Z_of_byte_range b). unfold u32. lia. Qed.

Lemma Z_of_byte_inj b b' : Z_of_byte b = Z_of_byte b' -> b = b'.
Proof.
  unfold Z_of_byte. intros E. apply N2Z.inj in E.
  apply (f_equal Byte.of_N) in E. rewrite !Byte.of_to_N in E. congruence.
Qed.

Lemma u32_update c b : u32 c -> u32 (update c b).
Proof.
  intros Hc. unfold update. apply u32_iter_step, u32_lxor; [exact Hc | apply u32_byte].
Qed.

Lemma update_inj_state c c' b :
  u32 c -> u32 c' -> update c b = update c' b -> c = c'.
Proof.
  intros Hc Hc' E. unfold update in E.
  apply iter_step_inj in E; [|apply u32_lxor; [assumption | apply u32_byte]..].
  now apply lxor_cancel_r in E.
Qed.

Lemma update_inj_byte c b b' : u32 c -> update c b = update c b' -> b = b'.
Proof.
  intros Hc E. unfold update in E.
  apply iter_step_inj in E; [|apply u32_lxor; [assumption | apply u32_byte]..].
  apply lxor_cancel_l in E. now apply Z_of_byte_inj.
Qed.

Lemma u32_fold data : forall c, u32 c -> u32 (fold_left update data c).
Proof.
  induction data as [|b data IH]; intros c Hc; [exact Hc|].
  cbn [fold_left]. apply IH. now apply u32_update.
Qed.

Lemma fold_update_inj data : forall c c',
  u32 c -> u32 c' -> fold_left update data c = fold_left update data c' -> c = c'.
Proof.
  induction data as [|b data IH]; intros c c' Hc Hc' E; [exact E|].
  cbn [fold_left] in E. apply IH in E; [|now apply u32_update..].
  now apply update_inj_state in E.
Qed.

(** Two payloads that differ in one byte have different checksums. *)
Lemma ChecksumIEEE_one_byte (pre post : list byte) (b b' : byte) :
  b <> b' -> ChecksumIEEE (pre ++ b :: post) <> ChecksumIEEE (pre ++ b' :: post).
Proof.
  intros Hne E. unfold ChecksumIEEE in E.
  assert (u32 0xFFFFFFFF) as Hinit by (unfold u32; lia).
  rewrite !wrap32_small in E
    by (apply u32_lxor; [apply u32_fold; exact Hinit | exact Hinit]).
  apply lxor_cancel_r in E.
  rewrite !fold_left_app in E. cbn [fold_left] in E.
  pose proof (u32_fold pre _ Hinit) as Hpre.
  apply fold_update_inj in E; [|now apply u32_update..].
  apply update_inj_byte in E; [contradiction | exact Hpre].
Qed.

End Checksum.

Section Corruption.
Import journal.
Context {EncState : Type}.
Variable Decrypt : EncState -> list byte -> outcome (list byte).

(** [read] of a stored record of which one byte of the payload has
    another value than the one written. *)
Lemma read_corrupted (enc : option EncState) (pre post rest : list byte) (b b' : byte) :
  b <> b' -> len (pre ++ b :: post) < 2 ^ 32 ->
  let data := pre ++ b :: post in
  read Decrypt enc
    ((binary.PutUint32 (wrap32 (len data)) ++
      binary.PutUint32 (crc32.ChecksumIEEE data) ++ (pre ++ b' :: post)) ++ rest)
  = (Err ErrBadChecksum, rest).
Proof.
  intros Hne Hlen data.
  unfold read. rewrite <- !app_assoc.
  rewrite (ReadFull_app (binary.PutUint32 _)) by reflexivity.
  rewrite Uint32_PutUint32_exact.
  rewrite (ReadFull_app (binary.PutUint32 _)) by reflexivity.
  rewrite Uint32_PutUint32_exact.
  pose proof (len_nonneg data) as Hnn.
  assert (len data < 2 ^ 32) as Hlen' by exact Hlen.
  rewrite (wrap32_small (wrap32 (len data))) by (rewrite wrap32_small; lia).
  rewrite (wrap32_small (len data)) by lia.
  rewrite (app_assoc pre (b' :: post) rest).
  rewrite (ReadFull_app (pre ++ b' :: post)).
  2:{ subst data. rewrite !len_app. unfold len. cbn [length]. lia. }
  rewrite (wrap32_small (crc32.ChecksumIEEE data)) by apply ChecksumIEEE_range.
  destruct (Z.eqb_spec (crc32.ChecksumIEEE (pre ++ b' :: post))
              (crc32.ChecksumIEEE data)) as [E|E]; [|reflexivity].
  exfalso. symmetry in E. revert E. now apply ChecksumIEEE_one_byte.
Qed.

End Corruption.

(** * The journal: what [Replay] returns *)

Ltac jfields :=
  cbn [journal.set_storage journal.set_file journal.set_writer journal.set_seq
       journal.set_size journal.set_segment journal.set_encryptor
       journal.storage journal.current journal.file journal.writer journal.seq
       journal.size journal.maxSize journal.segment journal.encryptor
       journal.h_name journal.h_closed journal.wbuf journal.werr].
Tactic Notation "jfields" "in" "*" :=
  cbn [journal.set_storage journal.set_file journal.set_writer journal.set_seq
       journal.set_size journal.set_segment journal.set_encryptor
       journal.storage journal.current journal.file journal.writer journal.seq
       journal.size journal.maxSize journal.segment journal.encryptor
       journal.h_name journal.h_closed journal.wbuf journal.werr] in *.
Tactic Notation "jfields" "in" hyp(H) :=
  cbn [journal.set_storage journal.set_file journal.set_writer journal.set_seq
       journal.set_size journal.set_segment journal.set_encryptor
       journal.storage journal.current journal.file journal.writer journal.seq
       journal.size journal.maxSize journal.segment journal.encryptor
       journal.h_name journal.h_closed journal.wbuf journal.werr] in H.

Section JournalLog.
Import journal.
Context {EncState : Type}.
Variable Encrypt : EncState -> list byte -> EncState * outcome (list byte).
Variable Decrypt : EncState -> list byte -> outcome (list byte).
Variable overhead : Z.
Hypothesis Encrypt_total :
  forall s p, exists s' c, Encrypt s p = (s', Ok c).
Hypothesis Decrypt_Encrypt :
  forall s p s' c, Encrypt s p = (s', Ok c) -> Decrypt s' c = Ok p.
Hypothesis Decrypt_stable :
  forall s p s' r c, Encrypt s p = (s', r) -> Decrypt s' c = Decrypt s c.
Hypothesis Encrypt_len :
  forall s p s' c, Encrypt s p = (s', Ok c) -> len c <= len p + overhead.
Hypothesis overhead_nonneg : 0 <= overhead.

Abbreviation Jn := (@Journal EncState).
Abbreviation Recs := (list (Entry * list byte)).

(** The bytes the writer still holds. *)
Definition pending (j : Jn) : list byte :=
  match writer j with
  | Some w => wbuf w
  | None => []
  end.

(** What a file holds once the writer is flushed. *)
Definition view (j : Jn) (name : string) : option (list byte) :=
  match storage j !! name with
  | Some d => Some (if String.eqb name (current j) then d ++ pending j else d)
  | None => None
  end.

(** The name of the segment at index [i] of the log. *)
Definition seg_name (i : nat) : string := segmentName (Z.of_nat i + 1).

(** [logged j n segs]: the journal has written [n] entries, and [segs]
    lists, segment by segment, the records it wrote. *)
Definition logged (j : Jn) (n : Z) (segs : list Recs) : Prop :=
  inv Decrypt j n /\
  Z.of_nat (length segs) = segment j /\
  (forall i recs, segs !! i = Some recs -> view j (seg_name i) = Some (encode recs)) /\
  Forall (Forall (rec_ok Decrypt (encryptor j) n)) segs.

Definition entries (segs : list Recs) : list Entry := map fst (concat segs).

Lemma entries_snoc_seg (segs : list Recs) (recs : Recs) :
  entries (segs ++ [recs]) = entries segs ++ map fst recs.
Proof. unfold entries. now rewrite concat_app, map_app; cbn; rewrite app_nil_r. Qed.

Lemma entries_snoc_rec (init : list Recs) (last : Recs) (ec : Entry * list byte) :
  entries (init ++ [last ++ [ec]]) = entries (init ++ [last]) ++ [fst ec].
Proof.
  rewrite !entries_snoc_seg, map_app. cbn [map]. now rewrite app_assoc.
Qed.

Lemma seg_name_inj (i k : nat) :
  Z.of_nat i + 1 <= 2 ^ 63 - 1 -> Z.of_nat k + 1 <= 2 ^ 63 - 1 ->
  seg_name i = seg_name k -> i = k.
Proof.
  intros Hi Hk E. apply segmentName_inj in E; lia.
Qed.

Lemma encode_snoc (recs : Recs) (ec : Entry * list byte) :
  encode (recs ++ [ec]) = encode recs ++ frame (snd ec).
Proof. rewrite encode_app. unfold encode at 2. cbn. now rewrite app_nil_r. Qed.

(** ** [newSegment] flushes the active segment and opens an empty one *)

Lemma newSegment_view (j : Jn) (n : Z) (st' : Storage) j' :
  active_ok Decrypt j n ->
  newSegment j = (j', Ok tt) -> storage j' = st' ->
  forall name, name <> segmentName (wrapInt (segment j + 1)) ->
               st' !! name = view j name.
Proof.
  intros (w & h & d & Hw & Hf & Hc & Hn & He & Hb & Hd & _) E <- name Hne.
  unfold newSegment in E. rewrite Hf, Hw in E.
  rewrite <- Hn in Hd.
  destruct (Flush_ok (storage j) h w d Hc Hd He) as (st1 & F1 & F2 & F3).
  rewrite F1 in E. jfields in E.
  unfold Sync in E. rewrite <- Hn, F2 in E.
  unfold file_Close in E. rewrite Hc in E. jfields in E.
  unfold Create in E.
  assert (view j name = st1 !! name) as Hview.
  { unfold view, pending. rewrite Hw, <- Hn.
    destruct (String.eqb_spec name (h_name h)) as [->|Ne].
    - now rewrite Hd, F2.
    - rewrite (F3 _ Ne). now destruct (storage j !! name). }
  rewrite Hview.
  destruct (st1 !! segmentName (wrapInt (segment j + 1))) eqn:Ex.
  - discriminate E.
  - injection E as <-. jfields. now rewrite lookup_insert_ne by congruence.
Qed.


Lemma view_other (j : Jn) (name : string) :
  name <> current j -> view j name = storage j !! name.
Proof.
  intros Hne. unfold view. apply String.eqb_neq in Hne. rewrite Hne.
  now destruct (storage j !! name).
Qed.

Lemma view_current (j : Jn) (d : list byte) :
  storage j !! current j = Some d -> view j (current j) = Some (d ++ pending j).
Proof. intros H. unfold view. now rewrite H, String.eqb_refl. Qed.

Lemma logged_nonempty (j : Jn) (n : Z) (segs : list Recs) :
  logged j n segs ->
  exists init last, segs = init ++ [last] /\ seg_name (length init) = current j.
Proof.
  intros ((_ & Hcur & (Hseg & _) & _) & Hlen & _).
  destruct segs as [|x segs] using rev_ind; [cbn in Hlen; lia|].
  exists segs, x. split; [reflexivity|].
  rewrite length_app in Hlen. cbn [length] in Hlen.
  unfold seg_name. rewrite Hcur. f_equal. lia.
Qed.

(** ** [append] adds one record to the last segment, or to a new one *)

Lemma append_logged (j : Jn) (n : Z) (segs : list Recs) (e : Entry) :
  logged j n segs -> fits overhead e -> Seq e = n + 1 ->
  n + 2 <= 2 ^ 63 - 1 -> 0 <= n ->
  exists j' segs',
    append Encrypt j e = (j', Ok tt) /\ logged j' (n + 1) segs' /\
    entries segs' = entries segs ++ [e] /\
    seq j' = seq j /\ maxSize j' = maxSize j.
Proof.
  intros Hlog Hfit Hseq Hmax Hn0.
  destruct (logged_nonempty j n segs Hlog) as (init & last & Hsegs & Hlastname).
  destruct Hlog as (Hinv & Hlen & Hview & Hrecs).
  destruct (append_ok Encrypt Decrypt overhead Encrypt_total Decrypt_Encrypt
              Decrypt_stable Encrypt_len overhead_nonneg j n e Hinv Hfit Hseq Hmax Hn0)
    as (j' & E & Hinv' & Hseq' & Hmx').
  pose proof E as E0.
  pose proof Hinv as (Hact & Hcur & Hdir & Hsegn).
  pose proof Hdir as (Hsegrange & _ & _).
  assert (forall ec enc', enc_step Encrypt (encryptor j) enc' ->
            decrypt_opt Decrypt enc' (snd ec) = Ok (entry_body (fst ec)) ->
            len (snd ec) <= len (entry_body (fst ec)) + overhead ->
            fst ec = e ->
            rec_ok Decrypt enc' (n + 1) ec) as Hnewrec.
  { intros [e0 c] enc' _ Hd Hl He. cbn [fst snd] in *. subst e0.
    unfold rec_ok. cbn [fst snd]. rewrite len_entry_body in Hl.
    pose proof (len_nonneg (Key e)). pose proof (len_nonneg (Value e)).
    unfold fits in Hfit. repeat split; try assumption; lia. }
  assert (forall enc', enc_step Encrypt (encryptor j) enc' ->
            Forall (Forall (rec_ok Decrypt enc' (n + 1))) segs) as Hold.
  { intros enc' Hstep. eapply Forall_impl; [exact Hrecs|]. intros recs Hr.
    eapply Forall_impl; [exact Hr|]. intros ec Hec.
    eapply (rec_ok_mono Encrypt Decrypt Decrypt_stable); [exact Hstep | | exact Hec]. lia. }
  unfold append in E.
  destruct (maxSize j <=? size j).
  - (* the segment is full: the record opens a new one *)
    destruct (newSegment_ok Decrypt j n Hact Hcur Hdir ltac:(lia))
      as (st1 & E1 & Hnew & Hdir1).
    pose proof (newSegment_view j n st1 _ Hact E1 eq_refl) as Hv1.
    rewrite wrapInt_small in Hv1 by lia.
    rewrite E1 in E.
    set (h1 := {| h_name := segmentName (segment j + 1); h_closed := false |}) in *.
    set (j1 := mkJournal st1 _ _ _ _ _ _ _ _) in *.
    destruct (write_ok Encrypt Decrypt overhead Encrypt_total Decrypt_Encrypt
                Encrypt_len overhead_nonneg j1 e NewWriter h1 []
                eq_refl eq_refl eq_refl eq_refl
                ltac:(unfold bufSize, len; cbn; lia) Hnew)
      as (c & enc' & st' & w' & d' & W1 & W2 & W3 & W4 & W5 & W6 & W7 & W8 & W9).
    rewrite W1 in E. injection E as <-. subst j1 h1. jfields in *.
    eexists; exists (segs ++ [[(e, c)]]).
    split; [exact E0|]. split; [|split; [|split; [reflexivity|reflexivity]]].
    + split; [exact Hinv'|]. jfields.
      split; [rewrite length_app; cbn [length]; lia|]. split.
      * intros i recs Hi.
        destruct (lookup_app_Some segs [[(e, c)]] i recs) as [Hcases _].
        destruct (Hcases Hi) as [Hi1|[Hge Hi2]].
        -- pose proof (lookup_lt_Some _ _ _ Hi1) as Hlt.
           assert (seg_name i <> segmentName (segment j + 1)) as Hne.
           { unfold seg_name. intros Heq. apply segmentName_inj in Heq; lia. }
           rewrite view_other by (jfields; exact Hne). jfields.
           rewrite (W9 _ Hne), (Hv1 _ Hne). now apply Hview.
        -- destruct (i - length segs)%nat as [|k] eqn:Ek; [|destruct k; discriminate].
           cbn in Hi2. injection Hi2 as <-.
           assert (seg_name i = segmentName (segment j + 1)) as ->
             by (unfold seg_name; f_equal; lia).
           unfold view, pending. jfields. rewrite W7, String.eqb_refl.
           rewrite W8. cbn [wbuf NewWriter app]. unfold encode. cbn.
           now rewrite app_nil_r.
      * apply Forall_app. split; [now apply Hold|].
        constructor; [|constructor]. constructor; [|constructor].
        now apply Hnewrec.
    + rewrite entries_snoc_seg. reflexivity.
  - (* room left: the record joins the last segment *)
    destruct Hact as (w & h & d & Hw & Hf & Hc & Hnm & He & Hb & Hd & Hsegok).
    rewrite <- Hnm in Hd.
    destruct (write_ok Encrypt Decrypt overhead Encrypt_total Decrypt_Encrypt
                Encrypt_len overhead_nonneg j e w h d Hw Hf Hc He Hb Hd)
      as (c & enc' & st' & w' & d' & W1 & W2 & W3 & W4 & W5 & W6 & W7 & W8 & W9).
    rewrite W1 in E. injection E as <-. jfields in *.
    eexists; exists (init ++ [last ++ [(e, c)]]).
    split; [exact E0|]. split; [|split; [|split; [reflexivity|reflexivity]]].
    + split; [exact Hinv'|]. jfields.
      split; [subst segs; rewrite length_app in *; cbn [length] in *; lia|]. split.
      * intros i recs Hi.
        destruct (lookup_app_Some init [last ++ [(e, c)]] i recs) as [Hcases _].
        destruct (Hcases Hi) as [Hi1|[Hge Hi2]].
        -- pose proof (lookup_lt_Some _ _ _ Hi1) as Hlt.
           assert (seg_name i <> current j) as Hne.
           { rewrite <- Hlastname. intros Heq. apply seg_name_inj in Heq; [lia| |].
             - subst segs. rewrite length_app in Hlen. cbn [length] in Hlen. lia.
             - subst segs. rewrite length_app in Hlen. cbn [length] in Hlen. lia. }
           rewrite view_other by (jfields; exact Hne). jfields.
           rewrite W9 by (rewrite Hnm; exact Hne).
           rewrite <- (view_other j _ Hne). apply Hview.
           subst segs. now apply lookup_app_l_Some.
        -- destruct (i - length init)%nat as [|k] eqn:Ek; [|destruct k; discriminate].
           cbn in Hi2. injection Hi2 as <-.
           assert (i = length init) as -> by lia.
           rewrite Hlastname.
           assert (view j (current j) = Some (encode last)) as Hvl.
           { rewrite <- Hlastname. apply Hview. subst segs.
             rewrite lookup_app_r by lia. now rewrite Nat.sub_diag. }
           rewrite <- Hnm in Hvl. unfold view in Hvl. rewrite Hd in Hvl.
           rewrite Hnm, String.eqb_refl in Hvl. unfold pending in Hvl.
           rewrite Hw in Hvl. injection Hvl as Hvl.
           unfold view, pending. jfields. rewrite <- Hnm, W7, Hnm, String.eqb_refl.
           rewrite W8, app_assoc, Hvl, encode_snoc. reflexivity.
      * subst segs. apply Forall_app. specialize (Hold enc' W2).
        apply Forall_app in Hold as [Hinit Hlast]. split; [exact Hinit|].
        constructor; [|constructor]. apply Forall_app.
        apply Forall_cons in Hlast as [Hlast _]. split; [exact Hlast|].
        constructor; [|constructor]. now apply Hnewrec.
    + subst segs. apply entries_snoc_rec.
Qed.


Lemma logged_set_seq (j : Jn) (n s : Z) (segs : list Recs) :
  logged j n segs -> logged (set_seq j s) n segs.
Proof. intros H. exact H. Qed.

Lemma Write_logged (j : Jn) (n : Z) (segs : list Recs) (key value : list byte) :
  logged j n segs -> seq j = n -> 0 <= n -> n + 2 <= 2 ^ 63 - 1 ->
  16 + len key + len value + overhead < 2 ^ 32 ->
  exists j' segs',
    Write Encrypt j key value = (j', Ok (n + 1)) /\ logged j' (n + 1) segs' /\
    entries segs' = entries segs ++ [{| Key := key; Value := value; Seq := n + 1 |}] /\
    seq j' = n + 1.
Proof.
  intros Hlog Hseq Hn Hmax Hfit. unfold Write.
  assert (wrap64 (seq j + 1) = n + 1) as Hs by (rewrite Hseq; apply wrap64_small; lia).
  jfields. rewrite Hs.
  destruct (append_logged (set_seq j (n + 1)) n segs
              {| Key := key; Value := value; Seq := n + 1 |}
              (logged_set_seq j n _ segs Hlog) Hfit eq_refl Hmax Hn)
    as (j' & segs' & E & Hlog' & Hent & Hseq' & _).
  rewrite E. exists j', segs'. cbn [Seq]. jfields in Hseq'. auto.
Qed.

Lemma WriteBatch_loop_logged (todo : list Entry) :
  forall (j : Jn) (n : Z) (segs : list Recs) (done : list Entry) (seqs : list Z),
  logged j n segs -> seq j = n -> 0 <= n -> n + len todo + 1 <= 2 ^ 63 - 1 ->
  Forall (fits overhead) todo ->
  exists j' segs',
    WriteBatch_loop Encrypt j done todo seqs =
      (j', done ++ stamp n todo, Ok (seqs ++ count_from n (length todo))) /\
    logged j' (n + len todo) segs' /\
    entries segs' = entries segs ++ stamp n todo /\
    seq j' = n + len todo.
Proof.
  induction todo as [|e todo IH]; intros j n segs done seqs Hlog Hseq Hn Hmax Hfits.
  - exists j, segs. cbn [WriteBatch_loop stamp count_from length].
    change (len (@nil Entry)) with 0. rewrite !app_nil_r, Z.add_0_r. auto.
  - assert (len (e :: todo) = len todo + 1) as Hlen
      by (unfold len; cbn [length]; lia).
    pose proof (len_nonneg todo) as Hnn. rewrite Hlen in *.
    apply Forall_cons in Hfits as [Hfit Hfits].
    cbn [WriteBatch_loop]. jfields.
    assert (wrap64 (seq j + 1) = n + 1) as Hs
      by (rewrite Hseq; apply wrap64_small; lia).
    rewrite Hs.
    destruct (append_logged (set_seq j (n + 1)) n segs
                {| Key := Key e; Value := Value e; Seq := n + 1 |}
                (logged_set_seq j n _ segs Hlog) Hfit eq_refl ltac:(lia) Hn)
      as (j1 & segs1 & E & Hlog1 & Hent1 & Hseq1 & _).
    rewrite E. jfields in Hseq1.
    destruct (IH j1 (n + 1) segs1
                (done ++ [{| Key := Key e; Value := Value e; Seq := n + 1 |}])
                (seqs ++ [n + 1]) Hlog1 Hseq1 ltac:(lia) ltac:(lia) Hfits)
      as (j' & segs' & E' & Hlog' & Hent' & Hseq').
    exists j', segs'. rewrite E'. cbn [stamp count_from length].
    rewrite <- !app_assoc. cbn [app].
    split; [reflexivity|].
    replace (n + (len todo + 1)) with (n + 1 + len todo) by lia.
    split; [exact Hlog'|]. split; [|exact Hseq'].
    rewrite Hent', Hent1, <- app_assoc. reflexivity.
Qed.

(** ** [Sync], and [Close] followed by [New] *)

Lemma flushed_storage (j : Jn) (n : Z) (w : BufWriter) (h : Handle) (d : list byte)
    (st1 : Storage) :
  writer j = Some w -> h_name h = current j -> storage j !! h_name h = Some d ->
  st1 !! h_name h = Some (d ++ wbuf w) ->
  (forall name, name <> h_name h -> st1 !! name = storage j !! name) ->
  forall name, st1 !! name = view j name.
Proof.
  intros Hw Hn Hd F2 F3 name. unfold view, pending. rewrite Hw, <- Hn.
  destruct (String.eqb_spec name (h_name h)) as [->|Ne].
  - now rewrite Hd, F2.
  - rewrite (F3 _ Ne). now destruct (storage j !! name).
Qed.

Lemma Sync_logged (j : Jn) (n : Z) (segs : list Recs) :
  logged j n segs ->
  exists j',
    Sync_journal j = (j', Ok tt) /\ logged j' n segs /\ pending j' = [] /\
    seq j' = seq j.
Proof.
  intros (Hinv & Hlen & Hview & Hrecs).
  pose proof Hinv as ((w & h & d & Hw & Hf & Hc & Hnm & He & Hb & Hd & Hseg)
                      & Hcur & Hdir & Hle).
  unfold Sync_journal. rewrite Hw, Hf. rewrite <- Hnm in Hd.
  destruct (Flush_ok (storage j) h w d Hc Hd He) as (st1 & F1 & F2 & F3).
  rewrite F1. jfields. unfold Sync. rewrite <- Hnm, F2.
  eexists. split; [reflexivity|].
  pose proof (flushed_storage j n w h d st1 Hw Hnm Hd F2 F3) as Hst.
  split; [|split; reflexivity].
  split; [|split; [exact Hlen|split; [|exact Hrecs]]].
  - unfold inv. jfields. split; [|split; [exact Hcur|split; [|exact Hle]]].
    + exists NewWriter, h, (d ++ wbuf w). jfields.
      repeat (split; [first [reflexivity | assumption
                            | (unfold bufSize, len; cbn; lia)]|]).
      split; [now rewrite <- Hnm|].
      cbn [NewWriter wbuf]. now rewrite app_nil_r.
    + destruct Hdir as (Hs & Hnames & Hact). split; [exact Hs|]. split.
      * intros name [x Hx]. apply Hnames.
        destruct (decide (name = h_name h)) as [->|Ne]; [rewrite Hd; eauto|].
        rewrite <- (F3 _ Ne), Hx. eauto.
      * rewrite <- Hcur, <- Hnm, F2. eauto.
  - intros i recs Hi. rewrite <- (Hview i recs Hi), <- Hst.
    unfold view, pending. jfields. cbn [NewWriter wbuf].
    destruct (st1 !! seg_name i); [|reflexivity].
    rewrite app_nil_r. now destruct (String.eqb _ _).
Qed.

Lemma New_latest (st : Storage) (seg n : Z) (enc : option EncState) (maxSz : Z) :
  closed_ok Decrypt st seg n enc -> 0 <= n < 2 ^ 64 ->
  exists d,
    st !! segmentName seg = Some d /\
    New Decrypt st maxSz enc =
      Ok (mkJournal st (segmentName seg)
            (Some {| h_name := segmentName seg; h_closed := false |})
            (Some NewWriter) n (len d)
            (if maxSz =? 0 then 64 * 1024 * 1024 else maxSz) seg enc).
Proof.
  intros ((Hseg & Hnames & Hact) & d & Hd & Hsegok) Hn.
  exists d. split; [exact Hd|].
  unfold New, openLatest. jfields.
  assert (In (segmentName seg) (List st)) as Hin.
  { apply In_List. split; [exact Hact|]. apply has_suffix_app. }
  destruct (List st) as [|nm names] eqn:EL; [destruct Hin|].
  rewrite <- EL in Hin |- *.
  change (fold_left _ (List st) 0) with (fold_left pick_latest (List st) 0).
  rewrite (fold_pick_latest seg (List st) Hseg); [|  | lia | now right].
  2:{ intros name Hname. apply In_List in Hname as [Hs _]. now apply Hnames. }
  unfold scan. jfields. unfold Open, io.Reader. rewrite Hd.
  rewrite (scan_segment_ok Decrypt enc n d Hsegok Hn). jfields.
  unfold OpenAppend. rewrite Hd. reflexivity.
Qed.

Lemma reopen_logged (j : Jn) (n : Z) (segs : list Recs) (maxSz : Z) :
  logged j n segs -> 0 <= n < 2 ^ 64 ->
  exists j1 j2,
    Close j = (j1, None) /\
    New Decrypt (storage j1) maxSz (encryptor j1) = Ok j2 /\
    logged j2 n segs /\ seq j2 = n /\
    file j1 = Some {| h_name := current j; h_closed := true |} /\
    writer j1 = Some NewWriter /\ seq j1 = seq j /\ size j1 = size j /\
    maxSize j1 = maxSize j /\ current j1 = current j /\
    (forall name, storage j1 !! name = view j name).
Proof.
  intros (Hinv & Hlen & Hview & Hrecs) Hn.
  destruct (Close_ok Decrypt j n Hinv) as (j1 & E & Hclosed & Henc).
  pose proof Hinv as ((w & h & d & Hw & Hf & Hc & Hnm & He & Hb & Hd & Hseg)
                      & Hcur & Hdir & Hle).
  pose proof E as E0. unfold Close in E. rewrite Hw, Hf in E. rewrite <- Hnm in Hd.
  destruct (Flush_ok (storage j) h w d Hc Hd He) as (st1 & F1 & F2 & F3).
  rewrite F1 in E. jfields in E. rewrite Hf in E. unfold file_Close in E.
  rewrite Hc in E. injection E as <-. jfields in *.
  pose proof (flushed_storage j n w h d st1 Hw Hnm Hd F2 F3) as Hst.
  destruct (New_latest st1 (segment j) n (encryptor j) maxSz Hclosed Hn)
    as (d1 & Hd1 & EN).
  destruct (New_reopen Decrypt st1 (segment j) n (encryptor j) maxSz Hclosed Hn Hle)
    as (j2 & EN' & Hinv2 & Hseq2 & Henc2 & Hst2).
  rewrite EN in EN'. injection EN' as <-.
  eexists _, _. split; [exact E0|]. jfields. split; [exact EN|].
  split; [|split; [reflexivity|]].
  - split; [exact Hinv2|]. jfields. split; [exact Hlen|]. split; [|exact Hrecs].
    intros i recs Hi. rewrite <- (Hview i recs Hi), <- Hst.
    unfold view, pending. jfields. cbn [NewWriter wbuf].
    destruct (st1 !! seg_name i); [|reflexivity].
    rewrite app_nil_r. now destruct (String.eqb _ _).
  - rewrite Hnm. repeat split; try reflexivity. exact Hst.
Qed.


(** ** [Replay] over the segments of a log *)

(** The callback of [Replay] applied to entries in turn, until it
    returns an error. *)
Fixpoint feed {A} (fn : A -> Entry -> A * option error) (es : list Entry) (a : A)
  : A * outcome unit :=
  match es with
  | [] => (a, Ok tt)
  | e :: es' =>
      match fn a e with
      | (a', Some err) => (a', Err err)
      | (a', None) => feed fn es' a'
      end
  end.

Lemma feed_app {A} (fn : A -> Entry -> A * option error) (xs ys : list Entry) :
  forall a,
  feed fn (xs ++ ys) a =
    match feed fn xs a with
    | (a', Ok _) => feed fn ys a'
    | r => r
    end.
Proof.
  induction xs as [|x xs IH]; intros a; [reflexivity|].
  cbn [app feed]. destruct (fn a x) as [a' [err|]]; [reflexivity | apply IH].
Qed.

Lemma feed_not_Panic {A} (fn : A -> Entry -> A * option error) (es : list Entry) :
  forall a a', feed fn es a <> (a', Panic).
Proof.
  induction es as [|e es IH]; intros a a'; cbn [feed]; [discriminate|].
  destruct (fn a e) as [a1 [err|]]; [discriminate | apply IH].
Qed.

Lemma Entry_eta (e : Entry) : {| Key := Key e; Value := Value e; Seq := Seq e |} = e.
Proof. now destruct e. Qed.

Lemma replay_loop_encode {A} (enc : option EncState) (n : Z) (recs : Recs)
    (fn : A -> Entry -> A * option error) :
  Forall (rec_ok Decrypt enc n) recs -> n < 2 ^ 64 ->
  forall (turns : nat) (a : A), (length recs < turns)%nat ->
  replay_loop Decrypt turns enc fn (encode recs) a = Some (feed fn (map fst recs) a).
Proof.
  intros Hall Hn. induction Hall as [|ec recs Hec Hall IH]; intros turns a Ht.
  - destruct turns as [|k]; [cbn in Ht; lia|]. reflexivity.
  - destruct turns as [|k]; [cbn in Ht; lia|].
    cbn [replay_loop]. unfold encode. cbn [map concat]. fold (encode recs).
    rewrite (read_rec_ok Decrypt enc n ec _ Hec Hn), Entry_eta. cbn [feed].
    destruct (fn a (fst ec)) as [a' [err|]]; [reflexivity|].
    apply IH. cbn [length] in Ht. lia.
Qed.

Lemma replay_segments_log {A} (st : Storage) (enc : option EncState) (n : Z)
    (fn : A -> Entry -> A * option error) (segs : list Recs) :
  n < 2 ^ 64 ->
  Forall (Forall (rec_ok Decrypt enc n)) segs ->
  forall (k : nat) (a : A),
  (forall i recs, segs !! i = Some recs -> st !! seg_name (k + i) = Some (encode recs)) ->
  replay_segments Decrypt st enc fn (map seg_name (List.seq k (length segs))) a =
    feed fn (entries segs) a.
Proof.
  intros Hn Hall. induction Hall as [|recs segs Hrecs Hall IH]; intros k a Hst.
  - reflexivity.
  - cbn [length List.seq map replay_segments].
    pose proof (Hst 0%nat recs eq_refl) as H0. rewrite Nat.add_0_r in H0.
    unfold Open, io.Reader. rewrite H0.
    rewrite (replay_loop_encode enc n recs fn Hrecs Hn)
      by (pose proof (length_encode recs); lia).
    unfold entries. cbn [concat]. rewrite map_app, feed_app.
    destruct (feed fn (map fst recs) a) as [a' [[]|err|]] eqn:Ef.
    + apply IH. intros i r Hi.
      replace (S k + i)%nat with (k + S i)%nat by lia. now apply Hst.
    + reflexivity.
    + now apply feed_not_Panic in Ef.
Qed.

(** ** The names that [List] returns *)

Lemma insert_sorted_Permutation (x : Z) (l : list Z) :
  insert_sorted Z.leb x l ≡ₚ x :: l.
Proof.
  induction l as [|y l IH]; [reflexivity|].
  cbn [insert_sorted]. destruct (x <=? y); [reflexivity|].
  rewrite IH. apply Permutation_swap.
Qed.

Lemma insert_sorted_Sorted (x : Z) (l : list Z) :
  Sorted Z.le l -> Sorted Z.le (insert_sorted Z.leb x l).
Proof.
  induction 1 as [|y l Hl IH Hhd]; cbn [insert_sorted].
  - repeat constructor.
  - destruct (Z.leb_spec x y).
    + constructor; [now constructor|]. now constructor.
    + constructor; [exact IH|].
      destruct l as [|z l]; cbn [insert_sorted].
      * constructor. lia.
      * destruct (Z.leb_spec x z); constructor; [lia|].
        now inversion Hhd.
Qed.

Lemma sort_by_Permutation (l : list Z) : sort_by Z.leb l ≡ₚ l.
Proof.
  induction l as [|x l IH]; [reflexivity|].
  unfold sort_by in *. cbn [foldr]. rewrite insert_sorted_Permutation.
  now constructor.
Qed.

Lemma sort_by_Sorted (l : list Z) : Sorted Z.le (sort_by Z.leb l).
Proof.
  induction l as [|x l IH]; [constructor|].
  unfold sort_by in *. cbn [foldr]. now apply insert_sorted_Sorted.
Qed.

Lemma sort_by_unique (l l' : list Z) :
  Sorted Z.le l' -> l ≡ₚ l' -> sort_by Z.leb l = l'.
Proof.
  intros Hs Hp. apply (Sorted_unique Z.le); [apply sort_by_Sorted | exact Hs|].
  now rewrite sort_by_Permutation.
Qed.

(** The numbers 1 to [m]. *)
Definition numbers (m : nat) : list Z := map (fun i => Z.of_nat i + 1) (List.seq 0 m).

Lemma numbers_Sorted (m : nat) : Sorted Z.le (numbers m).
Proof.
  unfold numbers. generalize 0%nat.
  induction m as [|m IH]; intros k; [constructor|].
  cbn [List.seq map]. constructor; [apply IH|].
  destruct m; cbn [List.seq map]; constructor. lia.
Qed.

Lemma In_numbers (m : nat) (k : Z) : In k (numbers m) <-> 1 <= k <= Z.of_nat m.
Proof.
  unfold numbers. rewrite in_map_iff. split.
  - intros (i & <- & Hi). apply in_seq in Hi. lia.
  - intros Hk. exists (Z.to_nat (k - 1)). split; [lia|]. apply in_seq. lia.
Qed.

Lemma NoDup_numbers (m : nat) : NoDup (numbers m).
Proof.
  unfold numbers. apply NoDup_fmap_2; [|apply NoDup_seq].
  intros a b H. lia.
Qed.

Lemma map_segmentName_numbers (m : nat) :
  map segmentName (numbers m) = map seg_name (List.seq 0 m).
Proof. unfold numbers. now rewrite map_map. Qed.

Lemma sort_Strings_segmentNames (ks : list Z) :
  Forall (fun k => 1 <= k <= 999999) ks ->
  sort_Strings (map segmentName ks) = map segmentName (sort_by Z.leb ks).
Proof.
  intros H. unfold sort_Strings. apply sort_by_map. intros x y Hx Hy.
  rewrite List.Forall_forall in H.
  pose proof (H x Hx). pose proof (H y Hy).
  unfold String.leb, Z.leb. rewrite segmentName_compare by lia. reflexivity.
Qed.

Lemma NoDup_List_filter {B} (f : B -> bool) (l : list B) :
  NoDup l -> NoDup (List.filter f l).
Proof.
  induction 1 as [|x l Hx Hl IH]; cbn [List.filter]; [constructor|].
  destruct (f x); [|exact IH]. constructor; [|exact IH].
  rewrite list_elem_of_In, filter_In. intros [Hin _].
  now apply list_elem_of_In in Hin.
Qed.

(** A directory that holds the segments 1 to [m] and nothing else is
    listed in the order of the numbers, and sorting the list again does
    not change it. *)
Lemma List_segments (st : Storage) (m : nat) :
  Z.of_nat m <= 999999 ->
  (forall name, is_Some (st !! name) ->
                exists k, 1 <= k <= Z.of_nat m /\ name = segmentName k) ->
  (forall k, 1 <= k <= Z.of_nat m -> is_Some (st !! segmentName k)) ->
  List st = map seg_name (List.seq 0 m) /\
  sort_Strings (List st) = map seg_name (List.seq 0 m).
Proof.
  intros Hm Hnames Hall.
  set (raw := List.filter (has_suffix ".wal") (map fst (map_to_list st))).
  set (ks := map (fun nm => default 0 (fmt.Sscanf_d_wal nm)) raw).
  assert (forall nm, In nm raw <-> is_Some (st !! nm)) as Hraw.
  { intros nm. subst raw. rewrite filter_In, in_map_iff. split.
    - intros [([k v] & <- & H) _]. apply list_elem_of_In, elem_of_map_to_list in H.
      cbn [fst]. eauto.
    - intros Hs. pose proof Hs as [v Hv]. split.
      + exists (nm, v). split; [reflexivity|].
        now apply list_elem_of_In, elem_of_map_to_list.
      + destruct (Hnames nm Hs) as (k & _ & ->). apply has_suffix_app. }
  assert (map segmentName ks = raw) as Hks.
  { subst ks. rewrite map_map. rewrite <- (map_id raw) at 2.
    apply map_ext_in. intros nm Hnm. apply Hraw in Hnm.
    destruct (Hnames nm Hnm) as (k & Hk & ->).
    rewrite Sscanf_segmentName by lia. reflexivity. }
  assert (forall k, In k ks <-> 1 <= k <= Z.of_nat m) as Hin.
  { intros k. subst ks. rewrite in_map_iff. split.
    - intros (nm & <- & Hnm). apply Hraw in Hnm.
      destruct (Hnames nm Hnm) as (k & Hk & ->).
      rewrite Sscanf_segmentName by lia. exact Hk.
    - intros Hk. exists (segmentName k). split.
      + rewrite Sscanf_segmentName by lia. reflexivity.
      + apply Hraw. now apply Hall. }
  assert (NoDup ks) as Hnd.
  { assert (NoDup raw) as Hndraw.
    { subst raw. apply NoDup_List_filter. apply (NoDup_fst_map_to_list st). }
    rewrite <- Hks in Hndraw. now apply NoDup_fmap_1 in Hndraw. }
  assert (ks ≡ₚ numbers m) as Hperm.
  { apply NoDup_Permutation; [exact Hnd | apply NoDup_numbers|].
    intros k. rewrite !list_elem_of_In, Hin, In_numbers. reflexivity. }
  assert (Forall (fun k => 1 <= k <= 999999) ks) as Hrange.
  { apply List.Forall_forall. intros k Hk. apply Hin in Hk. lia. }
  assert (List st = map seg_name (List.seq 0 m)) as HL.
  { unfold List. fold raw. rewrite <- Hks.
    rewrite (sort_Strings_segmentNames ks Hrange).
    rewrite (sort_by_unique ks (numbers m) (numbers_Sorted m) Hperm).
    apply map_segmentName_numbers. }
  split; [exact HL|]. rewrite HL, <- map_segmentName_numbers.
  rewrite sort_Strings_segmentNames.
  - now rewrite (sort_by_unique (numbers m) (numbers m) (numbers_Sorted m)).
  - apply List.Forall_forall. intros k Hk. apply In_numbers in Hk. lia.
Qed.

Lemma Replay_logged {A} (j : Jn) (n : Z) (segs : list Recs)
    (fn : A -> Entry -> A * option error) (a : A) :
  logged j n segs -> pending j = [] -> n < 2 ^ 64 -> segment j <= 999999 ->
  Replay Decrypt j fn a = feed fn (entries segs) a.
Proof.
  intros (Hinv & Hlen & Hview & Hrecs) Hp Hn Hseg.
  pose proof Hinv as (_ & Hcur & (Hs & Hnames & Hact) & _).
  assert (forall i recs, segs !! i = Some recs ->
            storage j !! seg_name i = Some (encode recs)) as Hst.
  { intros i recs Hi. specialize (Hview i recs Hi). unfold view in Hview.
    rewrite Hp in Hview. destruct (storage j !! seg_name i); [|discriminate].
    rewrite app_nil_r in Hview. now destruct (String.eqb _ _). }
  destruct (List_segments (storage j) (length segs)) as [_ HL]; [lia| | |].
  - intros name Hname. destruct (Hnames name Hname) as (k & Hk & ->).
    exists k. split; [lia | reflexivity].
  - intros k Hk. destruct (lookup_lt_is_Some_2 segs (Z.to_nat (k - 1))) as [recs Hr]; [lia|].
    specialize (Hst _ _ Hr). unfold seg_name in Hst.
    replace (Z.of_nat (Z.to_nat (k - 1)) + 1) with k in Hst by lia.
    rewrite Hst. eauto.
  - unfold Replay. rewrite HL.
    apply (replay_segments_log (storage j) (encryptor j) n fn segs Hn Hrecs 0%nat a).
    intros i recs Hi. now apply Hst.
Qed.


(** ** Histories *)

(** The entries a history writes, with the sequence numbers they get
    when [n] entries were written before it. *)
Fixpoint history (ops : list op) (n : Z) : list Entry :=
  match ops with
  | [] => []
  | OpWrite key value :: ops' =>
      {| Key := key; Value := value; Seq := n + 1 |} :: history ops' (n + 1)
  | OpWriteBatch es :: ops' => stamp n es ++ history ops' (n + len es)
  | OpReopen _ :: ops' => history ops' n
  end.

Lemma map_Seq_stamp (es : list Entry) :
  forall n, map Seq (stamp n es) = count_from n (length es).
Proof.
  induction es as [|e es IH]; intros n; [reflexivity|].
  cbn [stamp map count_from length Seq]. now rewrite IH.
Qed.

Lemma map_Seq_history (ops : list op) :
  forall n, map Seq (history ops n) = count_from n (total_entries ops).
Proof.
  induction ops as [|o ops IH]; intros n; [reflexivity|].
  rewrite total_entries_cons.
  destruct o as [key value|es|maxSz]; cbn [history entries_of map Seq].
  - cbn [Nat.add count_from]. now rewrite IH.
  - rewrite map_app, map_Seq_stamp, IH, count_from_app. do 2 f_equal.
  - apply IH.
Qed.

Lemma New_empty_logged (enc : option EncState) (maxSz : Z) :
  exists j,
    New Decrypt ∅ maxSz enc = Ok j /\ logged j 0 [[]] /\ seq j = 0 /\
    encryptor j = enc.
Proof.
  destruct (New_empty Decrypt enc maxSz) as (j & E & Hinv & Hseq & Henc).
  exists j. split; [exact E|]. split; [|split; assumption].
  unfold New, openLatest in E. jfields in E.
  assert (List (∅ : Storage) = []) as HL by reflexivity.
  rewrite HL in E. unfold newSegment in E. jfields in E.
  change (wrapInt (0 + 1)) with 1 in E.
  unfold Create in E. rewrite lookup_empty in E. injection E as <-.
  split; [exact Hinv|]. jfields. split; [reflexivity|]. split.
  - intros i recs Hi. destruct i as [|i]; [|discriminate].
    injection Hi as <-. unfold view, pending, seg_name. jfields.
    change (Z.of_nat 0 + 1) with 1.
    now rewrite lookup_insert_eq, String.eqb_refl.
  - repeat constructor.
Qed.

Lemma run_logged (ops : list op) :
  forall (j : Jn) (n : Z) (segs : list Recs),
  logged j n segs -> seq j = n -> 0 <= n ->
  n + Z.of_nat (total_entries ops) + 1 <= 2 ^ 63 - 1 ->
  Forall (op_fits overhead) ops ->
  exists j' segs',
    run Encrypt Decrypt j ops = Ok (j', expected ops n) /\
    logged j' (n + Z.of_nat (total_entries ops)) segs' /\
    seq j' = n + Z.of_nat (total_entries ops) /\
    entries segs' = entries segs ++ history ops n.
Proof.
  induction ops as [|o ops IH]; intros j n segs Hlog Hseq Hn Hmax Hfits.
  - exists j, segs. cbn [run expected total_entries map list_sum history].
    change (Z.of_nat 0) with 0. rewrite Z.add_0_r, app_nil_r. auto.
  - apply Forall_cons in Hfits as [Hfit Hfits].
    rewrite total_entries_cons in *.
    destruct o as [key value|es|maxSz]; cbn [run expected entries_of history] in *.
    + destruct (Write_logged j n segs key value Hlog Hseq Hn ltac:(lia) Hfit)
        as (j1 & segs1 & E & Hlog1 & Hent1 & Hseq1).
      rewrite E.
      destruct (IH j1 (n + 1) segs1 Hlog1 Hseq1 ltac:(lia) ltac:(lia) Hfits)
        as (j' & segs' & E' & Hlog' & Hseq' & Hent').
      rewrite E'. exists j', segs'. cbn [bind].
      replace (n + Z.of_nat (1 + total_entries ops))
        with (n + 1 + Z.of_nat (total_entries ops)) by lia.
      split; [reflexivity|]. split; [exact Hlog'|]. split; [exact Hseq'|].
      rewrite Hent', Hent1, <- app_assoc. reflexivity.
    + unfold WriteBatch.
      destruct (WriteBatch_loop_logged es j n segs [] [] Hlog Hseq Hn
                  ltac:(unfold len; lia) Hfit)
        as (j1 & segs1 & E & Hlog1 & Hent1 & Hseq1).
      rewrite E.
      destruct (IH j1 (n + len es) segs1 Hlog1 Hseq1 ltac:(unfold len; lia)
                  ltac:(unfold len; lia) Hfits)
        as (j' & segs' & E' & Hlog' & Hseq' & Hent').
      rewrite E'. exists j', segs'. cbn [bind].
      replace (n + Z.of_nat (length es + total_entries ops))
        with (n + len es + Z.of_nat (total_entries ops)) by (unfold len; lia).
      split; [reflexivity|]. split; [exact Hlog'|]. split; [exact Hseq'|].
      rewrite Hent', Hent1, <- app_assoc. reflexivity.
    + destruct (reopen_logged j n segs maxSz Hlog ltac:(lia))
        as (j1 & j2 & E & E2 & Hlog2 & Hseq2 & _).
      rewrite E, E2. cbn [bind].
      destruct (IH j2 n segs Hlog2 Hseq2 Hn ltac:(lia) Hfits)
        as (j' & segs' & E' & Hlog' & Hseq' & Hent').
      rewrite E', Hseq2. exists j', segs'. cbn [bind Nat.add].
      auto.
Qed.

(** X16.  What is written and synced is what [Replay] returns.  From an
    empty storage, after any history of [Write], [WriteBatch] and
    reopenings that writes fewer than 999999 entries, and a [Sync]:
    every call succeeds, and [Replay] hands the callback exactly the
    entries written, with their keys and values, in the order written,
    with the sequence numbers 1, 2, ..., across all segments, until the
    callback returns an error, which [Replay] returns. *)
Theorem Replay_returns_what_was_written {A} (maxSz : Z) (enc : option EncState)
    (ops : list op) (fn : A -> Entry -> A * option error) (a : A) :
  Z.of_nat (total_entries ops) + 1 <= 999999 ->
  Forall (op_fits overhead) ops ->
  exists j0 j tr j',
    New Decrypt ∅ maxSz enc = Ok j0 /\
    run Encrypt Decrypt j0 ops = Ok (j, tr) /\
    Sync_journal j = (j', Ok tt) /\
    Replay Decrypt j' fn a = feed fn (history ops 0) a /\
    map Seq (history ops 0) = map Z.of_nat (List.seq 1 (total_entries ops)).
Proof.
  intros Hmax Hfits.
  destruct (New_empty_logged enc maxSz) as (j0 & E0 & Hlog0 & Hseq0 & _).
  destruct (run_logged ops j0 0 [[]] Hlog0 Hseq0 ltac:(lia) ltac:(lia) Hfits)
    as (j & segs & E & Hlog & Hseq & Hent).
  destruct (Sync_logged j _ segs Hlog) as (j' & ES & Hlog' & Hp & _).
  exists j0, j, (expected ops 0), j'.
  split; [exact E0|]. split; [exact E|]. split; [exact ES|]. split.
  - change (entries [[]]) with (@nil Entry) in Hent. cbn [app] in Hent.
    rewrite <- Hent.
    apply (Replay_logged j' _ segs fn a Hlog' Hp); [lia|].
    destruct Hlog' as ((_ & _ & _ & Hle) & _). lia.
  - rewrite map_Seq_history, count_from_seq. apply map_ext. intros i. lia.
Qed.

(** X17.  [Close] does not stop the journal from taking writes.  After
    a history and a [Close], a [Write] whose record fits the buffer of
    the writer (4096 bytes) in a segment that is not full returns the
    next sequence number and no error, but the record only sits in the
    buffer: the storage is as [Close] left it, and the [Sync] or [Close]
    that would flush it fails with the error of the closed file.  When
    the segment is full, the [Write] itself fails with that error. *)
Theorem Write_after_Close_is_lost (maxSz : Z) (enc : option EncState)
    (ops : list op) (key value : list byte) :
  Z.of_nat (total_entries ops) + 2 <= 2 ^ 63 - 1 ->
  Forall (op_fits overhead) ops ->
  24 + len key + len value + overhead <= 4096 ->
  exists j0 j tr j1,
    New Decrypt ∅ maxSz enc = Ok j0 /\
    run Encrypt Decrypt j0 ops = Ok (j, tr) /\
    Close j = (j1, None) /\
    (size j < maxSize j ->
     exists j2,
       Write Encrypt j1 key value = (j2, Ok (Z.of_nat (total_entries ops) + 1)) /\
       storage j2 = storage j1 /\
       snd (Sync_journal j2) = Err ErrClosed /\
       snd (Close j2) = Some ErrClosed) /\
    (maxSize j <= size j ->
     snd (Write Encrypt j1 key value) = Err ErrClosed).
Proof.
  intros Hmax Hfits Hsmall.
  destruct (New_empty_logged enc maxSz) as (j0 & E0 & Hlog0 & Hseq0 & _).
  destruct (run_logged ops j0 0 [[]] Hlog0 Hseq0 ltac:(lia) ltac:(lia) Hfits)
    as (j & segs & E & Hlog & Hseq & _).
  rewrite Z.add_0_l in Hseq.
  destruct (reopen_logged j _ segs maxSz Hlog ltac:(lia))
    as (j1 & _ & EC & _ & _ & _ & Hf1 & Hw1 & Hs1 & Hsz1 & Hmx1 & Hcur1 & Hst1).
  exists j0, j, (expected ops 0), j1.
  split; [exact E0|]. split; [exact E|]. split; [exact EC|].
  set (h := {| h_name := current j; h_closed := true |}) in *.
  assert (wrap64 (seq j1 + 1) = Z.of_nat (total_entries ops) + 1) as Hs
    by (rewrite Hs1, Hseq; apply wrap64_small; lia).
  split.
  - intros Hroom. unfold Write, append. jfields. rewrite Hs, Hmx1, Hsz1.
    destruct (Z.leb_spec (maxSize j) (size j)); [lia|].
    unfold write. jfields.
    set (e := {| Key := key; Value := value;
                 Seq := Z.of_nat (total_entries ops) + 1 |}).
    assert (exists (enc' : option EncState) (c : list byte),
              (match encryptor j1 with
               | Some s => let '(s', r) := Encrypt s (entry_body e) in
                           (set_encryptor (set_seq j1 (Seq e)) (Some s'), r)
               | None => (set_seq j1 (Seq e), Ok (entry_body e))
               end) = (set_encryptor (set_seq j1 (Seq e)) enc', Ok c) /\
              len c <= len (entry_body e) + overhead) as (enc' & c & Esealed & Hlenc).
    { destruct (encryptor j1) as [s|] eqn:Eenc.
      - destruct (Encrypt_total s (entry_body e)) as (s' & c & Es). rewrite Es.
        exists (Some s'), c. split; [reflexivity|]. eapply Encrypt_len, Es.
      - exists None, (entry_body e). split; [|lia].
        unfold set_encryptor, set_seq. jfields. now rewrite Eenc. }
    cbn [Seq e] in Esealed |- *. fold e.
    replace (match encryptor j1 with
             | Some s => let '(s', r) := Encrypt s (entry_body e) in
                         (set_encryptor (set_seq j1 (Z.of_nat (total_entries ops) + 1))
                            (Some s'), r)
             | None => (set_seq j1 (Z.of_nat (total_entries ops) + 1),
                        Ok (entry_body e))
             end)
      with (set_encryptor (set_seq j1 (Z.of_nat (total_entries ops) + 1)) enc', Ok c).
    jfields. rewrite Hw1, Hf1.
    assert (len (frame c) <= Available NewWriter) as Hfitbuf.
    { rewrite len_frame. rewrite len_entry_body in Hlenc. cbn [Key Value e] in Hlenc.
      change (Available NewWriter) with 4096. lia. }
    unfold bufio_Write. rewrite (Write_loop_exit 3 _ _ _ _ _ Hfitbuf).
    cbn [werr NewWriter wbuf app]. jfields.
    eexists. split; [reflexivity|]. jfields. split; [reflexivity|].
    assert ((len (frame c) =? 0) = false) as Hne.
    { apply Z.eqb_neq. rewrite len_frame. pose proof (len_nonneg c). lia. }
    split.
    + unfold Sync_journal. jfields. rewrite Hf1.
      unfold Flush. cbn [werr wbuf]. rewrite Hne.
      unfold file_Write. cbn [h_closed h]. reflexivity.
    + unfold Close. jfields. rewrite Hf1.
      unfold Flush. cbn [werr wbuf]. rewrite Hne.
      unfold file_Write. cbn [h_closed h]. jfields. rewrite Hf1. reflexivity.
  - intros Hfull. unfold Write, append. jfields. rewrite Hmx1, Hsz1.
    destruct (Z.leb_spec (maxSize j) (size j)); [|lia].
    unfold newSegment. jfields. rewrite Hf1, Hw1.
    unfold Flush. cbn [werr NewWriter wbuf]. change (len (@nil byte) =? 0) with true.
    jfields. unfold Sync. rewrite Hst1, Hcur1.
    destruct Hlog as (((w & h0 & d & _ & _ & _ & _ & _ & _ & Hd & _) & _) & _).
    unfold view. rewrite Hd. unfold file_Close. cbn [h_closed h]. reflexivity.
Qed.

End JournalLog.

Lemma Replay_returns_what_was_written_witness :
  let ops :=
    [journal.OpWrite [x6b; x31] [x76; x31];
     journal.OpWriteBatch [journal.mkEntry [x6b; x32] [] 0;
                           journal.mkEntry [] [x76; x33] 0];
     journal.OpReopen 1;
     journal.OpWrite [x6b; x34] [x76; x34]] in
  let fn := fun (a : list journal.Entry) (e : journal.Entry) => (a ++ [e], None) in
  Z.of_nat (total_entries ops) + 1 <= 999999 /\
  Forall (op_fits 0) ops /\
  exists j0 j tr j',
    journal.New journal.no_Decrypt ∅ 1 None = Ok j0 /\
    journal.run journal.no_Encrypt journal.no_Decrypt j0 ops = Ok (j, tr) /\
    journal.Sync_journal j = (j', Ok tt) /\
    journal.Replay journal.no_Decrypt j' fn [] = feed fn (history ops 0) [] /\
    map journal.Seq (history ops 0) = map Z.of_nat (List.seq 1 (total_entries ops)).
Proof.
  intros ops fn.
  assert (Z.of_nat (total_entries ops) + 1 <= 999999) as H1
    by (vm_compute; discriminate).
  assert (Forall (op_fits 0) ops) as H2.
  { repeat constructor; vm_compute; reflexivity. }
  split; [exact H1|]. split; [exact H2|].
  exact (Replay_returns_what_was_written journal.no_Encrypt journal.no_Decrypt 0
           no_Encrypt_total no_Decrypt_Encrypt no_Decrypt_stable no_Encrypt_len
           ltac:(lia) 1 None ops fn [] H1 H2).
Defined.

(** The history of the witness, run: four entries over four segments,
    replayed in the order written. *)
Example Replay_across_segments :
  (let* j0 := journal.New journal.no_Decrypt ∅ 1 None in
   let* (j, _) := journal.run journal.no_Encrypt journal.no_Decrypt j0
     [journal.OpWrite [x6b; x31] [x76; x31];
      journal.OpWriteBatch [journal.mkEntry [x6b; x32] [] 0;
                            journal.mkEntry [] [x76; x33] 0];
      journal.OpReopen 1;
      journal.OpWrite [x6b; x34] [x76; x34]] in
   let '(j', _) := journal.Sync_journal j in
   Ok (journal.List (journal.storage j'),
       journal.Replay journal.no_Decrypt j'
         (fun (a : list journal.Entry) e => (a ++ [e], None)) []))
  = Ok (["000001.wal"; "000002.wal"; "000003.wal"; "000004.wal"]%string,
        ([journal.mkEntry [x6b; x31] [x76; x31] 1;
          journal.mkEntry [x6b; x32] [] 2;
          journal.mkEntry [] [x76; x33] 3;
          journal.mkEntry [x6b; x34] [x76; x34] 4], Ok tt)).
Proof. vm_compute. reflexivity. Qed.

Lemma Write_after_Close_is_lost_witness :
  let ops := [journal.OpWrite [x6b; x31] [x76; x31]] in
  Z.of_nat (total_entries ops) + 2 <= 2 ^ 63 - 1 /\
  Forall (op_fits 0) ops /\
  24 + len [x6b; x32] + len [x76; x32] + 0 <= 4096 /\
  exists j0 j tr j1,
    journal.New journal.no_Decrypt ∅ 1024 None = Ok j0 /\
    journal.run journal.no_Encrypt journal.no_Decrypt j0 ops = Ok (j, tr) /\
    journal.Close j = (j1, None) /\
    (journal.size j < journal.maxSize j ->
     exists j2,
       journal.Write journal.no_Encrypt j1 [x6b; x32] [x76; x32]
         = (j2, Ok (Z.of_nat (total_entries ops) + 1)) /\
       journal.storage j2 = journal.storage j1 /\
       snd (journal.Sync_journal j2) = Err ErrClosed /\
       snd (journal.Close j2) = Some ErrClosed) /\
    (journal.maxSize j <= journal.size j ->
     snd (journal.Write journal.no_Encrypt j1 [x6b; x32] [x76; x32]) = Err ErrClosed).
Proof.
  intros ops.
  assert (Z.of_nat (total_entries ops) + 2 <= 2 ^ 63 - 1) as H1
    by (vm_compute; discriminate).
  assert (Forall (op_fits 0) ops) as H2.
  { repeat constructor; vm_compute; reflexivity. }
  assert (24 + len [x6b; x32] + len [x76; x32] + 0 <= 4096) as H3
    by (vm_compute; discriminate).
  split; [exact H1|]. split; [exact H2|]. split; [exact H3|].
  exact (Write_after_Close_is_lost journal.no_Encrypt journal.no_Decrypt 0
           no_Encrypt_total no_Decrypt_Encrypt no_Decrypt_stable no_Encrypt_len
           ltac:(lia) 1024 None ops [x6b; x32] [x76; x32] H1 H2 H3).
Defined.

(** * The keys of the sink *)

Section Keys.
Import fmt.

(** No opening brace in [s]. *)
Fixpoint no_brace (s : string) : bool :=
  match s with
  | String c s' => negb (Ascii.eqb c "{") && no_brace s'
  | EmptyString => true
  end.

(** [s] cut at its last opening brace. *)
Fixpoint cut (s : string) : option (string * string) :=
  match s with
  | EmptyString => None
  | String c s' =>
      match cut s' with
      | Some (p, q) => Some (String c p, q)
      | None => if Ascii.eqb c "{" then Some (EmptyString, s') else None
      end
  end.

Lemma cut_no_brace (s : string) : no_brace s = true -> cut s = None.
Proof.
  induction s as [|c s IH]; [reflexivity|]. cbn [no_brace cut].
  intros H. apply andb_prop in H as [Hc Hs]. rewrite (IH Hs).
  now destruct (Ascii.eqb c "{").
Qed.

Lemma cut_app (p q : string) :
  no_brace q = true -> cut (p +:+ String "{" q) = Some (p, q).
Proof.
  intros Hq. induction p as [|c p IH].
  - rewrite append_nil. cbn [cut]. now rewrite (cut_no_brace q Hq).
  - rewrite append_cons. cbn [cut]. now rewrite IH.
Qed.

Lemma no_brace_app (s t : string) :
  no_brace (s +:+ t) = no_brace s && no_brace t.
Proof.
  induction s as [|c s IH]; [reflexivity|].
  rewrite append_cons. cbn [no_brace]. rewrite IH. apply andb_assoc.
Qed.

Lemma is_digit_no_brace (c : ascii) :
  is_digit c = true -> negb (Ascii.eqb c "{") = true.
Proof.
  unfold is_digit. intros H. apply andb_prop in H as [_ H]. apply N.leb_le in H.
  destruct (Ascii.eqb_spec c "{") as [->|]; [|reflexivity].
  cbn in H. lia.
Qed.

Lemma all_digits_no_brace (s : string) : all_digits s = true -> no_brace s = true.
Proof.
  induction s as [|c s IH]; [reflexivity|]. cbn [all_digits no_brace].
  intros H. apply andb_prop in H as [Hc Hs].
  now rewrite (is_digit_no_brace c Hc), (IH Hs).
Qed.

Lemma all_digits_FormatUint (n : Z) : all_digits (FormatUint n) = true.
Proof. unfold FormatUint. now apply all_digits_digits_aux. Qed.

Lemma no_brace_FormatInt (i : Z) : no_brace (FormatInt i) = true.
Proof.
  unfold FormatInt. destruct (i <? 0).
  - cbn [no_brace]. now rewrite (all_digits_no_brace _ (all_digits_FormatUint _)).
  - apply all_digits_no_brace, all_digits_FormatUint.
Qed.

Lemma FormatUint_inj (m n : Z) :
  0 <= m < 10 ^ 20 -> 0 <= n < 10 ^ 20 -> FormatUint m = FormatUint n -> m = n.
Proof.
  intros Hm Hn E. apply (f_equal (fun s => parse_digits s 0)) in E.
  unfold FormatUint in E.
  now rewrite !parse_digits_digits_aux in E by (change (Z.of_nat 20) with 20; lia).
Qed.

Lemma FormatUint_not_minus (n : Z) (s : string) : FormatUint n <> String "-" s.
Proof.
  unfold FormatUint.
  destruct (digits_aux_nonempty 20 n "" ltac:(lia)) as (c & r & E & Hc).
  rewrite E. intros [= -> _]. specialize (Hc eq_refl). discriminate Hc.
Qed.

(** [strconv.FormatInt] is injective on [int64]. *)
Lemma FormatInt_inj (i k : Z) :
  - 2 ^ 63 <= i < 2 ^ 63 -> - 2 ^ 63 <= k < 2 ^ 63 ->
  FormatInt i = FormatInt k -> i = k.
Proof.
  intros Hi Hk. unfold FormatInt.
  destruct (Z.ltb_spec i 0), (Z.ltb_spec k 0); intros E.
  - injection E as E. apply FormatUint_inj in E; lia.
  - symmetry in E. now apply FormatUint_not_minus in E.
  - now apply FormatUint_not_minus in E.
  - apply FormatUint_inj in E; lia.
Qed.

Lemma append_snoc_inj (s t : string) (c : ascii) :
  s +:+ String c "" = t +:+ String c "" -> s = t.
Proof.
  revert t. induction s as [|a s IH]; intros [|b t] E.
  - reflexivity.
  - rewrite append_nil, append_cons in E. injection E as _ E.
    destruct t; discriminate E.
  - rewrite append_nil, append_cons in E. injection E as _ E.
    destruct s; discriminate E.
  - rewrite !append_cons in E. injection E as -> E. f_equal. now apply IH.
Qed.

Lemma append_inj_l (p a b : string) : p +:+ a = p +:+ b -> a = b.
Proof.
  induction p as [|c p IH]; [now rewrite !append_nil|].
  rewrite !append_cons. intros [= E]. now apply IH.
Qed.

Lemma list_byte_of_string_inj (s t : string) :
  list_byte_of_string s = list_byte_of_string t -> s = t.
Proof.
  intros E. apply (f_equal string_of_list_byte) in E.
  now rewrite !string_of_list_byte_of_string in E.
Qed.

End Keys.

Section FmtKey.
Import entity sink.

(** X18.  The key [fmtKey] builds determines the sensor name and the
    timestamp: two events get the same key only if they have the same
    sensor name and the same timestamp, whatever characters the names
    hold, braces included. *)
Theorem fmtKey_determines_sensor_and_timestamp (sensor1 sensor2 : string)
    (ts1 ts2 : Z) :
  - 2 ^ 63 <= ts1 < 2 ^ 63 -> - 2 ^ 63 <= ts2 < 2 ^ 63 ->
  fmtKey sensor1 ts1 = fmtKey sensor2 ts2 <-> sensor1 = sensor2 /\ ts1 = ts2.
Proof.
  intros H1 H2. split; [|now intros [-> ->]].
  unfold fmtKey. intros E. apply list_byte_of_string_inj, append_inj_l in E.
  assert (forall ts, no_brace ("ts=" +:+ fmt.FormatInt ts +:+ "}") = true) as Hnb.
  { intros ts. rewrite !append_cons, append_nil. cbn [no_brace].
    rewrite no_brace_app, no_brace_FormatInt. reflexivity. }
  assert (forall s ts, cut (s +:+ "{ts=" +:+ fmt.FormatInt ts +:+ "}")
                       = Some (s, "ts=" +:+ fmt.FormatInt ts +:+ "}")) as Hcut.
  { intros s ts.
    change ("{ts=" +:+ fmt.FormatInt ts +:+ "}")
      with (String "{" ("ts=" +:+ fmt.FormatInt ts +:+ "}")).
    apply cut_app, Hnb. }
  apply (f_equal cut) in E. rewrite !Hcut in E. injection E as -> E.
  split; [reflexivity|].
  apply append_inj_l, append_snoc_inj in E. now apply FormatInt_inj in E.
Qed.

End FmtKey.

Lemma fmtKey_determines_sensor_and_timestamp_witness :
  - 2 ^ 63 <= 1000 < 2 ^ 63 /\ - 2 ^ 63 <= -5 < 2 ^ 63 /\
  (sink.fmtKey "a{ts=1}" 1000 = sink.fmtKey "a" (-5) <->
   "a{ts=1}"%string = "a"%string /\ 1000 = -5).
Proof.
  assert (- 2 ^ 63 <= 1000 < 2 ^ 63) as H1 by lia.
  assert (- 2 ^ 63 <= -5 < 2 ^ 63) as H2 by lia.
  split; [exact H1|]. split; [exact H2|].
  exact (fmtKey_determines_sensor_and_timestamp "a{ts=1}" "a" 1000 (-5) H1 H2).
Defined.

(** * The sink over the journal *)

Section SinkOverJournal.
Import entity.
Context {EncState : Type}.
Variable Encrypt : EncState -> list byte -> EncState * outcome (list byte).
Variable Decrypt : EncState -> list byte -> outcome (list byte).
Variable overhead : Z.
Hypothesis Encrypt_total :
  forall s p, exists s' c, Encrypt s p = (s', Ok c).
Hypothesis Decrypt_Encrypt :
  forall s p s' c, Encrypt s p = (s', Ok c) -> Decrypt s' c = Ok p.
Hypothesis Decrypt_stable :
  forall s p s' r c, Encrypt s p = (s', r) -> Decrypt s' c = Decrypt s c.
Hypothesis Encrypt_len :
  forall s p s' c, Encrypt s p = (s', Ok c) -> len c <= len p + overhead.
Hypothesis overhead_nonneg : 0 <= overhead.
Variable MarshalMsg : Event -> outcome (list byte).
Variable marshal : Event -> list byte.
Hypothesis MarshalMsg_ok : forall ev, MarshalMsg ev = Ok (marshal ev).
Context {X : Type}.

Abbreviation Jl := (@journal.Journal EncState).

(** [*journal.Journal] as the [Journal] of the sink. *)
Definition journal_Write (j : Jl) (k v : list byte) : Jl * outcome Z :=
  journal.Write Encrypt j k v.

Definition journal_WriteBatch (j : Jl) (entries : list journal.Entry)
  : Jl * outcome (list Z) :=
  let '(j', _, r) := journal.WriteBatch Encrypt j entries in (j', r).

(** The entry of an event is small enough for the length fields. *)
Definition event_fits (ev : Event) : Prop :=
  16 + len (sink.fmtKey (Sensor ev) (UnixTimestamp ev)) + len (marshal ev) + overhead
    < 2 ^ 32.

Lemma stamp_app (a b : list journal.Entry) :
  forall n, stamp n (a ++ b) = stamp n a ++ stamp (n + len a) b.
Proof.
  induction a as [|e a IH]; intros n.
  - cbn [app stamp]. change (len (@nil journal.Entry)) with 0. now rewrite Z.add_0_r.
  - cbn [app stamp]. rewrite IH. do 3 f_equal. unfold len. cbn [length]. lia.
Qed.

Lemma fits_batch_entry (ev : Event) :
  event_fits ev -> fits overhead (batch_entry marshal ev).
Proof. intros H. exact H. Qed.

(** The sink after the events [done]: the journal holds the entries of
    the events spilled, the buffer the rest. *)
Definition sunk (capacity : Z) (done : list Event) (s : sink.Sink (J:=Jl)) : Prop :=
  let C := Z.to_nat (Z.max capacity 1) in
  let k := (length done - C)%nat in
  exists j segs,
    sink.journal s = Some j /\
    logged Decrypt j (Z.of_nat k) segs /\ journal.seq j = Z.of_nat k /\
    entries segs = stamp 0 (map (batch_entry marshal) (take k done)) /\
    holds (sink.buf s) (rev done) /\
    len (rb.buf (sink.buf s)) = Z.max capacity 1 /\
    sink.closed s = false.

Lemma append_sunk (capacity : Z) (done : list Event) (ev : Event)
    (s : sink.Sink) (x : X) :
  sunk capacity done s -> Forall event_fits done ->
  Z.of_nat (length done) + 2 <= 2 ^ 63 - 1 ->
  exists s',
    sink.Append journal_Write MarshalMsg [] ev (s, x) = ((s', x), Ok tt) /\
    sunk capacity (done ++ [ev]) s'.
Proof.
  intros (j & segs & Hj & Hlog & Hseq & Hent & Hh & HC & Hc) Hfits Hmax.
  set (C := Z.to_nat (Z.max capacity 1)) in *.
  unfold sink.Append. cbn [fst]. rewrite Hc, Hj. cbn [sink.buildChain foldr].
  destruct (holds_Add (sink.buf s) (rev done) ev Hh)
    as (b & d & EA & Hb & HCb & _ & Hd).
  unfold sink.appendToBuffer. rewrite EA.
  pose proof Hh as (_ & Hu & _). rewrite HC in Hu.
  assert (len (rev done) = Z.of_nat (length done)) as Hrev
    by (unfold len; now rewrite length_rev).
  rewrite Hrev in Hu.
  destruct (Z.eqb_spec (rb.used (sink.buf s)) (len (rb.buf (sink.buf s))))
    as [Hfull|Hne].
  - assert (C <= length done)%nat as Hge by (subst C; lia).
    specialize (Hd Hfull).
    rewrite lookup_rev in Hd by (subst C; lia).
    replace (length done - S (Z.to_nat (len (rb.buf (sink.buf s)) - 1)))%nat
      with (length done - C)%nat in Hd by (subst C; lia).
    rewrite MarshalMsg_ok. cbn [sink.journal]. rewrite Hj.
    assert (event_fits d) as Hfit.
    { rewrite List.Forall_forall in Hfits. apply Hfits.
      apply list_elem_of_In. eapply list_elem_of_lookup_2, Hd. }
    unfold journal_Write.
    destruct (Write_logged Encrypt Decrypt overhead Encrypt_total Decrypt_Encrypt
                Decrypt_stable Encrypt_len overhead_nonneg j _ segs
                (sink.fmtKey (Sensor d) (UnixTimestamp d)) (marshal d)
                Hlog Hseq ltac:(lia) ltac:(lia) Hfit)
      as (j' & segs' & EW & Hlog' & Hent' & Hseq').
    rewrite EW. cbn [bind]. eexists. split; [reflexivity|].
    exists j', segs'. cbn [sink.journal sink.buf sink.closed].
    rewrite length_app. cbn [length]. fold C.
    replace (length done + 1 - C)%nat with (S (length done - C)) by lia.
    replace (Z.of_nat (S (length done - C))) with (Z.of_nat (length done - C) + 1) by lia.
    split; [reflexivity|]. split; [exact Hlog'|]. split; [exact Hseq'|].
    split; [|split; [|split; [congruence | exact Hc]]].
    + rewrite Hent', Hent. rewrite take_app_le by lia.
      rewrite (take_S_r _ _ _ Hd), map_app, stamp_app. cbn [map stamp].
      rewrite Z.add_0_l. do 3 f_equal.
      unfold len. rewrite length_map, length_take. lia.
    + rewrite rev_app_distr. exact Hb.
  - assert (length done < C)%nat as Hlt by (subst C; lia).
    eexists. split; [reflexivity|].
    exists j, segs. cbn [sink.journal sink.buf sink.closed].
    rewrite length_app. cbn [length]. fold C.
    replace (length done + 1 - C)%nat with 0%nat by lia.
    replace (length done - C)%nat with 0%nat in * by lia.
    split; [exact Hj|]. split; [exact Hlog|]. split; [exact Hseq|].
    split; [exact Hent|]. split; [|split; [congruence | exact Hc]].
    rewrite rev_app_distr. exact Hb.
Qed.

Lemma append_all_sunk (capacity : Z) (evs : list Event) :
  forall (done : list Event) (s : sink.Sink) (x : X),
  sunk capacity done s -> Forall event_fits (done ++ evs) ->
  Z.of_nat (length (done ++ evs)) + 2 <= 2 ^ 63 - 1 ->
  exists s',
    sink.append_all journal_Write MarshalMsg [] evs (s, x) = (s', x) /\
    sunk capacity (done ++ evs) s'.
Proof.
  induction evs as [|ev evs IH]; intros done s x Hs Hfits Hmax.
  - exists s. rewrite app_nil_r. split; [reflexivity | exact Hs].
  - cbn [sink.append_all].
    rewrite length_app in Hmax. cbn [length] in Hmax.
    destruct (append_sunk capacity done ev s x Hs) as (s1 & E1 & Hs1).
    { apply Forall_app in Hfits. apply Hfits. }
    { lia. }
    rewrite E1. cbn [fst].
    replace (done ++ ev :: evs) with ((done ++ [ev]) ++ evs) in *
      by (now rewrite <- app_assoc).
    apply IH; [exact Hs1 | exact Hfits|].
    rewrite !length_app. cbn [length]. lia.
Qed.

(** X19.  Every event the sink takes reaches the journal exactly once.
    A sink of capacity [C = max capacity 1] over a new journal on an
    empty storage takes the events [evs] (fewer than 999998, each small
    enough for the length fields of a record); then the sink is closed
    and the journal synced.  Every call succeeds, and [Replay] returns
    one entry per event: first the events the buffer spilled, in the
    order they came, then the events still buffered at [Close], newest
    first; each with the key of its sensor and timestamp, its serialized
    value, and the sequence numbers 1, 2, ... *)
Theorem sink_events_reach_the_journal {A} (capacity maxSz : Z)
    (enc : option EncState) (evs : list Event) (x : X)
    (fn : A -> journal.Entry -> A * option error) (a : A) :
  Z.of_nat (length evs) + 2 <= 999999 ->
  Forall event_fits evs ->
  let C := Z.to_nat (Z.max capacity 1) in
  exists j0 s1 s2 j2 j3,
    journal.New Decrypt ∅ maxSz enc = Ok j0 /\
    sink.append_all journal_Write MarshalMsg [] evs
      (sink.New (Some j0) (Some capacity), x) = (s1, x) /\
    sink.Close journal_WriteBatch MarshalMsg s1 = (s2, Ok tt) /\
    sink.journal s2 = Some j2 /\
    journal.Sync_journal j2 = (j3, Ok tt) /\
    journal.Replay Decrypt j3 fn a =
      feed fn (stamp 0 (map (batch_entry marshal)
                          (take (length evs - C) evs ++ take C (rev evs)))) a.
Proof.
  intros Hmax Hfits C.
  destruct (New_empty_logged Decrypt enc maxSz) as (j0 & E0 & Hlog0 & Hseq0 & _).
  assert (sunk capacity [] (sink.New (Some j0) (Some capacity))) as H0.
  { exists j0, [[]]. cbn [sink.New sink.journal sink.buf sink.closed from_option id
                         length Nat.sub take map stamp rev].
    split; [reflexivity|]. split; [exact Hlog0|]. split; [exact Hseq0|].
    split; [reflexivity|]. split; [apply holds_New|]. split; [apply len_New|].
    reflexivity. }
  destruct (append_all_sunk capacity evs [] _ x H0 Hfits ltac:(cbn [app]; lia))
    as (s1 & E1 & (j1 & segs1 & Hj1 & Hlog1 & Hseq1 & Hent1 & Hh1 & HC1 & Hc1)).
  cbn [app] in *. fold C in Hlog1, Hseq1, Hent1.
  set (k := (length evs - C)%nat) in *.
  set (batch := map (batch_entry marshal) (take C (rev evs))).
  assert (Forall (fits overhead) batch) as Hbfits.
  { subst batch. apply List.Forall_forall. intros e He.
    apply in_map_iff in He as (ev & <- & Hev). apply fits_batch_entry.
    rewrite List.Forall_forall in Hfits. apply Hfits.
    apply in_rev. apply list_elem_of_In in Hev.
    apply elem_of_take in Hev as (i & Hi & _).
    apply list_elem_of_In. eapply list_elem_of_lookup_2, Hi. }
  assert (Z.of_nat k + len batch = Z.of_nat (length evs)) as Hblen.
  { subst batch k. unfold len. rewrite length_map, length_take, length_rev. lia. }
  destruct (WriteBatch_loop_logged Encrypt Decrypt overhead Encrypt_total
              Decrypt_Encrypt Decrypt_stable Encrypt_len overhead_nonneg
              batch j1 _ segs1 [] [] Hlog1 Hseq1 ltac:(lia) ltac:(lia) Hbfits)
    as (j2 & segs2 & EB & Hlog2 & Hent2 & Hseq2).
  destruct (Sync_logged Decrypt j2 _ segs2 Hlog2) as (j3 & ES & Hlog3 & Hp3 & _).
  exists j0, s1. eexists. exists j2, j3.
  split; [exact E0|]. split; [exact E1|].
  assert (sink.Close journal_WriteBatch MarshalMsg s1 =
          (sink.mkSink (Some j2) (sink.buf s1) (sink.bufSize s1) true, Ok tt)) as EC.
  { unfold sink.Close.
    rewrite (flush_holds journal_WriteBatch MarshalMsg marshal MarshalMsg_ok
               (sink.mkSink (sink.journal s1) (sink.buf s1) (sink.bufSize s1) true)
               (rev evs) j1 Hj1 Hh1).
    cbn [sink.buf sink.bufSize sink.closed]. rewrite HC1. fold C. fold batch.
    unfold journal_WriteBatch, journal.WriteBatch. rewrite EB. reflexivity. }
  split; [exact EC|]. split; [reflexivity|]. split; [exact ES|].
  rewrite (Replay_logged Decrypt j3 _ segs2 fn a Hlog3 Hp3).
  - rewrite Hent2, Hent1, map_app, stamp_app. do 3 f_equal.
    rewrite Z.add_0_l. unfold len. rewrite length_map, length_take. subst k.
    now rewrite Nat.min_l by apply Nat.le_sub_l.
  - subst k. lia.
  - destruct Hlog3 as ((_ & _ & _ & Hle) & _). subst k. lia.
Qed.

End SinkOverJournal.

Lemma sink_events_reach_the_journal_witness :
  let MarshalMsg := fun ev => Ok (list_byte_of_string (entity.Sensor ev)) in
  let marshal := fun ev => list_byte_of_string (entity.Sensor ev) in
  let e := fun name ts => entity.mkEvent "" name 0 ts in
  let evs := [e "a" 1; e "b" 2; e "c" 3]%string in
  let fn := fun (a : list journal.Entry) (e : journal.Entry) => (a ++ [e], None) in
  (forall ev, MarshalMsg ev = Ok (marshal ev)) /\
  Z.of_nat (length evs) + 2 <= 999999 /\
  Forall (event_fits 0 marshal) evs /\
  exists j0 s1 s2 j2 j3,
    journal.New journal.no_Decrypt ∅ 64 None = Ok j0 /\
    sink.append_all (journal_Write journal.no_Encrypt) MarshalMsg [] evs
      (sink.New (Some j0) (Some 2), tt) = (s1, tt) /\
    sink.Close (journal_WriteBatch journal.no_Encrypt) MarshalMsg s1 = (s2, Ok tt) /\
    sink.journal s2 = Some j2 /\
    journal.Sync_journal j2 = (j3, Ok tt) /\
    journal.Replay journal.no_Decrypt j3 fn [] =
      feed fn (stamp 0 (map (batch_entry marshal)
                          (take (length evs - Z.to_nat (Z.max 2 1)) evs
                           ++ take (Z.to_nat (Z.max 2 1)) (rev evs)))) [].
Proof.
  intros MarshalMsg marshal e evs fn.
  assert (Z.of_nat (length evs) + 2 <= 999999) as H1 by (vm_compute; discriminate).
  assert (Forall (event_fits 0 marshal) evs) as H2.
  { repeat constructor; vm_compute; reflexivity. }
  split; [reflexivity|]. split; [exact H1|]. split; [exact H2|].
  exact (sink_events_reach_the_journal journal.no_Encrypt journal.no_Decrypt 0
           no_Encrypt_total no_Decrypt_Encrypt no_Decrypt_stable no_Encrypt_len
           ltac:(lia) MarshalMsg marshal (fun _ => eq_refl) 2 64 None evs tt fn []
           H1 H2).
Defined.

(** The run of the witness: event [a] is spilled by the third [Append];
    [Close] writes [c] and [b]. *)
Example sink_to_journal_run :
  let MarshalMsg := fun ev => Ok (list_byte_of_string (entity.Sensor ev)) in
  let e := fun name ts => entity.mkEvent "" name 0 ts in
  (let* j0 := journal.New journal.no_Decrypt ∅ 64 None in
   let '(s1, _) := sink.append_all (journal_Write journal.no_Encrypt) MarshalMsg []
                     [e "a" 1; e "b" 2; e "c" 3]%string
                     (sink.New (Some j0) (Some 2), tt) in
   let '(s2, _) := sink.Close (journal_WriteBatch journal.no_Encrypt) MarshalMsg s1 in
   match sink.journal s2 with
   | Some j2 =>
       let '(j3, _) := journal.Sync_journal j2 in
       Ok (map (fun en => (string_of_list_byte (journal.Key en), journal.Seq en))
             (fst (journal.Replay journal.no_Decrypt j3
                     (fun (a : list journal.Entry) en => (a ++ [en], None)) [])))
   | None => Panic
   end)
  = Ok [("sensor_a{ts=1}", 1); ("sensor_c{ts=3}", 2); ("sensor_b{ts=2}", 3)]%string.
Proof. vm_compute. reflexivity. Qed.

(** * Startup over a directory without a numbered segment *)

Section StrayFiles.
Import journal.
Context {EncState : Type}.
Variable Decrypt : EncState -> list byte -> outcome (list byte).

Lemma fold_pick_none (names : list string) (acc : Z) :
  (forall name, In name names -> fmt.Sscanf_d_wal name = None) ->
  fold_left pick_latest names acc = acc.
Proof.
  revert acc. induction names as [|nm names IH]; intros acc H; [reflexivity|].
  cbn [fold_left]. unfold pick_latest at 2. rewrite (H nm (or_introl eq_refl)).
  apply IH. intros name Hn. apply H. now right.
Qed.

(** X20.  [openLatest] starts a first segment only in a directory with
    no [.wal] file at all.  When the directory holds [.wal] files but
    none whose name starts with a number, the latest segment is taken to
    be number 0, whose file does not exist: [New] fails with the error
    of opening [000000.wal], and creates nothing. *)
Theorem New_fails_over_unnumbered_files (st : Storage) (maxSz : Z)
    (enc : option EncState) :
  List st <> [] ->
  (forall name, In name (List st) -> fmt.Sscanf_d_wal name = None) ->
  New Decrypt st maxSz enc = Err ErrFileNotFound.
Proof.
  intros Hne Hnone. unfold New, openLatest. jfields.
  destruct (List st) as [|nm names] eqn:EL; [contradiction|].
  rewrite <- EL.
  change (fold_left _ (List st) 0) with (fold_left pick_latest (List st) 0).
  rewrite fold_pick_none by (rewrite EL; exact Hnone).
  unfold scan. jfields. unfold Open.
  destruct (st !! segmentName 0) as [d|] eqn:Ed; [|reflexivity].
  exfalso.
  assert (In (segmentName 0) (List st)) as Hin.
  { apply In_List. split; [exists d; exact Ed | apply has_suffix_app]. }
  rewrite EL in Hin. apply Hnone in Hin.
  rewrite Sscanf_segmentName in Hin by lia. discriminate.
Qed.

End StrayFiles.

Lemma New_fails_over_unnumbered_files_witness :
  let st : journal.Storage := {[ "backup.wal"%string := [x00] ]} in
  journal.List st <> [] /\
  (forall name, In name (journal.List st) -> fmt.Sscanf_d_wal name = None) /\
  journal.New journal.no_Decrypt st 0 None = Err ErrFileNotFound.
Proof.
  intros st.
  assert (journal.List st = ["backup.wal"%string]) as HL by (vm_compute; reflexivity).
  assert (journal.List st <> []) as H1 by (rewrite HL; discriminate).
  assert (forall name, In name (journal.List st) -> fmt.Sscanf_d_wal name = None) as H2.
  { intros name. rewrite HL. intros [<-|[]]. vm_compute. reflexivity. }
  split; [exact H1|]. split; [exact H2|].
  exact (New_fails_over_unnumbered_files journal.no_Decrypt st 0 None H1 H2).
Defined.

(** * The answers of [handleEvent] *)

Section EventProofs.
Import entity transport.
Context {W : Type}.
Variable Append : Event -> W -> W * outcome unit.
Variable json_Unmarshal : list byte -> Event + error.
Variable UnmarshalMsg : list byte -> Event + error.

(** The event [handleEvent] reads from a request, when it reads one. *)
Definition decoded (req : Request) (ev : Event) : Prop :=
  IsPost req = true /\ len (PostBody req) <> 0 /\
  (ContentType req = "application/json"%string /\
     json_Unmarshal (PostBody req) = inl ev \/
   ContentType req = "application/msgpack"%string /\
     UnmarshalMsg (PostBody req) = inl ev).

(** X21.  What a status of [handleEvent] tells the client.  The status
    is one of 202, 400, 405, 409, 415, 429 and 500.  202 is answered
    only when the body was decoded, by the decoder of its content type,
    to an event that [Append] took without an error; 409 and 429 only
    when [Append] refused that event as a duplicate or as rate limited;
    and with 400, 405 or 415 [Append] was not called: the sink is as it
    was. *)
Theorem handleEvent_status_tells_the_outcome (req : Request) (w w' : W)
    (resp : Response) :
  handleEvent Append json_Unmarshal UnmarshalMsg req w = (w', Ok resp) ->
  In (StatusCode resp) [202; 400; 405; 409; 415; 429; 500] /\
  (StatusCode resp = 202 ->
   exists ev, decoded req ev /\ Append ev w = (w', Ok tt)) /\
  (StatusCode resp = 409 ->
   exists ev, decoded req ev /\ Append ev w = (w', Err ErrDuplicate)) /\
  (StatusCode resp = 429 ->
   exists ev, decoded req ev /\ Append ev w = (w', Err ErrRateLimited)) /\
  (In (StatusCode resp) [400; 405; 415] -> w' = w).
Proof.
  unfold handleEvent, decoded.
  destruct (IsPost req) eqn:EP; cbn [negb].
  2:{ intros [= <- <-]. cbn. repeat split; try discriminate; tauto. }
  destruct (Z.eqb_spec (len (PostBody req)) 0) as [E0|E0].
  { intros [= <- <-]. cbn. repeat split; try discriminate; tauto. }
  assert (forall ev,
            (ContentType req = "application/json"%string /\
               json_Unmarshal (PostBody req) = inl ev \/
             ContentType req = "application/msgpack"%string /\
               UnmarshalMsg (PostBody req) = inl ev) ->
            match Append ev w with
            | (w', Ok _) => (w', Ok (status StatusAccepted))
            | (w', Err ErrRateLimited) => (w', Ok (status StatusTooManyRequests))
            | (w', Err ErrDuplicate) => (w', Ok (status StatusConflict))
            | (w', Err err) =>
                (w', Ok (ctx_Error (ErrorText err) StatusInternalServerError))
            | (w', Panic) => (w', Panic)
            end = (w', Ok resp) ->
            In (StatusCode resp) [202; 400; 405; 409; 415; 429; 500] /\
            (StatusCode resp = 202 ->
             exists ev, (true = true /\ len (PostBody req) <> 0 /\
               (ContentType req = "application/json"%string /\
                  json_Unmarshal (PostBody req) = inl ev \/
                ContentType req = "application/msgpack"%string /\
                  UnmarshalMsg (PostBody req) = inl ev)) /\
               Append ev w = (w', Ok tt)) /\
            (StatusCode resp = 409 ->
             exists ev, (true = true /\ len (PostBody req) <> 0 /\
               (ContentType req = "application/json"%string /\
                  json_Unmarshal (PostBody req) = inl ev \/
                ContentType req = "application/msgpack"%string /\
                  UnmarshalMsg (PostBody req) = inl ev)) /\
               Append ev w = (w', Err ErrDuplicate)) /\
            (StatusCode resp = 429 ->
             exists ev, (true = true /\ len (PostBody req) <> 0 /\
               (ContentType req = "application/json"%string /\
                  json_Unmarshal (PostBody req) = inl ev \/
                ContentType req = "application/msgpack"%string /\
                  UnmarshalMsg (PostBody req) = inl ev)) /\
               Append ev w = (w', Err ErrRateLimited)) /\
            (In (StatusCode resp) [400; 405; 415] -> w' = w)) as Happ.
  { intros ev Hdec.
    destruct (Append ev w) as [w1 [[]|err|]] eqn:EA.
    - intros [= <- <-]. cbn. repeat split; try discriminate; try tauto.
      + intros _. exists ev. now repeat split.
      + intros [H|[H|[H|[]]]]; discriminate.
    - destruct err; intros [= <- <-]; cbn; repeat split; try discriminate; try tauto;
        try (intros _; exists ev; now repeat split);
        try (intros [H|[H|[H|[]]]]; discriminate).
    - discriminate. }
  destruct (String.eqb_spec (ContentType req) "application/json") as [Ej|Ej].
  { destruct (json_Unmarshal (PostBody req)) as [ev|err] eqn:EU.
    - apply Happ. left. now split.
    - intros [= <- <-]. cbn. repeat split; try discriminate; tauto. }
  destruct (String.eqb_spec (ContentType req) "application/msgpack") as [Em|Em].
  { destruct (UnmarshalMsg (PostBody req)) as [ev|err] eqn:EU.
    - apply Happ. right. now split.
    - intros [= <- <-]. cbn. repeat split; try discriminate; tauto. }
  intros [= <- <-]. cbn. repeat split; try discriminate; tauto.
Qed.

End EventProofs.

Lemma handleEvent_status_tells_the_outcome_witness :
  let req := transport.mkRequest "/ingest" true "application/json" [x35] in
  let ev := entity.mkEvent "" "toy" 5 0 in
  transport.handleEvent toy_Append toy_Unmarshal toy_Unmarshal req [] =
    ([ev], Ok (transport.status 202)) /\
  exists ev', decoded toy_Unmarshal toy_Unmarshal req ev' /\
              toy_Append ev' [] = ([ev], Ok tt).
Proof.
  intros req ev.
  assert (transport.handleEvent toy_Append toy_Unmarshal toy_Unmarshal req [] =
            ([ev], Ok (transport.status 202))) as H by (vm_compute; reflexivity).
  split; [exact H|].
  exact (proj1 (proj2 (handleEvent_status_tells_the_outcome
                         toy_Append toy_Unmarshal toy_Unmarshal req [] [ev]
                         (transport.status 202) H)) eq_refl).
Defined.

(** * Segments that do not end in a whole record *)

(** The storage that holds [files] as the segments [k+1], [k+2], ... *)
Fixpoint disk_from (k : nat) (files : list (list byte)) : journal.Storage :=
  match files with
  | [] => ∅
  | d :: files' => <[seg_name k := d]> (disk_from (S k) files')
  end.

(** The directory whose segments 1, 2, ... are [files]. *)
Definition disk (files : list (list byte)) : journal.Storage := disk_from 0 files.

Lemma disk_from_names (files : list (list byte)) :
  forall (k : nat) (name : string),
  is_Some (disk_from k files !! name) ->
  exists i, (i < length files)%nat /\ name = seg_name (k + i).
Proof.
  induction files as [|d files IH]; intros k name H; cbn [disk_from] in H.
  - rewrite lookup_empty in H. now destruct H.
  - destruct (decide (seg_name k = name)) as [<-|Ne].
    + exists 0%nat. cbn [length]. split; [lia | now rewrite Nat.add_0_r].
    + rewrite lookup_insert_ne in H by exact Ne.
      destruct (IH _ _ H) as (i & Hi & ->).
      exists (S i). cbn [length]. split; [lia | f_equal; lia].
Qed.

Lemma disk_from_lookup (files : list (list byte)) :
  forall (k i : nat) (d : list byte),
  Z.of_nat (k + length files) + 1 <= 2 ^ 63 - 1 ->
  files !! i = Some d -> disk_from k files !! seg_name (k + i) = Some d.
Proof.
  induction files as [|d0 files IH]; intros k i d Hb Hi; [discriminate|].
  cbn [disk_from]. cbn [length] in Hb. destruct i as [|i].
  - rewrite Nat.add_0_r, lookup_insert_eq. exact Hi.
  - pose proof (lookup_lt_Some _ _ _ Hi) as Hlt. cbn [length] in Hlt.
    rewrite lookup_insert_ne.
    + replace (k + S i)%nat with (S k + i)%nat by lia.
      apply IH; [lia | exact Hi].
    + intros E. apply seg_name_inj in E; lia.
Qed.

Lemma List_disk (files : list (list byte)) :
  len files <= 999999 ->
  sort_Strings (List (disk files)) = map seg_name (List.seq 0 (length files)).
Proof.
  intros Hb. unfold len in Hb.
  apply (List_segments (disk files) (length files)); [exact Hb| |].
  - intros name Hn. destruct (disk_from_names files 0 name Hn) as (i & Hi & ->).
    exists (Z.of_nat i + 1). split; [lia | reflexivity].
  - intros k Hk.
    destruct (lookup_lt_is_Some_2 files (Z.to_nat (k - 1))) as [d Hd]; [lia|].
    exists d. unfold disk.
    replace (segmentName k) with (seg_name (0 + Z.to_nat (k - 1))).
    + apply disk_from_lookup; [lia | exact Hd].
    + unfold seg_name. f_equal. lia.
Qed.

Section DamagedSegment.
Context {EncState : Type}.
Variable Decrypt : EncState -> list byte -> outcome (list byte).

Abbreviation Recs := (list (Entry * list byte)).

(** What the loops of [scan] and [Replay] make of the error of [read]. *)
Definition at_end (err : error) : bool :=
  match err with EOF => true | _ => false end.

(** The loops over whole records followed by other bytes. *)
Lemma scan_loop_app (enc : option EncState) (n : Z) (recs : Recs) (tail : list byte) :
  Forall (rec_ok Decrypt enc n) recs -> n < 2 ^ 64 ->
  forall (turns : nat) (s : Z), (length recs <= turns)%nat ->
  scan_loop Decrypt turns enc (encode recs ++ tail) s =
    scan_loop Decrypt (turns - length recs) enc tail (fold_left later recs s).
Proof.
  intros Hall Hn. induction Hall as [|ec recs Hec Hall IH]; intros turns s Ht.
  - cbn [length fold_left encode]. now rewrite Nat.sub_0_r.
  - destruct turns as [|t]; [cbn in Ht; lia|].
    cbn [scan_loop length]. unfold encode. cbn [map concat]. fold (encode recs).
    rewrite <- app_assoc.
    rewrite (read_rec_ok Decrypt enc n ec _ Hec Hn). cbn [Seq fold_left].
    rewrite IH by (cbn [length] in Ht; lia). reflexivity.
Qed.

Lemma replay_loop_app {A} (enc : option EncState) (n : Z) (recs : Recs)
    (tail : list byte) (fn : A -> Entry -> A * option error) :
  Forall (rec_ok Decrypt enc n) recs -> n < 2 ^ 64 ->
  forall (turns : nat) (a : A), (length recs <= turns)%nat ->
  replay_loop Decrypt turns enc fn (encode recs ++ tail) a =
    match feed fn (map fst recs) a with
    | (a', Ok _) => replay_loop Decrypt (turns - length recs) enc fn tail a'
    | r => Some r
    end.
Proof.
  intros Hall Hn. induction Hall as [|ec recs Hec Hall IH]; intros turns a Ht.
  - cbn [length map feed encode]. now rewrite Nat.sub_0_r.
  - destruct turns as [|t]; [cbn in Ht; lia|].
    cbn [replay_loop length]. unfold encode. cbn [map concat]. fold (encode recs).
    rewrite <- app_assoc.
    rewrite (read_rec_ok Decrypt enc n ec _ Hec Hn), Entry_eta. cbn [feed].
    destruct (fn a (fst ec)) as [a' [err|]]; [reflexivity|].
    rewrite IH by (cbn [length] in Ht; lia). reflexivity.
Qed.

(** A segment of whole records, then bytes on which [read] fails. *)
Lemma scan_loop_damaged (enc : option EncState) (n : Z) (recs : Recs)
    (tail : list byte) (err : error) (s : Z) :
  Forall (rec_ok Decrypt enc n) recs -> n < 2 ^ 64 ->
  fst (read Decrypt enc tail) = Err err ->
  scan_loop Decrypt (S (length (encode recs ++ tail))) enc (encode recs ++ tail) s =
    Some (if at_end err then Ok (fold_left later recs s) else Err err).
Proof.
  intros Hall Hn Hr. pose proof (length_encode recs) as Hle.
  rewrite (scan_loop_app enc n recs tail Hall Hn) by (rewrite length_app; lia).
  rewrite length_app.
  replace (S (length (encode recs) + length tail) - length recs)%nat
    with (S (length (encode recs) + length tail - length recs)) by lia.
  cbn [scan_loop]. destruct (read Decrypt enc tail) as [res r'].
  cbn [fst] in Hr. subst res. now destruct err.
Qed.

Lemma replay_loop_damaged {A} (enc : option EncState) (n : Z) (recs : Recs)
    (tail : list byte) (err : error) (fn : A -> Entry -> A * option error) (a : A) :
  Forall (rec_ok Decrypt enc n) recs -> n < 2 ^ 64 ->
  fst (read Decrypt enc tail) = Err err ->
  replay_loop Decrypt (S (length (encode recs ++ tail))) enc fn (encode recs ++ tail) a =
    Some match feed fn (map fst recs) a with
         | (a', Ok _) => (a', if at_end err then Ok tt else Err err)
         | r => r
         end.
Proof.
  intros Hall Hn Hr. pose proof (length_encode recs) as Hle.
  rewrite (replay_loop_app enc n recs tail fn Hall Hn) by (rewrite length_app; lia).
  destruct (feed fn (map fst recs) a) as [a' [[]|e|]]; try reflexivity.
  rewrite length_app.
  replace (S (length (encode recs) + length tail) - length recs)%nat
    with (S (length (encode recs) + length tail - length recs)) by lia.
  cbn [replay_loop]. destruct (read Decrypt enc tail) as [res r'].
  cbn [fst] in Hr. subst res. now destruct err.
Qed.

Lemma replay_segments_app {A} (st : Storage) (enc : option EncState)
    (fn : A -> Entry -> A * option error) (names1 names2 : list string) :
  forall a : A,
  replay_segments Decrypt st enc fn (names1 ++ names2) a =
    match replay_segments Decrypt st enc fn names1 a with
    | (a', Ok _) => replay_segments Decrypt st enc fn names2 a'
    | r => r
    end.
Proof.
  induction names1 as [|name names1 IH]; intros a; [reflexivity|].
  cbn [app replay_segments].
  destruct (Open st name) as [r| |]; try apply IH.
  destruct (replay_loop Decrypt (S (length r)) enc fn r a) as [[a' [[]|e|]]|];
    try reflexivity.
  apply IH.
Qed.

(** [Replay] over a directory whose segments are whole records, but for
    one that goes on, after its whole records, with bytes on which
    [read] fails. *)
Lemma Replay_damaged {A} (j : Journal) (n : Z) (before : list Recs) (recs : Recs)
    (tail : list byte) (files : list (list byte)) (err : error)
    (fn : A -> Entry -> A * option error) (a : A) :
  storage j = disk (map encode before ++ (encode recs ++ tail) :: files) ->
  Forall (Forall (rec_ok Decrypt (encryptor j) n)) before ->
  Forall (rec_ok Decrypt (encryptor j) n) recs -> n < 2 ^ 64 ->
  len before + 1 + len files <= 999999 ->
  fst (read Decrypt (encryptor j) tail) = Err err ->
  Replay Decrypt j fn a =
    match feed fn (entries (before ++ [recs])) a with
    | (a', Ok _) =>
        if at_end err
        then replay_segments Decrypt (storage j) (encryptor j) fn
               (map seg_name (List.seq (S (length before)) (length files))) a'
        else (a', Err err)
    | r => r
    end.
Proof.
  intros Hst Hbefore Hrecs Hn Hb Hr. unfold Replay. unfold len in Hb.
  set (all := map encode before ++ (encode recs ++ tail) :: files) in *.
  assert (length all = (length before + S (length files))%nat) as Hlen.
  { unfold all. rewrite length_app, length_map. reflexivity. }
  rewrite Hst, List_disk by (unfold len; lia). rewrite <- Hst.
  rewrite Hlen, List.seq_app, map_app, replay_segments_app.
  rewrite (replay_segments_log Decrypt (storage j) (encryptor j) n fn before Hn Hbefore 0%nat).
  2:{ intros i r Hi. rewrite Hst. apply disk_from_lookup; [lia|].
      unfold all. rewrite lookup_app_l by (rewrite length_map; eapply lookup_lt_Some, Hi).
      now rewrite list_lookup_fmap, Hi. }
  rewrite entries_snoc_seg, feed_app.
  destruct (feed fn (entries before) a) as [a1 [[]|e|]]; try reflexivity.
  cbn [List.seq map replay_segments plus]. unfold Open, io.Reader.
  assert (storage j !! seg_name (length before) = Some (encode recs ++ tail)) as Hd.
  { rewrite Hst. apply (disk_from_lookup all 0 (length before)); [lia|].
    unfold all. rewrite lookup_app_r by (rewrite length_map; lia).
    now rewrite length_map, Nat.sub_diag. }
  rewrite Hd, (replay_loop_damaged (encryptor j) n recs tail err fn a1 Hrecs Hn Hr).
  destruct (feed fn (map fst recs) a1) as [a2 [[]|e|]]; try reflexivity.
  now destruct (at_end err).
Qed.

(** [New] over a directory whose last segment is [d]. *)
Lemma New_scans_latest (init : list (list byte)) (d : list byte) (maxSz : Z)
    (enc : option EncState) :
  len init + 1 <= 999999 ->
  let st := disk (init ++ [d]) in
  let name := seg_name (length init) in
  New Decrypt st maxSz enc =
    match scan_loop Decrypt (S (length d)) enc d 0 with
    | Some (Ok s) =>
        Ok (mkJournal st name (Some {| h_name := name; h_closed := false |})
              (Some NewWriter) s (len d)
              (if maxSz =? 0 then 64 * 1024 * 1024 else maxSz)
              (len init + 1) enc)
    | Some (Err e) => Err e
    | _ => Panic
    end.
Proof.
  intros Hb st name. unfold len in Hb.
  assert (st !! name = Some d) as Hd.
  { apply (disk_from_lookup (init ++ [d]) 0 (length init)).
    - rewrite length_app. cbn [length]. lia.
    - rewrite lookup_app_r by lia. now rewrite Nat.sub_diag. }
  assert (name = segmentName (len init + 1)) as Hname by reflexivity.
  unfold New, openLatest. jfields.
  assert (In name (List st)) as Hin.
  { apply In_List. split; [rewrite Hd; eauto|]. rewrite Hname. apply has_suffix_app. }
  destruct (List st) as [|nm names] eqn:EL; [destruct Hin|].
  rewrite <- EL in Hin |- *.
  change (fold_left _ (List st) 0) with (fold_left pick_latest (List st) 0).
  rewrite (fold_pick_latest (len init + 1) (List st)); [| unfold len; lia | | unfold len; lia | right; now rewrite <- Hname].
  2:{ intros nm' Hnm. apply In_List in Hnm as [Hs _].
      destruct (disk_from_names _ 0 nm' Hs) as (i & Hi & ->).
      rewrite length_app in Hi. cbn [length] in Hi.
      exists (Z.of_nat i + 1). split; [unfold len; lia | reflexivity]. }
  rewrite <- Hname. unfold scan. jfields. unfold Open, io.Reader. rewrite Hd.
  destruct (scan_loop Decrypt (S (length d)) enc d 0) as [[s|e|]|]; try reflexivity.
  jfields. unfold OpenAppend. rewrite Hd. reflexivity.
Qed.

End DamagedSegment.

Section DamagedJournal.
Context {EncState : Type}.
Variable Decrypt : EncState -> list byte -> outcome (list byte).

Abbreviation Recs := (list (Entry * list byte)).

(** C3 (amended).  A directory of segments of whole records, in one of
    which the whole records [recs] are followed by a partial record: the
    first [k] bytes of a framed record, [0 < k < 8 + len data].

    If the file ends right after the 4-byte length field or right after
    the 8-byte header, [read] answers [io.EOF] there and the partial
    record is the end of the segment: [Replay] hands over the entries of
    all segments and returns no error, and when the segment is the last
    one, [New] succeeds, with the greatest sequence number of [recs].

    If the file ends inside the length field, inside the checksum field
    or inside the payload, [read] answers [io.ErrUnexpectedEOF]:
    [Replay] hands over the entries up to the partial record and returns
    that error, and when the segment is the last one, [New] fails with
    it. *)
Theorem partial_record_at_end_of_segment {A} (enc : option EncState) (n : Z)
    (before after : list Recs) (recs : Recs) (data : list byte) (k maxSz : Z)
    (fn : A -> Entry -> A * option error) (a : A) :
  Forall (Forall (rec_ok Decrypt enc n)) (before ++ recs :: after) -> n < 2 ^ 64 ->
  len before + 1 + len after <= 999999 ->
  len data < 2 ^ 32 -> 0 < k < 8 + len data ->
  let partial := take (Z.to_nat k) (frame data) in
  let st := disk (map encode before ++ (encode recs ++ partial) :: map encode after) in
  let at_field_end := (k =? 4) || (k =? 8) in
  fst (read Decrypt enc partial) =
    Err (if at_field_end then EOF else ErrUnexpectedEOF) /\
  (forall j, storage j = st -> encryptor j = enc ->
     Replay Decrypt j fn a =
       if at_field_end then feed fn (entries (before ++ recs :: after)) a
       else match feed fn (entries (before ++ [recs])) a with
            | (a', Ok _) => (a', Err ErrUnexpectedEOF)
            | r => r
            end) /\
  (after = [] ->
   if at_field_end
   then exists j, New Decrypt st maxSz enc = Ok j /\ storage j = st /\
                  encryptor j = enc /\ seq j = fold_left later recs 0
   else New Decrypt st maxSz enc = Err ErrUnexpectedEOF).
Proof.
  intros Hall Hn Hb Hd Hk partial st at_field_end.
  apply Forall_app in Hall as [Hbefore Hrest].
  apply Forall_cons in Hrest as [Hrecs Hafter].
  pose proof (read_partial Decrypt enc data k Hd Hk) as Hr.
  fold partial at_field_end in Hr.
  split; [exact Hr|]. split.
  - intros j Hst <-.
    assert (len (map encode after) = len after) as Hla
      by (unfold len; now rewrite length_map).
    rewrite (Replay_damaged Decrypt j n before recs partial (map encode after)
               _ fn a Hst Hbefore Hrecs Hn ltac:(lia) Hr).
    destruct at_field_end; cbn [at_end].
    + replace (before ++ recs :: after) with ((before ++ [recs]) ++ after)
        by now rewrite <- app_assoc.
      unfold entries at 2. rewrite concat_app, map_app. fold (entries (before ++ [recs])).
      fold (entries after). rewrite feed_app.
      destruct (feed fn (entries (before ++ [recs])) a) as [a1 [[]|e|]]; try reflexivity.
      rewrite length_map.
      apply (replay_segments_log Decrypt (storage j) (encryptor j) n fn after Hn Hafter).
      intros i r Hi. rewrite Hst.
      replace (S (length before) + i)%nat with (0 + (length before + S i))%nat by lia.
      apply disk_from_lookup.
      * rewrite length_app, length_map. cbn [length]. rewrite length_map.
        unfold len in Hb. lia.
      * rewrite lookup_app_r by (rewrite length_map; lia).
        rewrite length_map.
        replace (length before + S i - length before)%nat with (S i) by lia.
        change (map encode after !! i = Some (encode r)).
        now rewrite list_lookup_fmap, Hi.
    + reflexivity.
  - intros ->. subst st. cbn [map].
    pose proof (New_scans_latest Decrypt (map encode before) (encode recs ++ partial)
                  maxSz enc) as HN.
    assert (len (map encode before) = len before) as Hlb
      by (unfold len; now rewrite length_map).
    rewrite Hlb in HN. specialize (HN ltac:(unfold len in *; cbn [length] in Hb; lia)).
    cbv zeta in HN.
    rewrite (scan_loop_damaged Decrypt enc n recs partial _ 0 Hrecs Hn Hr) in HN.
    destruct at_field_end; cbn [at_end] in HN.
    + eexists. split; [exact HN|]. repeat split.
    + exact HN.
Qed.

(** X15.  The checksum catches every change of one byte of a payload,
    wherever the record lies.  In a directory of segments of whole
    records, let one segment hold, after its whole records [recs], a
    stored record in which one byte of the payload (the sealed text,
    when an encryptor is configured) has another value than the one
    written, followed by any bytes, and let any files follow as later
    segments.  Then [read] answers [ErrBadChecksum] on that record,
    before anything is decrypted or parsed; [Replay] hands over the
    entries before the record and returns [ErrBadChecksum]; and when the
    segment is the last one, the startup scan makes [New] fail with
    [ErrBadChecksum]. *)
Theorem read_detects_one_corrupted_byte {A} (enc : option EncState) (n : Z)
    (before : list Recs) (recs : Recs) (files : list (list byte))
    (pre post rest : list byte) (b b' : byte) (maxSz : Z)
    (fn : A -> Entry -> A * option error) (a : A) :
  Forall (Forall (rec_ok Decrypt enc n)) (before ++ [recs]) -> n < 2 ^ 64 ->
  len before + 1 + len files <= 999999 ->
  b <> b' -> len (pre ++ b :: post) < 2 ^ 32 ->
  let data := pre ++ b :: post in
  let stored :=
    binary.PutUint32 (wrap32 (len data)) ++
    binary.PutUint32 (crc32.ChecksumIEEE data) ++ (pre ++ b' :: post) in
  let st := disk (map encode before ++ (encode recs ++ stored ++ rest) :: files) in
  take 8 stored = take 8 (frame data) /\
  read Decrypt enc (stored ++ rest) = (Err ErrBadChecksum, rest) /\
  (forall j, storage j = st -> encryptor j = enc ->
     Replay Decrypt j fn a =
       match feed fn (entries (before ++ [recs])) a with
       | (a', Ok _) => (a', Err ErrBadChecksum)
       | r => r
       end) /\
  (files = [] -> New Decrypt st maxSz enc = Err ErrBadChecksum).
Proof.
  intros Hall Hn Hb Hne Hlen data stored st.
  apply Forall_app in Hall as [Hbefore Hrecs].
  apply Forall_cons in Hrecs as [Hrecs _].
  pose proof (read_corrupted Decrypt enc pre post rest b b' Hne Hlen) as Hread.
  cbv zeta in Hread. fold data in Hread. fold stored in Hread.
  assert (fst (read Decrypt enc (stored ++ rest)) = Err ErrBadChecksum) as Hr
    by now rewrite Hread.
  split; [reflexivity|]. split; [exact Hread|]. split.
  - intros j Hst <-.
    rewrite (Replay_damaged Decrypt j n before recs (stored ++ rest) files
               _ fn a Hst Hbefore Hrecs Hn Hb Hr).
    reflexivity.
  - intros ->. subst st.
    pose proof (New_scans_latest Decrypt (map encode before)
                  (encode recs ++ stored ++ rest) maxSz enc) as HN.
    assert (len (map encode before) = len before) as Hlb
      by (unfold len; now rewrite length_map).
    rewrite Hlb in HN. specialize (HN ltac:(unfold len in *; cbn [length] in Hb; lia)).
    cbv zeta in HN.
    rewrite (scan_loop_damaged Decrypt enc n recs (stored ++ rest) _ 0 Hrecs Hn Hr) in HN.
    exact HN.
Qed.

End DamagedJournal.

Ltac rec_ok_by_computation :=
  repeat (apply List.Forall_cons || apply List.Forall_nil);
  repeat split; first [reflexivity | (vm_compute; discriminate)].

Lemma partial_record_at_end_of_segment_witness :
  let e1 := mkEntry [x6b; x31] [x76; x31] 1 in
  let e2 := mkEntry [x6b; x32] [x76; x32] 2 in
  let e3 := mkEntry [x6b; x33] [x76; x33] 3 in
  let before := [[(e1, entry_body e1)]] in
  let recs := [(e2, entry_body e2)] in
  let fn := fun (a : list Entry) (e : Entry) => (a ++ [e], @None error) in
  let st := disk (map encode before ++
                  (encode recs ++ take (Z.to_nat 8) (frame (entry_body e3))) ::
                  map encode []) in
  Forall (Forall (rec_ok no_Decrypt None 2)) (before ++ recs :: []) /\
  2 < 2 ^ 64 /\ len before + 1 + len (@nil (list (Entry * list byte))) <= 999999 /\
  len (entry_body e3) < 2 ^ 32 /\ 0 < 8 < 8 + len (entry_body e3) /\
  exists j, New no_Decrypt st 0 None = Ok j /\ seq j = 2 /\
            Replay no_Decrypt j fn [] = ([e1; e2], Ok tt).
Proof.
  intros e1 e2 e3 before recs fn st.
  assert (Forall (Forall (rec_ok no_Decrypt None 2)) (before ++ recs :: [])) as H1
    by rec_ok_by_computation.
  assert (2 < 2 ^ 64) as H2 by reflexivity.
  assert (len before + 1 + len (@nil (list (Entry * list byte))) <= 999999) as H3 by (vm_compute; discriminate).
  assert (len (entry_body e3) < 2 ^ 32) as H4 by reflexivity.
  assert (0 < 8 < 8 + len (entry_body e3)) as H5 by (split; reflexivity).
  split; [exact H1|]. split; [exact H2|]. split; [exact H3|].
  split; [exact H4|]. split; [exact H5|].
  destruct (partial_record_at_end_of_segment no_Decrypt None 2 before [] recs
              (entry_body e3) 8 0 fn [] H1 H2 H3 H4 H5) as (_ & HR & HN).
  destruct (HN eq_refl) as (j & EN & Hst & Henc & Hseq).
  exists j. split; [exact EN|]. split; [exact Hseq|].
  exact (HR j Hst Henc).
Defined.

Lemma read_detects_one_corrupted_byte_witness :
  let e1 := mkEntry [x6b; x31] [x76; x31] 1 in
  let recs := [(e1, entry_body e1)] in
  let pre := [x00; x00; x00; x00; x00; x00; x00] in
  let post := [x00; x00; x00; x00; x00; x00; x00; x00] in
  let data := pre ++ x02 :: post in
  let stored :=
    binary.PutUint32 (wrap32 (len data)) ++
    binary.PutUint32 (crc32.ChecksumIEEE data) ++ (pre ++ x03 :: post) in
  let fn := fun (a : list Entry) (e : Entry) => (a ++ [e], @None error) in
  let st := disk (map encode [] ++ (encode recs ++ stored ++ []) :: []) in
  let j := mkJournal st "" None None 0 0 0 0 (@None NoEncryptor) in
  Forall (Forall (rec_ok no_Decrypt None 1)) ([] ++ [recs]) /\
  1 < 2 ^ 64 /\ len (@nil (list (Entry * list byte))) + 1 + len (@nil (list byte)) <= 999999 /\
  x02 <> x03 /\ len data < 2 ^ 32 /\
  read no_Decrypt None (stored ++ []) = (Err ErrBadChecksum, []) /\
  Replay no_Decrypt j fn [] = ([e1], Err ErrBadChecksum) /\
  New no_Decrypt st 0 None = Err ErrBadChecksum.
Proof.
  intros e1 recs pre post data stored fn st j.
  assert (Forall (Forall (rec_ok no_Decrypt None 1)) ([] ++ [recs])) as H1
    by rec_ok_by_computation.
  assert (1 < 2 ^ 64) as H2 by reflexivity.
  assert (len (@nil (list (Entry * list byte))) + 1 + len (@nil (list byte)) <= 999999) as H3
    by (vm_compute; discriminate).
  assert (x02 <> x03) as H4 by discriminate.
  assert (len (pre ++ x02 :: post) < 2 ^ 32) as H5 by reflexivity.
  split; [exact H1|]. split; [exact H2|]. split; [exact H3|].
  split; [exact H4|]. split; [exact H5|].
  destruct (read_detects_one_corrupted_byte no_Decrypt None 1 [] recs [] pre post []
              x02 x03 0 fn [] H1 H2 H3 H4 H5) as (_ & Hread & HR & HN).
  split; [exact Hread|]. split; [exact (HR j eq_refl eq_refl) | exact (HN eq_refl)].
Defined.
